(** * Beatparakeet: the generative scheduling engine

    A shallow embedding of the parts of the repository that decide the
    musical grid:

    - [audio/scheduler.js]   the look-ahead scheduler ([createScheduler]);
    - [Techno.jsx]           note arithmetic, the arrangement resolver
                             ([getSectionForBar]), [triggerLead], [handleBar];
    - [Piano.jsx]            [resolveDegree] and the repeat/terminal [handleBar];
    - [App.jsx]              the progression pool cadence ([onBar]).

    Conventions of the embedding.
    - JavaScript integers (slot, bar, index, MIDI number) are [Z]; the [%]
      operator is the truncating remainder [Z.rem]; [Math.floor (a / b)] is
      [Z.div].
    - Clock times, durations and gains are exact rationals [Q]; equalities
      between them are stated with [==].  IEEE rounding is not modelled.
    - [arr[i]] is [js_index arr i], which is [None] ([undefined]) outside the
      array, negative indexes included.
    - Code that may throw lives in the small exception/state monad [M]; a
      [try { .. } catch {}] block is [tryCatch].
    - Calls that leave the engine (scheduler callbacks, instrument [play],
      master-gain automation, [setTimeout]) are recorded in a log carried by
      the state, in the order the code performs them. *)

From Stdlib Require Import ZArith QArith Qminmax Qround Qabs Lia Lqa List String Ascii Bool.
From stdpp Require Import base list strings gmap pretty.

Open Scope Z_scope.

(** ** JavaScript primitives *)

(** [a % b] on integers: the sign follows the dividend. *)
Definition js_rem (a b : Z) : Z := Z.rem a b.

(** [arr[i]] for an integer [i]: [undefined] outside [0 .. length-1]. *)
Definition js_index {A : Type} (arr : list A) (i : Z) : option A :=
  if i <? 0 then None else arr !! Z.to_nat i.

(** [arr.length]. *)
Definition js_length {A : Type} (arr : list A) : Z := Z.of_nat (length arr).

(** The value of [x || d] for a string-or-undefined [x]. *)
Definition js_or {A : Type} (x : option A) (d : A) : A := default d x.

(** ** Exceptions and state *)

Module Eff.
Section Monad.
Context {S : Type}.

(** Outcome of running a statement from a state: normal completion with a
    value, or an exception that escapes with the state reached so far. *)
Inductive result (A : Type) : Type :=
| Ok (a : A) (s : S)
| Throw (s : S).
Global Arguments Ok {A} a s.
Global Arguments Throw {A} s.

Definition M (A : Type) : Type := S -> result A.

Definition ret {A : Type} (a : A) : M A := fun s => Ok a s.

Definition bind {A B : Type} (m : M A) (k : A -> M B) : M B :=
  fun s => match m s with
           | Ok a s' => k a s'
           | Throw s' => Throw s'
           end.

(** [try { m } catch {}]: the exception is swallowed, the effects made
    before it stay. *)
Definition tryCatch (m : M unit) : M unit :=
  fun s => match m s with
           | Ok _ s' => Ok tt s'
           | Throw s' => Ok tt s'
           end.

Definition modify (f : S -> S) : M unit := fun s => Ok tt (f s).

Definition when (b : bool) (m : M unit) : M unit :=
  if b then m else ret tt.

Definition final {A : Type} (r : result A) : S :=
  match r with Ok _ s => s | Throw s => s end.

Definition threw {A : Type} (r : result A) : bool :=
  match r with Ok _ _ => false | Throw _ => true end.
End Monad.
Global Arguments result : clear implicits.
Global Arguments M : clear implicits.
End Eff.

Notation "x <- m ;; k" := (Eff.bind m (fun x => k))
  (at level 62, m at next level, right associativity).
Notation "m ;;; k" := (Eff.bind m (fun _ => k))
  (at level 62, right associativity).

(** ** Note names and MIDI numbers ([Techno.jsx], same code in [Piano.jsx]) *)

Module Notes.

Definition NOTE_INDEX : gmap string Z :=
  list_to_map
    [("C", 0); ("C#", 1); ("Db", 1); ("D", 2); ("D#", 3); ("Eb", 3);
     ("E", 4); ("F", 5); ("F#", 6); ("Gb", 6); ("G", 7); ("G#", 8);
     ("Ab", 8); ("A", 9); ("A#", 10); ("Bb", 10); ("B", 11)]%string.

Definition NOTE_NAMES_SHARP : list string :=
  ["C"; "C#"; "D"; "D#"; "E"; "F"; "F#"; "G"; "G#"; "A"; "A#"; "B"]%string.

Definition is_letter (c : ascii) : bool :=
  let n := nat_of_ascii c in (65 <=? n)%nat && (n <=? 71)%nat.

Definition is_accidental (c : ascii) : bool :=
  (Ascii.eqb c "b" || Ascii.eqb c "#")%char.

Definition is_digit (c : ascii) : bool :=
  let n := nat_of_ascii c in (48 <=? n)%nat && (n <=? 57)%nat.

Definition digit_value (c : ascii) : Z := Z.of_nat (nat_of_ascii c) - 48.

(** The second capture group [(-?\d)] at the end of the input, read as a
    number. *)
Definition octave_group (s : string) : option Z :=
  match s with
  | String d EmptyString =>
      if is_digit d then Some (digit_value d) else None
  | String m (String d EmptyString) =>
      if Ascii.eqb m "-" && is_digit d then Some (- digit_value d) else None
  | _ => None
  end.

(** [/^([A-G](?:b|#)?)(-?\d)$/.exec(note)]: the two captures, the octave
    already passed through [Number]. *)
Definition note_regex_exec (note : string) : option (string * Z) :=
  match note with
  | String l rest =>
      if is_letter l then
        match rest with
        | String a rest' =>
            if is_accidental a then
              match octave_group rest' with
              | Some o => Some (String l (String a EmptyString), o)
              | None => None
              end
            else
              match octave_group rest with
              | Some o => Some (String l EmptyString, o)
              | None => None
              end
        | EmptyString => None
        end
      else None
  | EmptyString => None
  end.

Definition noteToMidi (note : string) : Z :=
  match note_regex_exec note with
  | None => 60
  | Some (name, octave) =>
      let base := default 0 (NOTE_INDEX !! name) in
      base + (octave + 1) * 12
  end.

(** [midi] is an integer at every call site, so [Math.round] is the
    identity. *)
Definition midiToNote (midi : Z) : string :=
  let clamped := Z.max 0 (Z.min 127 midi) in
  let octave := clamped / 12 - 1 in
  let name := js_or (js_index NOTE_NAMES_SHARP (js_rem clamped 12)) "undefined"%string in
  (name ++ pretty octave)%string.

Definition transpose (note : string) (semitones : Z) : string :=
  midiToNote (noteToMidi note + semitones).

(** The language of the regular expression, stated on its own: a letter
    [A]-[G], an optional [b] or [#], an optional minus sign, one digit. *)
Definition matches_note (s : string) : Prop :=
  exists (l d : ascii) (acc sign : string),
    is_letter l = true /\ is_digit d = true /\
    (acc = "" \/ acc = "b" \/ acc = "#")%string /\
    (sign = "" \/ sign = "-")%string /\
    s = String l (acc ++ sign ++ String d "")%string.

(** The range [midiToNote] clamps to. *)
Definition clamp_midi (x : Z) : Z := Z.max 0 (Z.min 127 x).

Definition roundtrip_ok (m : Z) : bool := noteToMidi (midiToNote m) =? m.

End Notes.

(** ** The look-ahead scheduler ([audio/scheduler.js]) *)

Module Scheduler.

Definition DEFAULT_LOOKAHEAD_MS : Q := 25%Q.
Definition DEFAULT_SCHEDULE_AHEAD_SEC : Q := 0.2%Q.

(** One invocation of a callback, with the arguments it was given. *)
Inductive call : Type :=
| CallSixteenth (t : Q) (ix16 : Z) (bar : Z)
| CallBar (t : Q) (bar : Z).

Section WithWorld.
(** [W] is everything the callbacks can touch.  The scheduler's own
    variables are private to the closure and are not part of it; the
    callbacks of this repository do not call back into the scheduler. *)
Context {W : Type}.

Record callbacks : Type := mkCallbacks {
  onSixteenth : Q -> Z -> Z -> Eff.M W unit;
  onBar : Q -> Z -> Eff.M W unit
}.

Definition noop : callbacks :=
  {| onSixteenth := fun _ _ _ => Eff.ret tt; onBar := fun _ _ => Eff.ret tt |}.

(** The closure variables of [createScheduler], the callbacks' world and
    the log of callback invocations (newest last). *)
Record state : Type := mkState {
  bpm : Q;
  lookaheadMs : Q;
  scheduleAheadSec : Q;
  swing : Q;
  handlers : callbacks;
  nextNoteTime : Q;
  current16th : Z;
  barCount : Z;
  timerId : bool;
  world : W;
  calls : list call
}.

Record options : Type := mkOptions {
  opt_bpm : option Q;
  opt_lookaheadMs : option Q;
  opt_scheduleAheadSec : option Q;
  opt_swing : option Q;
  opt_onSixteenth : option (Q -> Z -> Z -> Eff.M W unit);
  opt_onBar : option (Q -> Z -> Eff.M W unit)
}.

Definition createScheduler (opts : options) (w : W) : state :=
  {| bpm := default 120%Q (opt_bpm opts);
     lookaheadMs := default DEFAULT_LOOKAHEAD_MS (opt_lookaheadMs opts);
     scheduleAheadSec := default DEFAULT_SCHEDULE_AHEAD_SEC (opt_scheduleAheadSec opts);
     swing := default 0%Q (opt_swing opts);
     handlers := {| onSixteenth := default (onSixteenth noop) (opt_onSixteenth opts);
                    onBar := default (onBar noop) (opt_onBar opts) |};
     nextNoteTime := 0%Q;
     current16th := 0;
     barCount := 0;
     timerId := false;
     world := w;
     calls := [] |}.

Definition secondsPerBeat (s : state) : Q := (60 / bpm s)%Q.
Definition sixteenthDur (s : state) : Q := (0.25 * secondsPerBeat s)%Q.

Definition swingOffset (s : state) (ix16 : Z) : Q :=
  if Qeq_bool (swing s) 0 then 0%Q
  else
    let isOff8th := js_rem ix16 4 =? 2 in
    if isOff8th then (swing s * sixteenthDur s)%Q else 0%Q.

(** The three assignments of [advance], in order. *)
Definition advance_vars (s : state) : state :=
  let next := (nextNoteTime s + 0.25 * secondsPerBeat s)%Q in
  let cur := js_rem (current16th s + 1) 16 in
  let bar := if cur =? 0 then barCount s + 1 else barCount s in
  {| bpm := bpm s; lookaheadMs := lookaheadMs s;
     scheduleAheadSec := scheduleAheadSec s; swing := swing s;
     handlers := handlers s;
     nextNoteTime := next; current16th := cur; barCount := bar;
     timerId := timerId s; world := world s; calls := calls s |}.

Definition advance : Eff.M state unit := Eff.modify advance_vars.

(** Calling a callback: the call is logged, the callback runs on the
    world, and whatever it throws propagates. *)
Definition invoke (c : call) (m : Eff.M W unit) : Eff.M state unit :=
  fun s =>
    let s' w := {| bpm := bpm s; lookaheadMs := lookaheadMs s;
                   scheduleAheadSec := scheduleAheadSec s; swing := swing s;
                   handlers := handlers s;
                   nextNoteTime := nextNoteTime s; current16th := current16th s;
                   barCount := barCount s; timerId := timerId s;
                   world := w; calls := calls s ++ [c] |} in
    match m (world s) with
    | Eff.Ok _ w => Eff.Ok tt (s' w)
    | Eff.Throw w => Eff.Throw (s' w)
    end.

(** The body of the [while] loop of [schedule]. *)
Definition schedule_body : Eff.M state unit :=
  fun s =>
    let tSwing := (nextNoteTime s + swingOffset s (current16th s))%Q in
    (Eff.tryCatch
       (invoke (CallSixteenth tSwing (current16th s) (barCount s))
               (onSixteenth (handlers s) tSwing (current16th s) (barCount s))) ;;;
     Eff.when (current16th s =? 0)
       (Eff.tryCatch
          (invoke (CallBar (nextNoteTime s) (barCount s))
                  (onBar (handlers s) (nextNoteTime s) (barCount s)))) ;;;
     advance) s.

(** [schedule] with the clock reading [now]; the [while] loop is unrolled
    at most [fuel] times, [None] when that is not enough. *)
Fixpoint schedule_loop (fuel : nat) (now : Q) (s : state)
  : option (Eff.result state unit) :=
  if Qlt_le_dec (nextNoteTime s) (now + scheduleAheadSec s)%Q then
    match fuel with
    | O => None
    | S fuel' =>
        match schedule_body s with
        | Eff.Ok _ s' => schedule_loop fuel' now s'
        | Eff.Throw s' => Some (Eff.Throw s')
        end
    end
  else Some (Eff.Ok tt s).

(** A number of iterations that suffices when the tempo is positive: the
    sixteenths between the next slot and the horizon, rounded up.  With a
    tempo that is not positive the loop of the source does not advance
    towards the horizon and [schedule] below answers [None]. *)
Definition slots_due (now : Q) (s : state) : nat :=
  Z.to_nat (Qceiling ((now + scheduleAheadSec s - nextNoteTime s) / sixteenthDur s)%Q).

Definition schedule (now : Q) (s : state) : option (Eff.result state unit) :=
  schedule_loop (slots_due now s) now s.

Definition set_timer (running : bool) (next : Q) (cur bar : Z) (s : state) : state :=
  {| bpm := bpm s; lookaheadMs := lookaheadMs s;
     scheduleAheadSec := scheduleAheadSec s; swing := swing s;
     handlers := handlers s;
     nextNoteTime := next; current16th := cur; barCount := bar;
     timerId := running; world := world s; calls := calls s |}.

(** [start(startDelaySec)] when the clock reads [now]. *)
Definition start (now startDelaySec : Q) (s : state) : state :=
  if timerId s then s
  else set_timer true (now + startDelaySec)%Q 0 0 s.

Definition stop (s : state) : state :=
  if timerId s
  then set_timer false (nextNoteTime s) (current16th s) (barCount s) s
  else s.

Definition setBpm (newBpm : Q) (s : state) : state :=
  {| bpm := newBpm; lookaheadMs := lookaheadMs s;
     scheduleAheadSec := scheduleAheadSec s; swing := swing s;
     handlers := handlers s;
     nextNoteTime := nextNoteTime s; current16th := current16th s;
     barCount := barCount s; timerId := timerId s;
     world := world s; calls := calls s |}.

(** [Number(newSwing) || 0] is [newSwing] itself for a number. *)
Definition setSwing (newSwing : Q) (s : state) : state :=
  {| bpm := bpm s; lookaheadMs := lookaheadMs s;
     scheduleAheadSec := scheduleAheadSec s;
     swing := Qmax 0%Q (Qmin 0.75%Q newSwing);
     handlers := handlers s;
     nextNoteTime := nextNoteTime s; current16th := current16th s;
     barCount := barCount s; timerId := timerId s;
     world := world s; calls := calls s |}.

Definition setCallbacks (on16 : option (Q -> Z -> Z -> Eff.M W unit))
           (onB : option (Q -> Z -> Eff.M W unit)) (s : state) : state :=
  {| bpm := bpm s; lookaheadMs := lookaheadMs s;
     scheduleAheadSec := scheduleAheadSec s; swing := swing s;
     handlers := {| onSixteenth := default (onSixteenth (handlers s)) on16;
                    onBar := default (onBar (handlers s)) onB |};
     nextNoteTime := nextNoteTime s; current16th := current16th s;
     barCount := barCount s; timerId := timerId s;
     world := world s; calls := calls s |}.

(** One firing of the interval timer at clock reading [now]. *)
Definition tick (now : Q) (s : state) : option (Eff.result state unit) :=
  if timerId s then schedule now s else Some (Eff.Ok tt s).

(** The timer firing at the clock readings [nows], one after the other.
    An exception escaping a firing does not cancel the interval. *)
Fixpoint run (nows : list Q) (s : state) : option state :=
  match nows with
  | [] => Some s
  | now :: rest =>
      match tick now s with
      | Some r => run rest (Eff.final r)
      | None => None
      end
  end.

(** The states after each firing, for stating per-poll properties. *)
Fixpoint run_states (nows : list Q) (s : state) : option (list (Q * state)) :=
  match nows with
  | [] => Some []
  | now :: rest =>
      match tick now s with
      | Some r =>
          match run_states rest (Eff.final r) with
          | Some l => Some ((now, Eff.final r) :: l)
          | None => None
          end
      | None => None
      end
  end.

(** States the closure variables can be in once [start] has been called. *)
Inductive reachable : state -> Prop :=
| reach_start now delay s : timerId s = false -> reachable (start now delay s)
| reach_advance s : reachable s -> reachable (advance_vars s)
| reach_invoke c m s : reachable s -> reachable (Eff.final (invoke c m s))
| reach_stop s : reachable s -> reachable (stop s)
| reach_setBpm b s : reachable s -> reachable (setBpm b s)
| reach_setSwing x s : reachable s -> reachable (setSwing x s)
| reach_setCallbacks f g s : reachable s -> reachable (setCallbacks f g s).

(** Successive readings of a clock that never runs backwards, the first
    not before [t]. *)
Fixpoint clock_readings (t : Q) (nows : list Q) : Prop :=
  match nows with
  | [] => True
  | now :: rest => (t <= now)%Q /\ clock_readings now rest
  end.

(** The calls one loop iteration makes from [s]. *)
Definition calls_of_slot (s : state) : list call :=
  CallSixteenth (nextNoteTime s + swingOffset s (current16th s))%Q
                (current16th s) (barCount s)
  :: (if current16th s =? 0
      then [CallBar (nextNoteTime s) (barCount s)] else []).

(** What one loop iteration does to the closure variables and the log. *)
Definition slot_step (s s' : state) : Prop :=
  bpm s' = bpm s /\ lookaheadMs s' = lookaheadMs s /\
  scheduleAheadSec s' = scheduleAheadSec s /\ swing s' = swing s /\
  handlers s' = handlers s /\ timerId s' = timerId s /\
  nextNoteTime s' = (nextNoteTime s + sixteenthDur s)%Q /\
  current16th s' = js_rem (current16th s + 1) 16 /\
  barCount s' = (if js_rem (current16th s + 1) 16 =? 0
                 then barCount s + 1 else barCount s) /\
  calls s' = calls s ++ calls_of_slot s.

End WithWorld.
Global Arguments callbacks : clear implicits.
Global Arguments state : clear implicits.
Global Arguments options : clear implicits.

(** The scheduler's own variables and its call log, with the handlers and
    their world forgotten. *)
Definition erase {W : Type} (s : state W) : state unit :=
  {| bpm := bpm s; lookaheadMs := lookaheadMs s;
     scheduleAheadSec := scheduleAheadSec s; swing := swing s;
     handlers := noop;
     nextNoteTime := nextNoteTime s; current16th := current16th s;
     barCount := barCount s; timerId := timerId s;
     world := tt; calls := calls s |}.

(** [createScheduler(ctx)] with no options, and with the tempo and swing of
    the worked examples. *)
Definition no_options {W : Type} : options W :=
  mkOptions None None None None None None.

Definition plain : state unit := createScheduler no_options tt.

Definition swung : state unit :=
  createScheduler (mkOptions (Some 120%Q) None None (Some 0.2%Q) None None) tt.

(** Handlers that count their invocations and then throw, every time. *)
Definition faulty : options nat :=
  mkOptions None None None None
    (Some (fun _ _ _ n => Eff.Throw (S n)))
    (Some (fun _ _ n => Eff.Throw (S n))).

(** The timer firing every 25 ms from clock reading 10. *)
Definition six_polls : list Q := [10; 10.025; 10.05; 10.075; 10.1; 10.125]%Q.

End Scheduler.

(** ** The Techno director ([Techno.jsx]) *)

Module Techno.

Record Intensity : Type := mkIntensity {
  kick : Q; clap : Q; hatsClosed : Q; hatsShuffle : Q; hatsOpen : Q;
  bass : Q; pad : Q; lead : Q; fx : Q
}.

Record Sect : Type := mkSect {
  name : string;
  bars : Z;
  intensity : Intensity;
  bassPattern : string;
  leadPattern : string;
  hatPattern : string;
  fxMode : string
}.

Definition distantIntro : Sect :=
  mkSect "Distant Intro" 16
    (mkIntensity 0.35 0 0.18 0.08 0 0 0.9 0 0.65)
    "none" "none" "light" "wash".
Definition warmBuild : Sect :=
  mkSect "Warm Build" 32
    (mkIntensity 0.7 0.25 0.4 0.3 0.15 0.45 1.0 0.25 0.75)
    "minimal" "tease" "light" "lift".
Definition dropOne : Sect :=
  mkSect "Drop One" 32
    (mkIntensity 1.05 0.55 0.9 0.6 0.35 1.1 0.6 0.75 0.85)
    "driving" "sparkle" "wide" "impact".
Definition airyBreakdown : Sect :=
  mkSect "Airy Breakdown" 16
    (mkIntensity 0.4 0.2 0.25 0.12 0.08 0.3 1.0 0.2 0.9)
    "minimal" "tease" "light" "dive".
Definition secondBuild : Sect :=
  mkSect "Second Build" 32
    (mkIntensity 0.9 0.45 0.8 0.55 0.3 0.9 0.8 0.6 0.8)
    "rolling" "sparkle" "tight" "lift".
Definition finalDrop : Sect :=
  mkSect "Final Drop" 24
    (mkIntensity 1.1 0.6 1.0 0.75 0.5 1.15 0.7 0.95 0.9)
    "anthem" "anthem" "wide" "impact".
Definition outroFade : Sect :=
  mkSect "Outro Fade" 16
    (mkIntensity 0.55 0.2 0.35 0.15 0.05 0.35 0.9 0.1 0.7)
    "minimal" "none" "light" "wash".

Definition ARRANGEMENT : list Sect :=
  [distantIntro; warmBuild; dropOne; airyBreakdown; secondBuild; finalDrop;
   outroFade].

(** [arr.reduce((acc, section) => acc + section.bars, 0)]. *)
Definition total_bars (arr : list Sect) : Z :=
  fold_left (fun acc section => acc + bars section) arr 0.

Definition TOTAL_BARS : Z := total_bars ARRANGEMENT.

Record BassNotes : Type := mkBass {
  root : string; fifth : string; octave : string
}.

(** An entry of [CHORD_LIBRARY]; the fields [pad], [lead] and [bass] carry
    the prefix [chord_] to keep them apart from those of [Intensity]. *)
Record Chord : Type := mkChord {
  chord_pad : list string;
  chord_lead : list string;
  chord_bass : BassNotes
}.

Definition fm9 : Chord :=
  mkChord ["F3"; "Ab3"; "C4"; "Eb4"; "G4"]
          ["C5"; "Eb5"; "F5"; "G5"; "Bb5"; "C6"]
          (mkBass "F2" "C3" "F3").
Definition dbMaj9 : Chord :=
  mkChord ["Db3"; "F3"; "Ab3"; "C4"; "Eb4"]
          ["Ab4"; "C5"; "Db5"; "F5"; "G5"; "Ab5"]
          (mkBass "Db2" "Ab2" "Db3").
Definition eb7sus : Chord :=
  mkChord ["Eb3"; "Ab3"; "Bb3"; "Db4"; "F4"]
          ["Bb4"; "Db5"; "Eb5"; "F5"; "G5"; "Bb5"]
          (mkBass "Eb2" "Bb2" "Eb3").
Definition c7 : Chord :=
  mkChord ["C3"; "E3"; "G3"; "Bb3"; "D4"]
          ["G4"; "Bb4"; "C5"; "D5"; "E5"; "G5"]
          (mkBass "C2" "G2" "C3").
Definition bbMin9 : Chord :=
  mkChord ["Bb2"; "Db3"; "F3"; "Ab3"; "C4"]
          ["F4"; "Ab4"; "Bb4"; "C5"; "Db5"; "F5"]
          (mkBass "Bb1" "F2" "Bb2").
Definition abMaj9 : Chord :=
  mkChord ["Ab2"; "C3"; "Eb3"; "G3"; "Bb3"]
          ["Eb4"; "G4"; "Ab4"; "Bb4"; "C5"; "Eb5"]
          (mkBass "Ab1" "Eb2" "Ab2").

Definition CHORD_SEQUENCE : list Chord :=
  [fm9; dbMaj9; eb7sus; c7; fm9; abMaj9; bbMin9; c7].

(** An entry of [LEAD_PATTERNS]; [len16] may be absent ([??]). *)
Record LeadEvent : Type := mkLead {
  idx : Z; len16 : option Q; vel : Q
}.

Definition lead_ev (i : Z) (l v : Q) : option LeadEvent :=
  Some (mkLead i (Some l) v).

Definition LEAD_PATTERNS : gmap string (list (option LeadEvent)) :=
  list_to_map
    [ ("none", replicate 16 None);
      ("tease",
        [None; None; None; None; lead_ev 0 4 0.5; None; lead_ev 2 3 0.46; None;
         None; lead_ev 1 2 0.45; None; None; lead_ev 3 3 0.48; None; None; None]);
      ("sparkle",
        [lead_ev 0 2 0.48; None; lead_ev 1 2 0.42; None; lead_ev 2 2 0.55; None;
         lead_ev 3 2 0.5; None; lead_ev 4 2 0.58; None; lead_ev 2 2 0.5; None;
         lead_ev 1 2 0.44; None; lead_ev 0 2 0.48; None]);
      ("anthem",
        [lead_ev 4 2 0.68; None; lead_ev 3 2 0.6; lead_ev 2 2 0.56;
         lead_ev 1 2 0.62; None; lead_ev 5 2 0.7; lead_ev 4 2 0.66;
         lead_ev 3 2 0.6; None; lead_ev 2 2 0.56; None; lead_ev 1 2 0.6; None;
         lead_ev 0 2 0.58; lead_ev 2 2 0.55]) ].

(** Whether every event of a lead pattern names a position of the chord's
    lead array. *)
Definition pattern_fits (pat : list (option LeadEvent)) (chord : Chord) : bool :=
  forallb (fun e => match e with
                    | None => true
                    | Some ev => (0 <=? idx ev) && (idx ev <? js_length (chord_lead chord))
                    end) pat.

(** The object [getSectionForBar] returns. *)
Record Lookup : Type := mkLookup {
  section : Sect;
  index : Z;
  offset : Z;
  isSectionStart : bool
}.

(** The [for] loop of [getSectionForBar] from position [i] with the running
    [cursor]; [None] when the loop ends without returning. *)
Fixpoint scan_sections (arr : list Sect) (i cursor bar : Z) : option Lookup :=
  match arr with
  | [] => None
  | section :: rest =>
      let start := cursor in
      let end_ := cursor + bars section in
      if bar <? end_ then
        Some {| section := section; index := i; offset := bar - start;
                isSectionStart := bar =? start |}
      else scan_sections rest (i + 1) end_ bar
  end.

(** [getSectionForBar], the module constant [ARRANGEMENT] made a parameter.
    [None] is the [TypeError] of [ARRANGEMENT[-1].bars] on an empty
    arrangement. *)
Definition getSectionForBar (arr : list Sect) (bar : Z) : option Lookup :=
  match scan_sections arr 0 0 bar with
  | Some found => Some found
  | None =>
      let lastIndex := js_length arr - 1 in
      match js_index arr lastIndex with
      | Some last =>
          Some {| section := last; index := lastIndex;
                  offset := bars last - 1; isSectionStart := false |}
      | None => None
      end
  end.

(** The start bar of section [i]: the value of [cursor] when the loop
    reaches it. *)
Definition section_start (arr : list Sect) (i : nat) : Z :=
  total_bars (take i arr).

(** What the director hands to the synthesis side. *)
Inductive action : Type :=
| PadChord (t : Q) (chord : option Chord) (amt : Q)
| Impact (t amt : Q)
| Riser (t len amt : Q)
| Downshift (t len amt : Q)
| ChordStab (t : Q) (chord : option Chord) (amt : Q)
| LeadPlay (note : option string) (t gain duration : Q)
| CancelScheduledValues (now : Q)
| SetTargetAtTime (target t timeConstant : Q)
| SetTimeoutStop (ms : Z).

(** A loaded soundfont instrument: whether [play] throws on a request. *)
Definition Instrument : Type := option string -> Q -> Q -> Q -> bool.

(** The refs and nodes the callbacks read and write, and the actions
    emitted so far (newest last). *)
Record director : Type := mkDirector {
  arrangementStateRef : Lookup;
  chordRef : option Chord;
  fadeScheduledRef : bool;
  playingRef : bool;
  bpmRef : Q;
  padLevelRef : Q;
  leadLevelRef : Q;
  fxLevelRef : Q;
  leadInstrument : option Instrument;
  emitted : list action
}.

Definition emit (a : action) : Eff.M director unit :=
  Eff.modify (fun d =>
    {| arrangementStateRef := arrangementStateRef d; chordRef := chordRef d;
       fadeScheduledRef := fadeScheduledRef d; playingRef := playingRef d;
       bpmRef := bpmRef d; padLevelRef := padLevelRef d;
       leadLevelRef := leadLevelRef d; fxLevelRef := fxLevelRef d;
       leadInstrument := leadInstrument d;
       emitted := emitted d ++ [a] |}).

Definition set_refs (lookup : Lookup) (chord : option Chord) : Eff.M director unit :=
  Eff.modify (fun d =>
    {| arrangementStateRef := lookup; chordRef := chord;
       fadeScheduledRef := fadeScheduledRef d; playingRef := playingRef d;
       bpmRef := bpmRef d; padLevelRef := padLevelRef d;
       leadLevelRef := leadLevelRef d; fxLevelRef := fxLevelRef d;
       leadInstrument := leadInstrument d;
       emitted := emitted d |}).

Definition set_fadeScheduled (b : bool) : Eff.M director unit :=
  Eff.modify (fun d =>
    {| arrangementStateRef := arrangementStateRef d; chordRef := chordRef d;
       fadeScheduledRef := b; playingRef := playingRef d;
       bpmRef := bpmRef d; padLevelRef := padLevelRef d;
       leadLevelRef := leadLevelRef d; fxLevelRef := fxLevelRef d;
       leadInstrument := leadInstrument d;
       emitted := emitted d |}).

(** [instrument.play(note, time, {gain, duration})]: the request reaches the
    instrument, which may throw. *)
Definition play (inst : Instrument) (note : option string) (t gain duration : Q)
  : Eff.M director unit :=
  emit (LeadPlay note t gain duration) ;;;
  (fun d => if inst note t gain duration then Eff.Throw d else Eff.Ok tt d).

(** The index [triggerLead] reads [chord.lead] at. *)
Definition lead_index (chord : Chord) (event : LeadEvent) : Z :=
  Z.min (js_length (chord_lead chord) - 1) (idx event).

Definition triggerLead (time : Q) (chord : Chord) (event : LeadEvent) (leadAmt : Q)
  : Eff.M director unit :=
  fun d =>
    match leadInstrument d with
    | None => Eff.Ok tt d
    | Some inst =>
        if negb (playingRef d) then Eff.Ok tt d
        else
          let secondsPerBeat := (60 / bpmRef d)%Q in
          let sixteenth := (secondsPerBeat / 4)%Q in
          let duration :=
            Qmax (sixteenth * default 2%Q (len16 event))%Q (sixteenth * 0.7)%Q in
          let idx := lead_index chord event in
          let note := js_index (chord_lead chord) idx in
          Eff.tryCatch (play inst note time (leadAmt * vel event)%Q duration) d
    end.

(** [handleBar(time, barCount)] with [now] the reading of [ctx.currentTime].
    Sections are compared by identity in the source; the elements of
    [ARRANGEMENT] are distinct objects, so identity is equality of
    [index]. *)
Definition handleBar (now time : Q) (barCount : Z) : Eff.M director unit :=
  fun d =>
    match getSectionForBar ARRANGEMENT barCount with
    | None => Eff.Throw d
    | Some lookup =>
        let prev := arrangementStateRef d in
        let changed := negb (index prev =? index lookup) in
        let chord := js_index CHORD_SEQUENCE (js_rem barCount (js_length CHORD_SEQUENCE)) in
        let padAmt := (pad (intensity (section lookup)) * padLevelRef d)%Q in
        let fxAmt := (fx (intensity (section lookup)) * fxLevelRef d)%Q in
        let secondsPerBeat := (60 / bpmRef d)%Q in
        (set_refs lookup chord ;;;
         emit (PadChord time chord padAmt) ;;;
         Eff.when (changed && (0 <? barCount))
           (if String.eqb (fxMode (section lookup)) "impact" then
              emit (Impact time (fxAmt * 1.1)%Q)
            else if String.eqb (fxMode (section lookup)) "wash" then
              emit (Riser time (secondsPerBeat * 6)%Q (fxAmt * 0.7)%Q)
            else if String.eqb (fxMode (section lookup)) "dive" then
              emit (Downshift time (secondsPerBeat * 5)%Q fxAmt)
            else Eff.ret tt) ;;;
         Eff.when ((js_rem (offset lookup) 8 =? 4)
                   && negb (Qle_bool (lead (intensity (section lookup))) 0.2%Q))
           (emit (ChordStab (time + 0.02)%Q chord
                    (lead (intensity (section lookup)) * 0.42 * leadLevelRef d)%Q)) ;;;
         Eff.when ((TOTAL_BARS <=? barCount) && negb (fadeScheduledRef d))
           (set_fadeScheduled true ;;;
            emit (CancelScheduledValues now) ;;;
            emit (SetTargetAtTime 0.0001%Q time 1.5%Q) ;;;
            emit (SetTimeoutStop 4000))) d
    end.

(** What [play] resets before the scheduler is started; [ARRANGEMENT[0]]
    is [distantIntro], and the absent [isSectionStart] reads as false. *)
Definition play_reset (d : director) : director :=
  {| arrangementStateRef :=
       {| section := distantIntro; index := 0; offset := 0;
          isSectionStart := false |};
     chordRef := js_index CHORD_SEQUENCE 0;
     fadeScheduledRef := false; playingRef := playingRef d;
     bpmRef := bpmRef d; padLevelRef := padLevelRef d;
     leadLevelRef := leadLevelRef d; fxLevelRef := fxLevelRef d;
     leadInstrument := leadInstrument d;
     emitted := emitted d |}.

(** The bar callbacks of one run, in the order the scheduler delivers
    them; an exception ends that callback only. *)
Fixpoint bar_callbacks (cbs : list (Q * Q * Z)) (d : director) : director :=
  match cbs with
  | [] => d
  | (now, time, barCount) :: rest =>
      bar_callbacks rest (Eff.final (handleBar now time barCount d))
  end.

Definition is_fade (a : action) : bool :=
  match a with
  | CancelScheduledValues _ | SetTargetAtTime _ _ _ | SetTimeoutStop _ => true
  | _ => false
  end.

(** The fade actions among those emitted so far. *)
Definition fades (d : director) : list action := List.filter is_fade (emitted d).

(** The fade transition [handleBar] schedules: the master-gain ramp and the
    deferred stop. *)
Definition fade_transition (now time : Q) : list action :=
  [CancelScheduledValues now; SetTargetAtTime 0.0001%Q time 1.5%Q;
   SetTimeoutStop 4000].

(** The duration [triggerLead] asks for. *)
Definition lead_duration (d : director) (event : LeadEvent) : Q :=
  Qmax ((60 / bpmRef d) / 4 * default 2%Q (len16 event))%Q
       ((60 / bpmRef d) / 4 * 0.7)%Q.

(** A director with a lead instrument whose [play] always throws, started. *)
Definition stage (inst : option Instrument) : director :=
  {| arrangementStateRef :=
       {| section := distantIntro; index := 0; offset := 0;
          isSectionStart := false |};
     chordRef := js_index CHORD_SEQUENCE 0;
     fadeScheduledRef := false; playingRef := true;
     bpmRef := 120%Q; padLevelRef := 1%Q; leadLevelRef := 1%Q; fxLevelRef := 1%Q;
     leadInstrument := inst;
     emitted := [] |}.

Definition broken_instrument : Instrument := fun _ _ _ _ => true.

End Techno.

(** ** The Piano director's pitch resolution ([Piano.jsx]) *)

Module Piano.

Record BassNotes : Type := mkBass {
  root : option string; fifth : option string; octave : option string
}.

Record Chord : Type := mkChord {
  piano : list string;
  strings : list string;
  winds : list string;
  bass : option BassNotes
}.

(** A pattern degree is a role name or a number. *)
Inductive Degree : Type :=
| Role (r : string)
| Num (n : Z).

(** [transpose] applied to a possibly undefined note: [undefined] is
    coerced to the text "undefined" by the regular expression. *)
Definition transpose_value (note : option string) (semitones : Z) : string :=
  Notes.transpose (default "undefined"%string note) semitones.

(** [a || b] on strings: the empty string is falsy too. *)
Definition str_or (a : option string) (b : option string) : option string :=
  match a with
  | Some EmptyString | None => b
  | Some _ => a
  end.

(** [resolveDegree(chord, degree)]; [None] is [undefined]. *)
Definition resolveDegree (chord : Chord) (degree : Degree) : option string :=
  match degree with
  | Role r =>
      let first := js_index (piano chord) 0 in
      if String.eqb r "bass" then
        str_or (bass chord ≫= root) first
      else if String.eqb r "fifth" then
        str_or (bass chord ≫= fifth) (Some (transpose_value first 7))
      else if String.eqb r "octave" then
        str_or (bass chord ≫= octave) (Some (transpose_value first 12))
      else first
  | Num degree =>
      let list := piano chord in
      if js_length list =? 0 then Some "C4"%string
      else
        let normalized :=
          js_rem (js_rem degree (js_length list) + js_length list) (js_length list) in
        js_index list normalized
  end.

End Piano.

(** ** The progression pool cadence ([App.jsx]) *)

Module App.

Definition Chord : Type := list string.
Definition Progression : Type := list Chord.

Definition DEFAULT_PROGRESS : Progression :=
  [ ["A3"; "C4"; "E4"; "G4"];
    ["F3"; "A3"; "C4"; "E4"];
    ["C3"; "E3"; "G3"; "B3"];
    ["G3"; "B3"; "D4"; "F4"] ]%string.

Definition MINOR_POOLS : list Progression :=
  [ DEFAULT_PROGRESS;
    [ ["A3"; "C4"; "E4"; "G4"];
      ["G3"; "B3"; "D4"; "F4"];
      ["F3"; "A3"; "C4"; "E4"];
      ["E3"; "G#3"; "B3"; "D4"] ]%string;
    [ ["D3"; "F3"; "A3"; "C4"];
      ["G3"; "B3"; "D4"; "F4"];
      ["C3"; "E3"; "G3"; "B3"];
      ["A3"; "C4"; "E4"; "G4"] ]%string ].

Definition CHANGE_EVERY_BARS : Z := 16.

Inductive action : Type :=
| PadChord (t : Q) (chord : Chord)
| Bass (t : Q) (rootNote : option string).

Record refs : Type := mkRefs {
  barsSinceChangeRef : Z;
  progIdxRef : Z;
  progressionRef : option Progression;
  barCountRef : Z;
  emitted : list action
}.

(** [Math.floor(Math.random() * n)] for the value [rnd] that
    [Math.random()] returns. *)
Definition random_index (rnd : Q) (n : Z) : Z := Qfloor (rnd * inject_Z n)%Q.

(** The index chosen at a progression change from the drawn index [drawn],
    for a pool of [n] entries and the previous index [prev]. *)
Definition choose_index (n prev drawn : Z) : Z :=
  if (1 <? n) && (drawn =? prev) then js_rem (drawn + 1) n else drawn.

(** [onBar(time, barIndex)]; [rnd] is what [Math.random()] returns if it is
    called.  The exception is the [TypeError] of reading an undefined
    progression or chord. *)
Definition onBar (rnd : Q) (time : Q) (barIndex : Z) : Eff.M refs unit :=
  fun r =>
    let since := barsSinceChangeRef r + 1 in
    let change := js_rem since CHANGE_EVERY_BARS =? 0 in
    let idx :=
      if change
      then choose_index (js_length MINOR_POOLS) (progIdxRef r)
             (random_index rnd (js_length MINOR_POOLS))
      else progIdxRef r in
    let progression :=
      if change then js_index MINOR_POOLS idx else progressionRef r in
    let r1 := {| barsSinceChangeRef := since; progIdxRef := idx;
                 progressionRef := progression;
                 barCountRef := barCountRef r; emitted := emitted r |} in
    match progression with
    | None => Eff.Throw r1
    | Some prog =>
        match js_index prog (js_rem barIndex (js_length prog)) with
        | None =>
            Eff.Throw {| barsSinceChangeRef := since; progIdxRef := idx;
                         progressionRef := progression;
                         barCountRef := barIndex + 1; emitted := emitted r |}
        | Some chord =>
            Eff.Ok tt {| barsSinceChangeRef := since; progIdxRef := idx;
                         progressionRef := progression;
                         barCountRef := barIndex + 1;
                         emitted := emitted r ++
                                    [PadChord time chord; Bass time (js_index chord 0)] |}
        end
    end.

(** The refs as [toggle] leaves them when playback starts the first time. *)
Definition initial : refs :=
  {| barsSinceChangeRef := 0; progIdxRef := 0;
     progressionRef := Some DEFAULT_PROGRESS; barCountRef := 0; emitted := [] |}.

(** The refs hold a progression of the pool and its index. *)
Definition settled (r : refs) : Prop :=
  exists prog, progressionRef r = Some prog /\ In prog MINOR_POOLS /\
               0 <= progIdxRef r < js_length MINOR_POOLS.

(** Whether this call of [onBar] is a progression-change bar. *)
Definition change_bar (r : refs) : bool :=
  js_rem (barsSinceChangeRef r + 1) CHANGE_EVERY_BARS =? 0.

(** How many of the [n] equally likely draws select index [i]. *)
Definition draws_selecting (n prev i : Z) : nat :=
  length (filter (fun d => choose_index n prev d = i) (seqZ 0 n)).

End App.

(** ** The stream of calls a started scheduler makes *)

Module Grid.

(** The same call up to the value of the time stamps. *)
Inductive call_eq : Scheduler.call -> Scheduler.call -> Prop :=
| call_eq_sixteenth (t t' : Q) (ix16 bar : Z) :
    (t == t')%Q ->
    call_eq (Scheduler.CallSixteenth t ix16 bar) (Scheduler.CallSixteenth t' ix16 bar)
| call_eq_bar (t t' : Q) (bar : Z) :
    (t == t')%Q ->
    call_eq (Scheduler.CallBar t bar) (Scheduler.CallBar t' bar).

(** The calls of the [k]-th sixteenth after a start at [t0], for the
    sixteenth duration [dur] and the swing [sw], written from the grid
    position alone. *)
Definition slot_calls (t0 dur sw : Q) (k : nat) : list Scheduler.call :=
  let grid := (t0 + inject_Z (Z.of_nat k) * dur)%Q in
  let delay :=
    if Qeq_bool sw 0 then 0%Q
    else if Z.of_nat k mod 4 =? 2 then (sw * dur)%Q else 0%Q in
  Scheduler.CallSixteenth (grid + delay)%Q (Z.of_nat k mod 16) (Z.of_nat k / 16)
  :: (if Z.of_nat k mod 16 =? 0
      then [Scheduler.CallBar grid (Z.of_nat k / 16)] else []).

(** The first [n] sixteenths, in order. *)
Definition stream (t0 dur sw : Q) (n : nat) : list Scheduler.call :=
  flat_map (slot_calls t0 dur sw) (seq 0 n).

(** One loop iteration of [schedule] as a function on states without
    handlers. *)
Definition slot (u : Scheduler.state unit) : Scheduler.state unit :=
  Eff.final (Scheduler.schedule_body u).

End Grid.

(** ** Bass roles, instrument voices and the sixteenth callback of the
    Techno director ([Techno.jsx]) *)

Module TechnoBeat.
Import Techno.

(** Whether [midiToNote m] is a text the note pattern accepts. *)
Definition name_parses (m : Z) : bool :=
  match Notes.note_regex_exec (Notes.midiToNote m) with
  | Some _ => true
  | None => false
  end.

(** [a || b] for a note name [a]: the empty text is falsy. *)
Definition or_note (a b : string) : string :=
  match a with
  | EmptyString => b
  | _ => a
  end.

Definition resolveBassRole (chord : Chord) (role : string) : string :=
  let root := root (chord_bass chord) in
  let fifth := fifth (chord_bass chord) in
  let octave := octave (chord_bass chord) in
  if String.eqb role "root" then root
  else if String.eqb role "fifth" then or_note fifth (Notes.transpose root 7)
  else if String.eqb role "octave" then or_note octave (Notes.transpose root 12)
  else if String.eqb role "rootHi" then Notes.transpose root 12
  else if String.eqb role "ghostDown" then Notes.transpose root (-2)
  else if String.eqb role "ghostUp" then Notes.transpose root (-1)
  else if String.eqb role "walkUp" then Notes.transpose root 5
  else if String.eqb role "walkDown" then Notes.transpose (or_note fifth root) (-3)
  else root.

(** The role names the [switch] of [resolveBassRole] knows. *)
Definition bass_roles : list string :=
  ["root"; "fifth"; "octave"; "rootHi"; "ghostDown"; "ghostUp"; "walkUp";
   "walkDown"]%string.

(** An entry of [BASS_PATTERNS]. *)
Record BassEvent : Type := mkBassEvent {
  step : Z; role : string; bass_len16 : option Q; bass_vel : Q
}.

Definition bass_ev (s : Z) (r : string) (l v : Q) : BassEvent :=
  mkBassEvent s r (Some l) v.

Definition BASS_PATTERNS : gmap string (list BassEvent) :=
  list_to_map
    [ ("none", []);
      ("minimal",
        [bass_ev 0 "root" 6 1.0; bass_ev 8 "root" 4 0.85; bass_ev 12 "fifth" 4 0.8]);
      ("rolling",
        [bass_ev 0 "root" 6 1.05; bass_ev 2 "ghostDown" 2 0.5;
         bass_ev 4 "fifth" 4 0.95; bass_ev 6 "ghostUp" 2 0.52;
         bass_ev 8 "octave" 4 0.98; bass_ev 12 "root" 6 1.0;
         bass_ev 14 "ghostDown" 2 0.58]);
      ("driving",
        [bass_ev 0 "root" 6 1.15; bass_ev 1 "ghostDown" 1 0.48;
         bass_ev 2 "fifth" 4 0.92; bass_ev 3 "ghostUp" 1 0.52;
         bass_ev 4 "octave" 4 1.02; bass_ev 6 "ghostDown" 2 0.55;
         bass_ev 8 "root" 4 1.08; bass_ev 10 "fifth" 3 0.9;
         bass_ev 12 "octave" 6 1.1; bass_ev 14 "ghostUp" 2 0.58]);
      ("anthem",
        [bass_ev 0 "root" 6 1.2; bass_ev 2 "fifth" 4 0.95;
         bass_ev 4 "octave" 6 1.1; bass_ev 6 "walkUp" 2 0.72;
         bass_ev 8 "rootHi" 4 1.05; bass_ev 10 "fifth" 3 0.92;
         bass_ev 12 "octave" 6 1.18; bass_ev 14 "walkDown" 2 0.78]) ].

(** *** The instrument voices *)

Inductive voice : Type := PadVoice | StabVoice | BassVoice.

(** One [instrument.play(note, time, {gain, duration})]. *)
Record request : Type := mkRequest {
  req_voice : voice;
  req_note : option string;
  req_time : Q;
  req_gain : Q;
  req_duration : Q
}.

(** The nodes and refs the trigger functions read, and the requests made
    so far (newest last). *)
Record voices : Type := mkVoices {
  padInstrument : option Instrument;
  stabInstrument : option Instrument;
  bassInstrument : option Instrument;
  playing : bool;
  bpm : Q;
  requests : list request
}.

Definition record_request (r : request) : Eff.M voices unit :=
  Eff.modify (fun v =>
    {| padInstrument := padInstrument v; stabInstrument := stabInstrument v;
       bassInstrument := bassInstrument v; playing := playing v; bpm := bpm v;
       requests := requests v ++ [r] |}).

(** The request reaches the instrument, which may throw. *)
Definition play_voice (inst : Instrument) (r : request) : Eff.M voices unit :=
  record_request r ;;;
  (fun v => if inst (req_note r) (req_time r) (req_gain r) (req_duration r)
            then Eff.Throw v else Eff.Ok tt v).

(** [arr.forEach((x, idx) => f(x, idx))] from index [i] on. *)
Fixpoint forEach {A S : Type} (f : A -> Z -> Eff.M S unit) (arr : list A) (i : Z)
  : Eff.M S unit :=
  match arr with
  | [] => Eff.ret tt
  | x :: rest => f x i ;;; forEach f rest (i + 1)
  end.

(** [schedulePadChord(time, chord, padAmt)]; an undefined [chord] makes
    [chord.pad] throw once the guard is passed. *)
Definition schedulePadChord (time : Q) (chord : option Chord) (padAmt : Q)
  : Eff.M voices unit :=
  fun v =>
    match padInstrument v with
    | None => Eff.Ok tt v
    | Some inst =>
        if negb (playing v) then Eff.Ok tt v
        else
          let secondsPerBeat := (60 / bpm v)%Q in
          let duration := (secondsPerBeat * 4 * 0.95)%Q in
          match chord with
          | None => Eff.Throw v
          | Some chord =>
              forEach (fun note idx =>
                         let weight := if idx =? 0 then 0.6%Q else 0.4%Q in
                         Eff.tryCatch
                           (play_voice inst
                              (mkRequest PadVoice (Some note) time
                                 (padAmt * weight)%Q duration)))
                      (chord_pad chord) 0 v
          end
    end.

(** The three notes [maybeTriggerChordStab] voices from the pad array. *)
Definition stab_voicing (chord : Chord) : list (option string) :=
  let pad i := js_index (chord_pad chord) i in
  [ Piano.str_or (pad 1) (pad 0);
    Piano.str_or (pad 3) (pad 2);
    Piano.str_or (pad 4) (Some (Piano.transpose_value (pad 2) 7)) ].

Definition maybeTriggerChordStab (time : Q) (chord : option Chord) (amt : Q)
  : Eff.M voices unit :=
  fun v =>
    match stabInstrument v with
    | None => Eff.Ok tt v
    | Some inst =>
        if negb (playing v) then Eff.Ok tt v
        else
          let secondsPerBeat := (60 / bpm v)%Q in
          let duration := (secondsPerBeat * 0.9)%Q in
          match chord with
          | None => Eff.Throw v
          | Some chord =>
              forEach (fun note idx =>
                         Eff.tryCatch
                           (play_voice inst
                              (mkRequest StabVoice note time
                                 (amt * (if idx =? 0 then 0.4 else 0.3))%Q duration)))
                      (stab_voicing chord) 0 v
          end
    end.

Definition bass_duration (v : voices) (event : BassEvent) : Q :=
  Qmax ((60 / bpm v) / 4 * default 2%Q (bass_len16 event))%Q
       ((60 / bpm v) / 4 * 0.9)%Q.

Definition triggerBass (time : Q) (chord : option Chord) (event : BassEvent)
           (bassAmt : Q) : Eff.M voices unit :=
  fun v =>
    match bassInstrument v with
    | None => Eff.Ok tt v
    | Some inst =>
        if negb (playing v) then Eff.Ok tt v
        else
          let secondsPerBeat := (60 / bpm v)%Q in
          let sixteenth := (secondsPerBeat / 4)%Q in
          let duration :=
            Qmax (sixteenth * default 2%Q (bass_len16 event))%Q (sixteenth * 0.9)%Q in
          match chord with
          | None => Eff.Throw v
          | Some chord =>
              let note := resolveBassRole chord (role event) in
              Eff.tryCatch
                (play_voice inst
                   (mkRequest BassVoice (Some note) time
                      (bassAmt * bass_vel event)%Q duration)) v
          end
    end.

(** Voices whose instruments throw on every request. *)
Definition all_broken : voices :=
  {| padInstrument := Some broken_instrument;
     stabInstrument := Some broken_instrument;
     bassInstrument := Some broken_instrument;
     playing := true; bpm := 120%Q; requests := [] |}.

(** *** The sixteenth callback *)

(** The refs [handleSixteenth] reads besides the arrangement state and the
    chord. *)
Record live : Type := mkLive {
  energyRef : Q;
  bassLevelRef : Q;
  leadLevelRef : Q;
  fxLevelRef : Q;
  bpmRef : Q
}.

(** What [Math.random()] returns at each of the three places that may call
    it. *)
Record draws : Type := mkDraws {
  draw_shuffle : Q;
  draw_tick : Q;
  draw_stab : Q
}.

(** The trigger calls [handleSixteenth] makes. *)
Inductive trigger : Type :=
| TriggerKick (t accent : Q)
| TriggerClap (t amt : Q)
| TriggerHat (t amt : Q) (open : bool)
| TriggerPercTick (t amt : Q)
| TriggerRiser (t len amt : Q)
| TriggerBass (t : Q) (chord : option Chord) (event : BassEvent) (amt : Q)
| TriggerLead (t : Q) (chord : option Chord) (event : LeadEvent) (amt : Q)
| TriggerStab (t : Q) (chord : option Chord) (amt : Q).

(** [a > b] and [a < b] on numbers. *)
Definition gt (a b : Q) : bool := negb (Qle_bool a b).
Definition lt (a b : Q) : bool := negb (Qle_bool b a).

Definition one (b : bool) (t : trigger) : list trigger := if b then [t] else [].

(** [handleSixteenth(time, sixteenth, barCount)] as the list of trigger
    calls it makes, in order.  [state] is [arrangementStateRef.current] and
    [chord] is [chordRef.current]. *)
Definition handleSixteenth (state : Lookup) (chord : option Chord) (l : live)
           (r : draws) (time : Q) (sixteenth : Z) : list trigger :=
  let section := section state in
  let offset := offset state in
  let energy := energyRef l in
  let base := intensity section in
  let hatEnergy := (hatsClosed base * (0.55 + energy * 0.7))%Q in
  let shuffleEnergy := (hatsShuffle base * (0.35 + energy * 0.8))%Q in
  let openEnergy := (hatsOpen base * (0.3 + energy * 0.75))%Q in
  let bassAmt := (bass base * (0.85 + energy * 0.5) * bassLevelRef l)%Q in
  let leadAmt := (lead base * (0.7 + energy * 0.65) * leadLevelRef l)%Q in
  let barsRemaining := bars section - offset - 1 in
  let beatIndex := js_rem sixteenth 4 in
  let light := String.eqb (hatPattern section) "light" in
  let tight := String.eqb (hatPattern section) "tight" in
  one (beatIndex =? 0)
      (TriggerKick time (kick base * (0.85 + energy * 0.3))%Q)
  ++ one (((sixteenth =? 4) || (sixteenth =? 12)) && gt (clap base) 0.01)
         (TriggerClap time (clap base * (0.7 + energy * 0.35))%Q)
  ++ one (js_rem sixteenth 2 =? 0)
         (TriggerHat time
            (hatEnergy * (if light then 0.78 else if tight then 0.95 else 1.1)
             * (if beatIndex =? 0 then 1.08 else 1))%Q false)
  ++ one (negb light && (js_rem sixteenth 2 =? 1) && gt shuffleEnergy 0.02
          && lt (draw_shuffle r) (if tight then 0.65 else 0.45))
         (TriggerHat time (shuffleEnergy * 0.72)%Q false)
  ++ one (gt openEnergy 0.01 && ((sixteenth =? 6) || (sixteenth =? 14)))
         (TriggerHat time openEnergy true)
  ++ one (negb light && (sixteenth =? 15) && lt (draw_tick r) 0.4)
         (TriggerPercTick time (hatsShuffle base * 0.5)%Q)
  ++ one (String.eqb (fxMode section) "lift" && (barsRemaining =? 0)
          && (sixteenth =? 0))
         (TriggerRiser time (60 / bpmRef l * 4)%Q (fx base * fxLevelRef l)%Q)
  ++ flat_map (fun event =>
                 one (step event =? sixteenth)
                     (TriggerBass time chord event bassAmt))
              (default [] (BASS_PATTERNS !! bassPattern section))
  ++ match js_index (default [] (LEAD_PATTERNS !! leadPattern section)) sixteenth with
     | Some (Some leadEvent) => [TriggerLead time chord leadEvent leadAmt]
     | _ => []
     end
  ++ one (String.eqb (fxMode section) "impact" && (sixteenth =? 0)
          && (js_rem offset 4 =? 0) && gt (fx base) 0.05)
         (TriggerPercTick (time + 0.18)%Q (fx base * 0.6)%Q)
  ++ one (String.eqb (fxMode section) "dive" && (sixteenth =? 0)
          && gt (fx base) 0.1 && (js_rem offset 2 =? 0))
         (TriggerPercTick (time + 0.12)%Q (fx base * 0.4)%Q)
  ++ one (String.eqb (fxMode section) "impact" && (sixteenth =? 15)
          && (js_rem (offset + 1) 8 =? 0))
         (TriggerClap (time + 0.1)%Q (fx base * 0.9)%Q)
  ++ one (String.eqb (leadPattern section) "anthem" && (sixteenth =? 12)
          && lt (draw_stab r) 0.6)
         (TriggerStab (time + 0.02)%Q chord (lead base * 0.35 * leadLevelRef l)%Q).

(** What a trigger call is, apart from its amplitude: the kind, the time
    and, for the pitched ones, the chord and the pattern event. *)
Inductive shape : Type :=
| SKick (t : Q) | SClap (t : Q) | SHat (t : Q) (open : bool) | SPercTick (t : Q)
| SRiser (t : Q)
| SBass (t : Q) (chord : option Chord) (event : BassEvent)
| SLead (t : Q) (chord : option Chord) (event : LeadEvent)
| SStab (t : Q) (chord : option Chord).

Definition shape_of (g : trigger) : shape :=
  match g with
  | TriggerKick t _ => SKick t
  | TriggerClap t _ => SClap t
  | TriggerHat t _ o => SHat t o
  | TriggerPercTick t _ => SPercTick t
  | TriggerRiser t _ _ => SRiser t
  | TriggerBass t c e _ => SBass t c e
  | TriggerLead t c e _ => SLead t c e
  | TriggerStab t c _ => SStab t c
  end.

Definition is_kick (g : trigger) : bool :=
  match g with TriggerKick _ _ => true | _ => false end.

End TechnoBeat.

(** ** The Piano director: arrangement, bar callback and [playPiano]
    ([Piano.jsx]) *)

Module PianoScore.
Import Piano.

Record Intensity : Type := mkIntensity {
  i_piano : Q; i_strings : Q; i_winds : Q; i_texture : Q
}.

Record Sect : Type := mkSect {
  name : string;
  bars : Z;
  intensity : Intensity;
  pianoPattern : string;
  stringMode : string;
  windMode : string;
  textureMode : string;
  pedalChord : bool;
  sparkle : Q
}.

Definition stillWater : Sect :=
  mkSect "Still Water" 16 (mkIntensity 0.72 0.3 0.08 0.2)
    "delicate" "drones" "sparse" "mist" true 0.08.
Definition firstTheme : Sect :=
  mkSect "First Theme" 24 (mkIntensity 0.85 0.45 0.15 0.26)
    "rolling" "arcs" "answer" "stream" true 0.14.
Definition openSkies : Sect :=
  mkSect "Open Skies" 20 (mkIntensity 0.78 0.55 0.22 0.28)
    "wide" "legato" "duet" "breeze" true 0.18.
Definition quietRiver : Sect :=
  mkSect "Quiet River" 28 (mkIntensity 0.82 0.5 0.12 0.22)
    "cascade" "drones" "sparse" "stream" false 0.1.
Definition returnToLight : Sect :=
  mkSect "Return To Light" 18 (mkIntensity 0.68 0.42 0.1 0.18)
    "delicate" "legato" "tail" "mist" true 0.06.

Definition ARRANGEMENT : list Sect :=
  [stillWater; firstTheme; openSkies; quietRiver; returnToLight].

Definition TOTAL_BARS : Z :=
  fold_left (fun sum section => sum + bars section) ARRANGEMENT 0.

Definition chord_of (piano strings winds : list string) (r f o : string) : Chord :=
  mkChord piano strings winds (Some (mkBass (Some r) (Some f) (Some o))).

Definition dm9 : Chord :=
  chord_of ["D4"; "A4"; "C5"; "E5"; "F5"; "A5"] ["D3"; "F3"; "A3"; "C4"; "E4"]
           ["A4"; "C5"; "E5"; "F5"] "D2" "A2" "D3".
Definition bbMaj7 : Chord :=
  chord_of ["Bb3"; "F4"; "A4"; "C5"; "D5"; "F5"] ["Bb2"; "D3"; "F3"; "A3"; "C4"]
           ["F4"; "A4"; "C5"; "D5"] "Bb1" "F2" "Bb2".
Definition fMaj9 : Chord :=
  chord_of ["F3"; "C4"; "E4"; "G4"; "A4"; "C5"] ["F2"; "A2"; "C3"; "E3"; "G3"]
           ["C4"; "E4"; "G4"; "A4"] "F2" "C3" "F3".
Definition cAdd9 : Chord :=
  chord_of ["C4"; "G4"; "D5"; "E5"; "G5"; "B5"] ["C3"; "E3"; "G3"; "B3"; "D4"]
           ["G4"; "B4"; "D5"; "E5"] "C2" "G2" "C3".
Definition gm9 : Chord :=
  chord_of ["G3"; "D4"; "F4"; "A4"; "Bb4"; "D5"] ["G2"; "Bb2"; "D3"; "F3"; "A3"]
           ["D4"; "F4"; "A4"; "Bb4"] "G2" "D3" "G3".
Definition am7 : Chord :=
  chord_of ["A3"; "E4"; "G4"; "C5"; "D5"; "E5"] ["A2"; "C3"; "E3"; "G3"; "B3"]
           ["E4"; "G4"; "C5"; "D5"] "A2" "E3" "A3".
Definition aSus : Chord :=
  chord_of ["A3"; "E4"; "B4"; "D5"; "E5"; "A5"] ["A2"; "D3"; "E3"; "A3"; "B3"]
           ["E4"; "A4"; "B4"; "D5"] "A2" "E3" "A3".

Definition CHORD_SEQUENCE : list Chord :=
  [dm9; bbMaj7; fMaj9; cAdd9; gm9; dm9; bbMaj7; aSus].

Record Lookup : Type := mkLookup {
  section : Sect;
  index : Z;
  offset : Z;
  isSectionStart : bool
}.

(** The [for] loop of the Piano copy of [getSectionForBar]. *)
Fixpoint scan_sections (arr : list Sect) (i cursor bar : Z) : option Lookup :=
  match arr with
  | [] => None
  | section :: rest =>
      let start := cursor in
      let end_ := cursor + bars section in
      if bar <? end_ then
        Some {| section := section; index := i; offset := bar - start;
                isSectionStart := bar =? start |}
      else scan_sections rest (i + 1) end_ bar
  end.

Definition getSectionForBar (arr : list Sect) (bar : Z) : option Lookup :=
  match scan_sections arr 0 0 bar with
  | Some found => Some found
  | None =>
      let lastIndex := js_length arr - 1 in
      match js_index arr lastIndex with
      | Some last =>
          Some {| section := last; index := lastIndex;
                  offset := bars last - 1; isSectionStart := false |}
      | None => None
      end
  end.

(** The calls the bar callback makes. *)
Inductive action : Type :=
| UpdateTexture (mode : string) (amount : Q)
| ScheduleStrings (t : Q) (chord : option Chord) (amount : Q) (mode : string) (offset : Z)
| ScheduleWinds (t : Q) (chord : option Chord) (amount : Q) (mode : string) (offset : Z)
| SchedulePedalChord (t : Q) (chord : option Chord) (strength : Q)
| CancelScheduledValues (now : Q)
| SetTargetAtTime (target t timeConstant : Q)
| SetTimeoutStop (ms : Z).

Record director : Type := mkDirector {
  repeatRef : bool;
  arrangementStateRef : Lookup;
  chordRef : option Chord;
  fadeScheduledRef : bool;
  pianoLevelRef : Q;
  stringsLevelRef : Q;
  windsLevelRef : Q;
  emitted : list action
}.

Definition with_emitted (d : director) (fade : bool) (acts : list action) : director :=
  {| repeatRef := repeatRef d; arrangementStateRef := arrangementStateRef d;
     chordRef := chordRef d; fadeScheduledRef := fade;
     pianoLevelRef := pianoLevelRef d; stringsLevelRef := stringsLevelRef d;
     windsLevelRef := windsLevelRef d;
     emitted := emitted d ++ acts |}.

(** [handleBar(time, barCount)] with [now] the reading of
    [ctx.currentTime]. *)
Definition handleBar (now time : Q) (barCount : Z) : Eff.M director unit :=
  fun d =>
    let effectiveBar := if repeatRef d then js_rem barCount TOTAL_BARS else barCount in
    if negb (repeatRef d) && (TOTAL_BARS <=? barCount) then
      if negb (fadeScheduledRef d) then
        Eff.Ok tt (with_emitted d true
                     [CancelScheduledValues now;
                      SetTargetAtTime 0.0001%Q (time + 2)%Q 2.5%Q;
                      SetTimeoutStop 8000])
      else Eff.Ok tt d
    else
      match getSectionForBar ARRANGEMENT effectiveBar with
      | None => Eff.Throw d
      | Some lookup =>
          let chord := js_index CHORD_SEQUENCE
                         (js_rem effectiveBar (js_length CHORD_SEQUENCE)) in
          let sec := section lookup in
          let stringsAmt := (i_strings (intensity sec) * stringsLevelRef d)%Q in
          let windsAmt := (i_winds (intensity sec) * windsLevelRef d)%Q in
          Eff.Ok tt
            {| repeatRef := repeatRef d; arrangementStateRef := lookup;
               chordRef := chord; fadeScheduledRef := fadeScheduledRef d;
               pianoLevelRef := pianoLevelRef d; stringsLevelRef := stringsLevelRef d;
               windsLevelRef := windsLevelRef d;
               emitted :=
                 emitted d
                 ++ [UpdateTexture (textureMode sec) (i_texture (intensity sec));
                     ScheduleStrings time chord stringsAmt (stringMode sec) (offset lookup);
                     ScheduleWinds time chord windsAmt (windMode sec) (offset lookup)]
                 ++ (if pedalChord sec
                     then [SchedulePedalChord time chord
                             (i_piano (intensity sec) * pianoLevelRef d * 0.45)%Q]
                     else []) |}
      end.

(** The bar callbacks of a run. *)
Fixpoint bar_callbacks (cbs : list (Q * Q * Z)) (d : director) : director :=
  match cbs with
  | [] => d
  | (now, time, barCount) :: rest =>
      bar_callbacks rest (Eff.final (handleBar now time barCount d))
  end.

Definition is_fade (a : action) : bool :=
  match a with
  | CancelScheduledValues _ | SetTargetAtTime _ _ _ | SetTimeoutStop _ => true
  | _ => false
  end.

(** A director as [play] leaves it, in repeat mode or not. *)
Definition stage (repeat : bool) : director :=
  {| repeatRef := repeat;
     arrangementStateRef := mkLookup stillWater 0 0 false;
     chordRef := Some dm9; fadeScheduledRef := false;
     pianoLevelRef := 0.85%Q; stringsLevelRef := 0.7%Q; windsLevelRef := 0.55%Q;
     emitted := [] |}.

(** *** [playPiano] *)

(** The [octave] and [shift] entries of a pattern event: absent, one number
    for all notes, or one entry per note. *)
Inductive per_note : Type :=
| Absent
| Single (n : Z)
| PerNote (l : list Z).

Record PianoEvent : Type := mkEvent {
  degrees : option (list Degree);
  degree : option Degree;
  ev_octave : per_note;
  ev_shift : per_note;
  len16 : option Q;
  vel : option Q
}.

(** [Array.isArray(x) ? (x[idx] ?? 0) : (x ?? dflt)]. *)
Definition entry (x : per_note) (idx : Z) (dflt : Z) : Z :=
  match x with
  | PerNote l => default 0 (js_index l idx)
  | Single n => n
  | Absent => dflt
  end.

Definition is_bass (deg : Degree) : bool :=
  match deg with
  | Role r => String.eqb r "bass"
  | Num _ => false
  end.

(** The note [playPiano] computes for the degree at position [idx]. *)
Definition event_note (chord : Chord) (event : PianoEvent) (deg : Degree) (idx : Z)
  : string :=
  let base := resolveDegree chord deg in
  let offset := entry (ev_octave event) idx (if is_bass deg then -1 else 0) in
  let shift := entry (ev_shift event) idx 0 in
  transpose_value base (offset * 12 + shift).

Definition event_degrees (event : PianoEvent) : list Degree :=
  match degrees event with
  | Some l => l
  | None => match degree event with
            | Some d => [d]
            | None => [Num 0]
            end
  end.

Record request : Type := mkRequest {
  req_note : string; req_time : Q; req_gain : Q; req_duration : Q
}.

Record player : Type := mkPlayer {
  pianoInstrument : option (string -> Q -> Q -> Q -> bool);
  playingRef : bool;
  bpmRef : Q;
  dynamicsRef : Q;
  requests : list request
}.

Definition play (inst : string -> Q -> Q -> Q -> bool) (r : request)
  : Eff.M player unit :=
  fun p =>
    let p' := {| pianoInstrument := pianoInstrument p; playingRef := playingRef p;
                 bpmRef := bpmRef p; dynamicsRef := dynamicsRef p;
                 requests := requests p ++ [r] |} in
    if inst (req_note r) (req_time r) (req_gain r) (req_duration r)
    then Eff.Throw p' else Eff.Ok tt p'.

(** [playPiano(time, chord, event, baseGain)]; an undefined chord makes
    [resolveDegree] throw while the notes are computed. *)
Definition playPiano (time : Q) (chord : option Chord) (event : PianoEvent)
           (baseGain : Q) : Eff.M player unit :=
  fun p =>
    match pianoInstrument p with
    | None => Eff.Ok tt p
    | Some inst =>
        if negb (playingRef p) then Eff.Ok tt p
        else
          let secondsPerBeat := (60 / bpmRef p)%Q in
          let sixteenth := (secondsPerBeat / 4)%Q in
          let duration :=
            Qmax (sixteenth * default 2%Q (len16 event))%Q (secondsPerBeat * 0.35)%Q in
          let dyn := dynamicsRef p in
          let gainBase := (baseGain * default 0.5%Q (vel event) * (0.6 + dyn * 0.7))%Q in
          let degrees := event_degrees event in
          match chord with
          | None =>
              match degrees with
              | [] => Eff.Ok tt p
              | _ :: _ => Eff.Throw p
              end
          | Some chord =>
              let notes := imap (fun idx deg => event_note chord event deg (Z.of_nat idx))
                                degrees in
              TechnoBeat.forEach
                (fun note idx =>
                   Eff.tryCatch
                     (play inst
                        (mkRequest note time
                           (gainBase * (if idx =? 0 then 1 else 0.75))%Q duration)))
                notes 0 p
          end
    end.

End PianoScore.

(** ** Runs of the [App.jsx] callbacks *)

Module AppRun.
Import App.

(** The refs hold the pool entry their index names. *)
Definition coherent (r : refs) : Prop :=
  0 <= progIdxRef r < js_length MINOR_POOLS /\
  progressionRef r = js_index MINOR_POOLS (progIdxRef r).

(** The bar callbacks of a run, each with the value [Math.random()] would
    return; the scheduler swallows what a callback throws. *)
Fixpoint bar_callbacks (cbs : list (Q * Q * Z)) (r : refs) : refs :=
  match cbs with
  | [] => r
  | (rnd, time, barIndex) :: rest =>
      bar_callbacks rest (Eff.final (onBar rnd time barIndex r))
  end.

(** Whether no callback of the run throws. *)
Fixpoint all_return (cbs : list (Q * Q * Z)) (r : refs) : bool :=
  match cbs with
  | [] => true
  | (rnd, time, barIndex) :: rest =>
      negb (Eff.threw (onBar rnd time barIndex r))
      && all_return rest (Eff.final (onBar rnd time barIndex r))
  end.

(** A callback the scheduler can deliver: a bar index from 0 up and a draw
    in [0, 1). *)
Definition deliverable (c : Q * Q * Z) : Prop :=
  (0 <= fst (fst c))%Q /\ (fst (fst c) < 1)%Q /\ 0 <= snd c.

(** The drum triggers of [onSixteenth]. *)
Inductive drum : Type :=
| Kick (t : Q)
| Snare (t : Q)
| Hat (t : Q).

Definition onSixteenth (time : Q) (sixteenth : Z) : list drum :=
  (if (sixteenth =? 0) || (sixteenth =? 8) then [Kick time] else [])
  ++ (if (sixteenth =? 4) || (sixteenth =? 12) then [Snare time] else [])
  ++ (if js_rem sixteenth 2 =? 0 then [Hat time] else []).

(** The triggers of the sixteen slots of one bar that starts at [t0], a
    sixteenth lasting [dur]. *)
Definition drum_bar (t0 dur : Q) : list drum :=
  flat_map (fun k => onSixteenth (t0 + inject_Z k * dur)%Q k) (seqZ 0 16).

Definition is_kick (d : drum) : bool := match d with Kick _ => true | _ => false end.
Definition is_snare (d : drum) : bool := match d with Snare _ => true | _ => false end.
Definition is_hat (d : drum) : bool := match d with Hat _ => true | _ => false end.

End AppRun.

(** ** Peak normalisation of instrument samples ([audio/normalization.js]) *)

Module Normalization.

(** An [AudioBuffer]: one list of samples per channel. *)
Definition Buffer : Type := list (list Q).

(** A soundfont instrument as [getNormalizationGain] sees it: [None] when
    it has no [buffers] object (or is itself null), else the values of that
    object, some of which may be null. *)
Definition Instrument : Type := option (list (option Buffer)).

Definition gt (a b : Q) : bool := negb (Qle_bool a b).

(** The innermost loop: the running peak over one channel. *)
Definition scan_channel (peak : Q) (data : list Q) : Q :=
  fold_left (fun globalPeak x =>
               let amp := Qabs x in
               if gt amp globalPeak then amp else globalPeak)
            data peak.

Definition scan_buffer (peak : Q) (buf : option Buffer) : Q :=
  match buf with
  | None => peak
  | Some channels => fold_left scan_channel channels peak
  end.

Definition global_peak (entries : list (option Buffer)) : Q :=
  fold_left scan_buffer entries 0%Q.

Definition computePeakNormalizationGain (instrument : Instrument) : Q :=
  match instrument with
  | None => 1%Q
  | Some entries =>
      let globalPeak := global_peak entries in
      if gt globalPeak 0 then (1 / globalPeak)%Q else 1%Q
  end.

(** Every sample of a buffer, and of the instrument. *)
Definition buffer_samples (buf : option Buffer) : list Q :=
  match buf with
  | None => []
  | Some channels => concat channels
  end.

Definition samples (instrument : Instrument) : list Q :=
  match instrument with
  | None => []
  | Some entries => concat (map buffer_samples entries)
  end.

(** The module-level [gainCache]. *)
Definition Cache : Type := gmap string Q.

(** A cache key that counts as given: neither undefined nor empty. *)
Definition given (cacheKey : option string) : option string :=
  match cacheKey with
  | Some EmptyString | None => None
  | Some k => Some k
  end.

(** [getNormalizationGain(instrument, cacheKey)]: the gain and the cache
    afterwards. *)
Definition getNormalizationGain (instrument : Instrument) (cacheKey : option string)
           (gainCache : Cache) : Q * Cache :=
  match given cacheKey with
  | Some k =>
      match gainCache !! k with
      | Some gain => (gain, gainCache)
      | None =>
          let gain := computePeakNormalizationGain instrument in
          (gain, <[k := gain]> gainCache)
      end
  | None => (computePeakNormalizationGain instrument, gainCache)
  end.

Definition clearNormalizationCache (gainCache : Cache) : Cache := ∅.

End Normalization.

(** ** The loop-point analysis tool (WAV script) *)

Module Wav.

Definition gt (a b : Q) : bool := negb (Qle_bool a b).
Definition lt (a b : Q) : bool := negb (Qle_bool b a).

(** *** [findNearestZeroCrossing] *)

(** The test [a <= 0 && b > 0] on [x[i - 1]] and [x[i]]; a comparison with
    an undefined sample is false. *)
Definition rising_at (x : list Q) (i : Z) : bool :=
  match js_index x (i - 1), js_index x i with
  | Some a, Some b => Qle_bool a 0 && gt b 0
  | _, _ => false
  end.

(** One iteration of the search loop on [(best, bestDist)]; [None] is the
    initial [Infinity]. *)
Definition crossing_step (x : list Q) (idx : Z) (st : Z * option Z) (i : Z)
  : Z * option Z :=
  if rising_at x i then
    let d := Z.abs (i - idx) in
    if match snd st with None => true | Some bestDist => d <? bestDist end
    then (i, Some d) else st
  else st.

Definition findNearestZeroCrossing (x : list Q) (idx window : Z) : Z :=
  let start := Z.max 1 (idx - window) in
  let end_ := Z.min (js_length x - 1) (idx + window) in
  fst (fold_left (crossing_step x idx) (seqZ start (end_ - start)) (idx, None)).

(** The indexes the loop visits. *)
Definition visited (x : list Q) (idx window : Z) (i : Z) : Prop :=
  Z.max 1 (idx - window) <= i < Z.min (js_length x - 1) (idx + window).

(** What the search loop has established after visiting the indexes from
    [lo] up to [m - 1]. *)
Definition crossing_inv (x : list Q) (idx lo m : Z) (st : Z * option Z) : Prop :=
  match snd st with
  | None => fst st = idx /\ forall i, lo <= i < m -> rising_at x i = false
  | Some d =>
      lo <= fst st < m /\ rising_at x (fst st) = true /\
      d = Z.abs (fst st - idx) /\
      forall i, lo <= i < m -> rising_at x i = true ->
                d < Z.abs (i - idx) \/ (d = Z.abs (i - idx) /\ fst st <= i)
  end.

(** *** The 16-bit sample codec: the quantiser of [writeWav16] and the
    16-bit decoder of [parseWav] *)

(** A sample as [writeWav16] reads it from a [Float32Array]. *)
Inductive sample : Type :=
| Finite (v : Q)
| NotFinite.

(** [Math.round]: the nearest integer, halves upwards. *)
Definition round (x : Q) : Z := Qfloor (x + (1 # 2))%Q.

(** The statements of the inner loop of [writeWav16] up to
    [writeInt16LE]. *)
Definition quantize16 (s : sample) : Z :=
  let v := match s with Finite v => v | NotFinite => 0%Q end in
  let v := if gt v 1 then 1%Q else v in
  let v := if lt v (-1) then (-1)%Q else v in
  Z.max (-32768) (Z.min 32767 (round (v * 32767)%Q)).

(** The two clamping statements of [writeWav16] on their own. *)
Definition clamped (v : Q) : Q :=
  let v := if gt v 1 then 1%Q else v in
  if lt v (-1) then (-1)%Q else v.

(** [buf.readInt16LE(p) / 32768] of [parseWav], on the integer read. *)
Definition decode16 (s : Z) : Q := (inject_Z s / 32768)%Q.

(** *** The 24-bit decoder of [parseWav] *)

(** [b0 | (b1 << 8) | (b2 << 16)] with the sign extension
    [if (val & 0x800000) val |= ~0xffffff]. *)
Definition pcm24 (b0 b1 b2 : Z) : Z :=
  let val := Z.lor (Z.lor b0 (Z.shiftl b1 8)) (Z.shiftl b2 16) in
  if Z.land val 8388608 =? 0 then val
  else Z.lor val (Z.lnot 16777215).

Definition decode24 (b0 b1 b2 : Z) : Q := (inject_Z (pcm24 b0 b1 b2) / 8388608)%Q.

Definition is_byte (b : Z) : Prop := 0 <= b < 256.

(** *** [decimate] *)

(** [sum += x[start + k]] for [k] from 0 to [factor - 1]; [None] is the
    [NaN] that an undefined sample would give. *)
Definition block_sum (x : list Q) (start factor : Z) : option Q :=
  fold_left (fun sum k =>
               match sum, js_index x (start + k) with
               | Some s, Some v => Some (s + v)%Q
               | _, _ => None
               end)
            (seqZ 0 factor) (Some 0%Q).

(** [decimate(x, factor)] for an integer [factor]; an entry [None] would be
    a [NaN]. *)
Definition decimate (x : list Q) (factor : Z) : list (option Q) :=
  if factor <=? 1 then map Some x
  else
    let n := js_length x / factor in
    map (fun i =>
           match block_sum x (i * factor) factor with
           | Some sum => Some (sum / inject_Z factor)%Q
           | None => None
           end)
        (seqZ 0 n).

End Wav.

(** ** The earlier [App] component with cycling progressions and bus gains
    (the [App] that follows [Tones.jsx] in [vite.config.js]) *)

Module AppCycle.

Definition SILENCE_EPS : Q := 5 # 10000.

Definition CHORD_PROGRESSIONS : list App.Progression :=
  [ [ ["A3"; "C4"; "E4"; "G4"];
      ["F3"; "A3"; "C4"; "E4"];
      ["C3"; "E3"; "G3"; "B3"];
      ["G3"; "B3"; "D4"; "F4"] ]%string;
    [ ["D3"; "F3"; "A3"; "C4"];
      ["G3"; "B3"; "D4"; "F4"];
      ["C3"; "E3"; "G3"; "B3"];
      ["A3"; "C4"; "E4"; "G4"] ]%string;
    [ ["A3"; "C4"; "E4"; "G4"];
      ["G3"; "B3"; "D4"; "F4"];
      ["F3"; "A3"; "C4"; "E4"];
      ["E3"; "G#3"; "B3"; "D4"] ]%string ].

Definition CHANGE_EVERY_BARS : Z := 16.

(** The calls the two callbacks make, with the default arguments of
    [triggerSnare] and [triggerHat] filled in. *)
Inductive action : Type :=
| TriggerKick (time : Q)
| TriggerSnare (time level decaySec : Q)
| TriggerHat (time level decaySec : Q)
| TriggerBass (time : Q) (rootNote : option string)
| TriggerChord (time : Q) (chord : option App.Chord).

Record refs : Type := mkRefs {
  drumsGainRef : Q;
  bassGainRef : Q;
  chordsGainRef : Q;
  bpmRef : Q;
  sfChord : bool;  (* whether the chord instrument is loaded *)
  barsSinceChangeRef : Z;
  progIdxRef : Z;
  progressionRef : option App.Progression;
  barCountRef : Z;
  emitted : list action
}.

Definition gt (a b : Q) : bool := negb (Qle_bool a b).

Definition with_bars (since idx : Z) (prog : option App.Progression)
  (count : Z) (out : list action) (r : refs) : refs :=
  {| drumsGainRef := drumsGainRef r; bassGainRef := bassGainRef r;
     chordsGainRef := chordsGainRef r; bpmRef := bpmRef r; sfChord := sfChord r;
     barsSinceChangeRef := since; progIdxRef := idx; progressionRef := prog;
     barCountRef := count; emitted := emitted r ++ out |}.

(** [onSixteenth(time, sixteenth, barIndex)]: the calls it makes, in
    order. *)
Definition onSixteenth (r : refs) (time : Q) (sixteenth barIndex : Z) : list action :=
  (if gt (drumsGainRef r) SILENCE_EPS then
     (if (sixteenth =? 0) || (sixteenth =? 8) then [TriggerKick time] else [])
     ++ (if (sixteenth =? 4) || (sixteenth =? 12)
         then [TriggerSnare time (9 # 10) (12 # 100)] else [])
     ++ (if js_rem sixteenth 2 =? 0 then [TriggerHat time (6 # 10) (4 # 100)] else [])
   else [])
  ++ (if gt (drumsGainRef r) SILENCE_EPS && (sixteenth =? 15)
         && (js_rem (barIndex + 1) 4 =? 0)
      then
        let beatSec := (60 / bpmRef r)%Q in
        let offset := ((1 # 8) * beatSec)%Q in
        [TriggerHat (time + offset) (1 # 2) (3 # 100);
         TriggerSnare (time + offset) (35 # 100) (8 # 100)]
      else []).

(** [onBar(time, barIndex)].  The exceptions are the [TypeError]s of reading
    an undefined progression, of [chord[0]] on an undefined chord and of
    [chord.length] inside [triggerChord] when the instrument is loaded. *)
Definition onBar (time : Q) (barIndex : Z) : Eff.M refs unit :=
  fun r =>
    match progressionRef r with
    | None => Eff.Throw r
    | Some prog =>
        let chord := js_index prog (js_rem barIndex (js_length prog)) in
        let count := barIndex + 1 in
        let keep := with_bars (barsSinceChangeRef r) (progIdxRef r) (progressionRef r) count in
        let bass :=
          if gt (bassGainRef r) SILENCE_EPS
          then match chord with
               | Some c => Some [TriggerBass time (js_index c 0)]
               | None => None
               end
          else Some [] in
        match bass with
        | None => Eff.Throw (keep [] r)
        | Some bass =>
            let chords :=
              if gt (chordsGainRef r) SILENCE_EPS then [TriggerChord time chord] else [] in
            let thrown :=
              gt (chordsGainRef r) SILENCE_EPS && sfChord r
              && match chord with None => true | Some _ => false end in
            if thrown then Eff.Throw (keep (bass ++ chords) r)
            else
              let since := barsSinceChangeRef r + 1 in
              let change := js_rem since CHANGE_EVERY_BARS =? 0 in
              let idx :=
                if change
                then js_rem (progIdxRef r + 1) (js_length CHORD_PROGRESSIONS)
                else progIdxRef r in
              let prog' :=
                if change then js_index CHORD_PROGRESSIONS idx else progressionRef r in
              Eff.Ok tt (with_bars since idx prog' count (bass ++ chords) r)
        end
    end.

(** What the counters hold before the callback of bar [b] in a run from the
    reset counters. *)
Definition cycle_inv (b : Z) (r : refs) : Prop :=
  0 <= b /\ barsSinceChangeRef r = b /\ progIdxRef r = (b / 16) mod 3 /\
  progressionRef r = js_index CHORD_PROGRESSIONS (progIdxRef r).

(** The counters as [toggle] resets them when playback starts. *)
Definition reset (r : refs) : refs :=
  {| drumsGainRef := drumsGainRef r; bassGainRef := bassGainRef r;
     chordsGainRef := chordsGainRef r; bpmRef := bpmRef r; sfChord := sfChord r;
     barsSinceChangeRef := 0; progIdxRef := 0;
     progressionRef := js_index CHORD_PROGRESSIONS 0;
     barCountRef := 0; emitted := emitted r |}.

(** The bar callbacks of a run, for the bar times in order and the first bar
    index; the scheduler swallows what a callback throws. *)
Fixpoint bar_run (times : list Q) (barIndex : Z) (r : refs) : refs :=
  match times with
  | [] => r
  | t :: rest => bar_run rest (barIndex + 1) (Eff.final (onBar t barIndex r))
  end.

Fixpoint all_return (times : list Q) (barIndex : Z) (r : refs) : bool :=
  match times with
  | [] => true
  | t :: rest =>
      negb (Eff.threw (onBar t barIndex r))
      && all_return rest (barIndex + 1) (Eff.final (onBar t barIndex r))
  end.

(** The chord of bar [barIndex] of a run from the reset counters: the
    progressions in turn, sixteen bars each, four chords each. *)
Definition chord_at (barIndex : Z) : option App.Chord :=
  match js_index CHORD_PROGRESSIONS ((barIndex / 16) mod 3) with
  | Some prog => js_index prog (barIndex mod 4)
  | None => None
  end.

(** The calls of the bar callback for a chord, under the gains of [r]. *)
Definition bar_actions (r : refs) (time : Q) (chord : option App.Chord) : list action :=
  (if gt (bassGainRef r) SILENCE_EPS
   then [TriggerBass time (match chord with Some c => js_index c 0 | None => None end)]
   else [])
  ++ (if gt (chordsGainRef r) SILENCE_EPS then [TriggerChord time chord] else []).

Fixpoint run_actions (r : refs) (times : list Q) (barIndex : Z) : list action :=
  match times with
  | [] => []
  | t :: rest => bar_actions r t (chord_at barIndex) ++ run_actions r rest (barIndex + 1)
  end.

(** The calls of the sixteen slots of bar [barIndex] that starts at [t0], a
    sixteenth lasting [dur]. *)
Definition drum_bar (r : refs) (t0 dur : Q) (barIndex : Z) : list action :=
  flat_map (fun k => onSixteenth r (t0 + inject_Z k * dur)%Q k barIndex) (seqZ 0 16).

End AppCycle.

(** * Properties *)

(** ** JavaScript primitives *)

Lemma js_index_Some {A : Type} (arr : list A) (i : Z) :
  0 <= i < js_length arr -> exists a, js_index arr i = Some a.
Proof.
  intros [Hlo Hhi]. unfold js_index, js_length in *.
  destruct (Z.ltb_spec i 0) as [Hneg|_]; [lia|].
  destruct (lookup_lt_is_Some_2 arr (Z.to_nat i)) as [a Ha]; [lia|].
  exists a. exact Ha.
Qed.

Lemma js_index_None {A : Type} (arr : list A) (i : Z) :
  i < 0 \/ js_length arr <= i -> js_index arr i = None.
Proof.
  intros H. unfold js_index, js_length in *.
  destruct (Z.ltb_spec i 0) as [Hneg|Hpos]; [reflexivity|].
  apply lookup_ge_None_2. lia.
Qed.

Lemma js_rem_nonneg (a b : Z) : 0 <= a -> 0 < b -> js_rem a b = a mod b.
Proof. intros Ha Hb. unfold js_rem. apply Z.rem_mod_nonneg; lia. Qed.

(** ** Notes *)

Section NotesFacts.
Import Notes.

Lemma octave_group_matches (s : string) (o : Z) :
  octave_group s = Some o ->
  exists (d : ascii) (sign : string),
    is_digit d = true /\ (sign = "" \/ sign = "-")%string /\
    s = (sign ++ String d "")%string.
Proof.
  unfold octave_group. intros H.
  destruct s as [|c [|d [|e t]]]; try discriminate H.
  - destruct (is_digit c) eqn:Hc; [|discriminate H].
    exists c, ""%string. auto.
  - destruct (Ascii.eqb_spec c "-"%char) as [->|Hne]; [|discriminate H].
    destruct (is_digit d) eqn:Hd; [|discriminate H].
    exists d, "-"%string. auto.
Qed.

(** Whatever the executable matcher accepts is in the language of the
    regular expression. *)
Lemma note_regex_exec_sound (s name : string) (o : Z) :
  note_regex_exec s = Some (name, o) -> matches_note s.
Proof.
  unfold note_regex_exec, matches_note. intros H.
  destruct s as [|l rest]; [discriminate|].
  destruct (is_letter l) eqn:Hl; [|discriminate].
  destruct rest as [|a rest']; [discriminate|].
  destruct (is_accidental a) eqn:Ha.
  - destruct (octave_group rest') as [o'|] eqn:Ho; [|discriminate].
    destruct (octave_group_matches _ _ Ho) as (d & sign & Hd & Hs & ->).
    exists l, d, (String a ""), sign. repeat split; auto.
    unfold is_accidental in Ha. apply orb_true_iff in Ha.
    destruct Ha as [Ha|Ha]; apply Ascii.eqb_eq in Ha; subst; auto.
  - destruct (octave_group (String a rest')) as [o'|] eqn:Ho; [|discriminate].
    destruct (octave_group_matches _ _ Ho) as (d & sign & Hd & Hs & Heq).
    exists l, d, ""%string, sign. repeat split; auto.
    simpl. now rewrite Heq.
Qed.

Lemma digit_not_special (d : ascii) :
  is_digit d = true -> is_accidental d = false /\ d <> "-"%char.
Proof.
  destruct d as [[] [] [] [] [] [] [] []]; vm_compute; intros H;
    try discriminate; split; congruence.
Qed.

(** Conversely the matcher accepts every member of the language. *)
Lemma note_regex_exec_complete (s : string) :
  matches_note s -> exists name o, note_regex_exec s = Some (name, o).
Proof.
  intros (l & d & acc & sign & Hl & Hd & Hacc & Hsign & ->).
  destruct (digit_not_special d Hd) as [Hnacc Hnminus].
  unfold note_regex_exec. rewrite Hl.
  destruct Hacc as [->|[->| ->]]; destruct Hsign as [->| ->]; simpl;
    rewrite ?Hnacc, ?Hd; simpl; eexists _, _; reflexivity.
Qed.

Lemma midiToNote_clamp (x : Z) : midiToNote x = midiToNote (clamp_midi x).
Proof.
  unfold midiToNote, clamp_midi.
  replace (Z.max 0 (Z.min 127 (Z.max 0 (Z.min 127 x))))
    with (Z.max 0 (Z.min 127 x)) by lia.
  reflexivity.
Qed.

Lemma roundtrip_table : forallb roundtrip_ok (seqZ 0 128) = true.
Proof. vm_compute. reflexivity. Qed.

Lemma noteToMidi_midiToNote (m : Z) :
  0 <= m <= 127 -> noteToMidi (midiToNote m) = m.
Proof.
  intros Hm.
  pose proof roundtrip_table as Htab.
  rewrite forallb_forall in Htab.
  apply Z.eqb_eq. apply Htab.
  apply list_elem_of_In, elem_of_seqZ. lia.
Qed.
End NotesFacts.

(** C10 (as stated, refuted): G9 is MIDI 127, inside the MIDI range, and
    transposing it up one semitone leaves its MIDI value at 127 instead of
    moving it by one. *)
Lemma C10_transpose_saturates :
  Notes.noteToMidi "G9" = 127 /\
  Notes.noteToMidi (Notes.transpose "G9" 1) <> Notes.noteToMidi "G9" + 1.
Proof. split; vm_compute; congruence. Qed.

(** C10 (amended): [noteToMidi (midiToNote m) = m] on 0..127; [transpose]
    moves the MIDI value of a note by the requested semitones whenever the
    target stays within 0..127 and in general lands on the target clamped to
    that range; [noteToMidi] answers 60 on every text outside the language
    of its regular expression. *)
Theorem C10_midi_roundtrip_and_transpose :
  (forall m : Z, 0 <= m <= 127 -> Notes.noteToMidi (Notes.midiToNote m) = m) /\
  (forall (note : string) (semitones : Z),
      Notes.noteToMidi (Notes.transpose note semitones)
      = Notes.clamp_midi (Notes.noteToMidi note + semitones)) /\
  (forall (note : string) (semitones : Z),
      0 <= Notes.noteToMidi note + semitones <= 127 ->
      Notes.noteToMidi (Notes.transpose note semitones)
      = Notes.noteToMidi note + semitones) /\
  (forall s : string, ~ Notes.matches_note s -> Notes.noteToMidi s = 60).
Proof.
  assert (Hclamp : forall x, Notes.noteToMidi (Notes.midiToNote x) = Notes.clamp_midi x).
  { intros x. rewrite midiToNote_clamp.
    apply noteToMidi_midiToNote. unfold Notes.clamp_midi. lia. }
  split; [exact noteToMidi_midiToNote|].
  split; [intros note st; unfold Notes.transpose; apply Hclamp|].
  split.
  - intros note st Hr. unfold Notes.transpose. rewrite Hclamp.
    unfold Notes.clamp_midi. lia.
  - intros s Hs. unfold Notes.noteToMidi.
    destruct (Notes.note_regex_exec s) as [[name o]|] eqn:He; [|reflexivity].
    exfalso. apply Hs. eapply note_regex_exec_sound. exact He.
Qed.

(** The statement at MIDI 61, at Bb1 moved down three semitones and at the
    text H4. *)
Lemma C10_midi_roundtrip_and_transpose_witness :
  Notes.noteToMidi (Notes.midiToNote 61) = 61 /\
  Notes.noteToMidi (Notes.transpose "Bb1" (-3)) = Notes.noteToMidi "Bb1" + -3 /\
  Notes.noteToMidi "H4" = 60.
Proof.
  destruct C10_midi_roundtrip_and_transpose as (Hrt & _ & Htr & Hbad).
  split; [apply Hrt; lia|].
  split; [apply Htr; vm_compute; split; discriminate|].
  apply Hbad. intros (l & d & acc & sign & Hl & _ & _ & _ & Heq).
  injection Heq as Hl' _. subst l. vm_compute in Hl. discriminate Hl.
Defined.

(** ** Scheduler *)

Section SchedulerFacts.
Import Scheduler.
Context {W : Type}.
Implicit Types s : state W.

Lemma sixteenthDur_pos s : (0 < bpm s)%Q -> (0 < sixteenthDur s)%Q.
Proof.
  intros Hb. unfold sixteenthDur, secondsPerBeat, Qdiv.
  pose proof (Qinv_lt_0_compat _ Hb) as Hinv.
  set (i := (/ bpm s)%Q) in *. lra.
Qed.

(** One iteration always completes normally, whatever the handlers do,
    and moves the closure variables exactly as with silent handlers. *)
Lemma schedule_body_step s :
  exists s', schedule_body s = Eff.Ok tt s' /\ slot_step s s' /\
             schedule_body (erase s) = Eff.Ok tt (erase s').
Proof.
  unfold schedule_body, Eff.bind, Eff.tryCatch, Eff.when, invoke, advance,
    Eff.modify, Eff.ret.
  cbn [world handlers current16th erase onSixteenth onBar noop].
  destruct (onSixteenth (handlers s) _ _ _ (world s)) as [[] w1|w1];
    cbn [world handlers current16th];
    destruct (current16th s =? 0) eqn:Hc;
    cbn [world handlers current16th];
    try (destruct (onBar (handlers s) _ _ w1) as [[] w2|w2]);
    eexists; (split; [reflexivity|]);
    (split; [|unfold erase, advance_vars; cbn; reflexivity]);
    unfold slot_step, advance_vars, calls_of_slot, sixteenthDur; cbn;
    rewrite ?Hc, <- ?app_assoc; cbn; repeat split; reflexivity.
Qed.

(** A poll never lets an exception out, and its effect on the closure
    variables and the log is the poll of the erased state. *)
Lemma schedule_loop_erase (fuel : nat) (now : Q) s :
  match schedule_loop fuel now s with
  | Some r => Eff.threw r = false /\
              schedule_loop fuel now (erase s) = Some (Eff.Ok tt (erase (Eff.final r)))
  | None => schedule_loop fuel now (erase s) = None
  end.
Proof.
  revert s. induction fuel as [|fuel IH]; intros s; cbn [schedule_loop].
  - change (nextNoteTime (erase s)) with (nextNoteTime s).
    change (scheduleAheadSec (erase s)) with (scheduleAheadSec s).
    destruct (Qlt_le_dec _ _); cbn; auto.
  - change (nextNoteTime (erase s)) with (nextNoteTime s).
    change (scheduleAheadSec (erase s)) with (scheduleAheadSec s).
    destruct (Qlt_le_dec _ _); [|cbn; auto].
    destruct (schedule_body_step s) as (s' & -> & _ & ->).
    apply IH.
Qed.

Lemma schedule_loop_config (fuel : nat) (now : Q) s r :
  schedule_loop fuel now s = Some r ->
  bpm (Eff.final r) = bpm s /\
  scheduleAheadSec (Eff.final r) = scheduleAheadSec s /\
  swing (Eff.final r) = swing s /\
  handlers (Eff.final r) = handlers s /\
  timerId (Eff.final r) = timerId s.
Proof.
  revert s. induction fuel as [|fuel IH]; intros s; cbn [schedule_loop];
    destruct (Qlt_le_dec _ _); try discriminate;
    try (intros [= <-]; cbn; auto).
  destruct (schedule_body_step s) as (s' & -> & Hstep & _).
  intros Hr. destruct (IH _ Hr) as (-> & -> & -> & -> & ->).
  unfold slot_step in Hstep. intuition.
Qed.

(** With a positive tempo the loop ends within [fuel] iterations as soon as
    [fuel] sixteenths cover the distance to the horizon. *)
Lemma schedule_loop_terminates (fuel : nat) (now : Q) s :
  (0 < bpm s)%Q ->
  (now + scheduleAheadSec s - nextNoteTime s
     <= inject_Z (Z.of_nat fuel) * sixteenthDur s)%Q ->
  exists s', schedule_loop fuel now s = Some (Eff.Ok tt s').
Proof.
  intros Hb. revert s Hb.
  induction fuel as [|fuel IH]; intros s Hb Hd; cbn [schedule_loop];
    destruct (Qlt_le_dec _ _) as [Hlt|Hge]; eauto.
  - exfalso. change (inject_Z (Z.of_nat 0)) with 0%Q in Hd. lra.
  - destruct (schedule_body_step s) as (s' & -> & Hstep & _).
    destruct Hstep as (Hb' & _ & Ha' & _ & _ & _ & Hn' & _).
    apply IH.
    + now rewrite Hb'.
    + assert (Hdur : sixteenthDur s' = sixteenthDur s).
      { unfold sixteenthDur, secondsPerBeat. now rewrite Hb'. }
      rewrite Hdur, Ha', Hn'.
      rewrite Nat2Z.inj_succ in Hd. unfold Z.succ in Hd.
      rewrite inject_Z_plus in Hd. change (inject_Z 1) with 1%Q in Hd.
      lra.
Qed.

Lemma slots_due_enough (now : Q) s :
  (0 < bpm s)%Q ->
  (now + scheduleAheadSec s - nextNoteTime s
     <= inject_Z (Z.of_nat (slots_due now s)) * sixteenthDur s)%Q.
Proof.
  intros Hb. pose proof (sixteenthDur_pos s Hb) as Hd.
  unfold slots_due.
  set (x := ((now + scheduleAheadSec s - nextNoteTime s) / sixteenthDur s)%Q).
  assert (Hx : (now + scheduleAheadSec s - nextNoteTime s == x * sixteenthDur s)%Q).
  { unfold x. field. lra. }
  assert (Hc : (x <= inject_Z (Z.of_nat (Z.to_nat (Qceiling x))))%Q).
  { eapply Qle_trans; [apply Qle_ceiling|].
    rewrite <- Zle_Qle. lia. }
  rewrite Hx. apply Qmult_le_compat_r; [exact Hc|lra].
Qed.

(** [schedule] returns whenever the tempo is positive. *)
Lemma schedule_returns (now : Q) s :
  (0 < bpm s)%Q -> exists s', schedule now s = Some (Eff.Ok tt s').
Proof.
  intros Hb. apply schedule_loop_terminates; [exact Hb|].
  now apply slots_due_enough.
Qed.

(** The position of the next slot relative to the horizon when a poll
    ends. *)
Lemma schedule_loop_horizon (fuel : nat) (now : Q) s r :
  schedule_loop fuel now s = Some r ->
  (now + scheduleAheadSec s <= nextNoteTime (Eff.final r))%Q /\
  ((nextNoteTime s < now + scheduleAheadSec s + sixteenthDur s)%Q ->
   (nextNoteTime (Eff.final r) < now + scheduleAheadSec s + sixteenthDur s)%Q).
Proof.
  revert s. induction fuel as [|fuel IH]; intros s; cbn [schedule_loop];
    destruct (Qlt_le_dec _ _) as [Hlt|Hge]; try discriminate;
    try (intros [= <-]; cbn; split; [lra|auto]).
  destruct (schedule_body_step s) as (s' & -> & Hstep & _).
  destruct Hstep as (Hb' & _ & Ha' & _ & _ & _ & Hn' & _).
  intros Hr. destruct (IH _ Hr) as [Hlo Hhi].
  assert (Hdur : sixteenthDur s' = sixteenthDur s).
  { unfold sixteenthDur, secondsPerBeat. now rewrite Hb'. }
  rewrite Hdur, Ha', Hn' in *.
  split; [exact Hlo|]. intros _. apply Hhi. lra.
Qed.

Lemma tick_erase (now : Q) s :
  match tick now s with
  | Some r => Eff.threw r = false /\
              tick now (erase s) = Some (Eff.Ok tt (erase (Eff.final r)))
  | None => tick now (erase s) = None
  end.
Proof.
  unfold tick. change (timerId (erase s)) with (timerId s).
  destruct (timerId s); [|cbn; auto].
  unfold schedule. change (slots_due now (erase s)) with (slots_due now s).
  apply schedule_loop_erase.
Qed.

Lemma run_erase (nows : list Q) s :
  run nows (erase s) = option_map erase (run nows s).
Proof.
  revert s. induction nows as [|now rest IH]; intros s; cbn [run]; [reflexivity|].
  pose proof (tick_erase now s) as Ht.
  destruct (tick now s) as [r|]; [|now rewrite Ht].
  destruct Ht as [_ ->]. cbn [Eff.final]. apply IH.
Qed.

Lemma tick_returns (now : Q) s :
  (0 < bpm s)%Q -> exists s', tick now s = Some (Eff.Ok tt s').
Proof.
  intros Hb. unfold tick. destruct (timerId s); eauto using schedule_returns.
Qed.

(** After every firing of a run the next slot lies between the horizon
    and one sixteenth past it. *)
Lemma run_states_horizon (nows : list Q) (t : Q) s :
  timerId s = true -> (0 < bpm s)%Q ->
  (nextNoteTime s - t < scheduleAheadSec s + sixteenthDur s)%Q ->
  clock_readings t nows ->
  exists l, run_states nows s = Some l /\ map fst l = nows /\
    Forall (fun p =>
              (scheduleAheadSec s <= nextNoteTime (snd p) - fst p)%Q /\
              (nextNoteTime (snd p) - fst p
                 < scheduleAheadSec s + sixteenthDur s)%Q) l.
Proof.
  revert t s. induction nows as [|now rest IH]; intros t s Hrun Hb Hinv Hclk;
    cbn [run_states].
  - exists []. repeat split; constructor.
  - destruct Hclk as [Htn Hclk].
    unfold tick. rewrite Hrun.
    destruct (schedule_returns now s Hb) as (s' & Hs').
    rewrite Hs'. cbn [Eff.final].
    unfold schedule in Hs'.
    destruct (schedule_loop_config _ _ _ _ Hs') as (Hb' & Ha' & _ & _ & Ht').
    destruct (schedule_loop_horizon _ _ _ _ Hs') as [Hlo Hhi].
    cbn [Eff.final] in *.
    assert (Hdur : sixteenthDur s' = sixteenthDur s).
    { unfold sixteenthDur, secondsPerBeat. now rewrite Hb'. }
    assert (Hhi' : (nextNoteTime s' < now + scheduleAheadSec s + sixteenthDur s)%Q).
    { apply Hhi. lra. }
    destruct (IH now s') as (l & -> & Hmap & Hall).
    + now rewrite Ht'.
    + now rewrite Hb'.
    + rewrite Hdur, Ha'. lra.
    + exact Hclk.
    + exists ((now, s') :: l). split; [reflexivity|].
      split; [cbn; now rewrite Hmap|].
      constructor; [cbn; split; lra|].
      rewrite Hdur, Ha' in Hall. exact Hall.
Qed.

Lemma advance_vars_slot s :
  0 <= current16th s < 16 ->
  current16th (advance_vars s) = (current16th s + 1) mod 16 /\
  barCount (advance_vars s)
  = barCount s + (if current16th (advance_vars s) =? 0 then 1 else 0).
Proof.
  intros Hc. unfold advance_vars; cbn. unfold js_rem.
  rewrite Z.rem_mod_nonneg by lia.
  split; [reflexivity|]. destruct (_ =? 0); lia.
Qed.

Lemma reachable_slot s :
  reachable s -> 0 <= current16th s < 16 /\ 0 <= barCount s.
Proof.
  induction 1 as [now delay s Ht|s _ IH|c m s _ IH|s _ IH|b s _ IH|x s _ IH|f g s _ IH].
  - unfold start. rewrite Ht. cbn. lia.
  - destruct (advance_vars_slot s (proj1 IH)) as [-> ->].
    pose proof (Z.mod_pos_bound (current16th s + 1) 16).
    destruct (_ =? 0); lia.
  - unfold invoke. destruct (m (world s)); exact IH.
  - unfold stop. destruct (timerId s); exact IH.
  - exact IH.
  - exact IH.
  - exact IH.
Qed.

Lemma iter_advance_count (n : nat) s :
  current16th s = 0 -> barCount s = 0 ->
  current16th (Nat.iter n advance_vars s) = Z.of_nat n mod 16 /\
  barCount (Nat.iter n advance_vars s) = Z.of_nat n / 16.
Proof.
  intros Hc Hb. induction n as [|n [IHc IHb]].
  - cbn. rewrite Hc, Hb. split; reflexivity.
  - rewrite Nat.iter_succ.
    assert (Hr : 0 <= current16th (Nat.iter n advance_vars s) < 16).
    { rewrite IHc. apply Z.mod_pos_bound. lia. }
    destruct (advance_vars_slot _ Hr) as [-> ->].
    rewrite IHc, IHb, Nat2Z.inj_succ.
    destruct (Z.eqb_spec ((Z.of_nat n mod 16 + 1) mod 16) 0) as [H0|H0];
      revert H0; Z.div_mod_to_equations; lia.
Qed.

(** Polling keeps the scheduler inside the reachable states. *)
Lemma schedule_body_reachable s :
  reachable s -> reachable (Eff.final (schedule_body s)).
Proof.
  intros Hr.
  unfold schedule_body, Eff.bind, Eff.tryCatch, Eff.when, advance,
    Eff.modify, Eff.ret.
  set (c1 := CallSixteenth _ _ _). set (m1 := onSixteenth _ _ _ _).
  set (c2 := CallBar _ _). set (m2 := onBar _ _ _).
  pose proof (reach_invoke c1 m1 s Hr) as H1.
  destruct (invoke c1 m1 s) as [[] s1|s1]; cbn [Eff.final] in *;
    (destruct (current16th s =? 0);
     [ pose proof (reach_invoke c2 m2 s1 H1) as H2;
       destruct (invoke c2 m2 s1) as [[] s2|s2]; cbn [Eff.final] in *;
       now apply reach_advance
     | now apply reach_advance ]).
Qed.

Lemma schedule_loop_reachable (fuel : nat) (now : Q) s r :
  reachable s -> schedule_loop fuel now s = Some r -> reachable (Eff.final r).
Proof.
  revert s. induction fuel as [|fuel IH]; intros s Hr; cbn [schedule_loop];
    destruct (Qlt_le_dec _ _); try discriminate;
    try (intros [= <-]; exact Hr).
  pose proof (schedule_body_reachable s Hr) as Hb.
  destruct (schedule_body_step s) as (s' & Hs' & _).
  rewrite Hs' in *. cbn [Eff.final] in Hb. apply IH. exact Hb.
Qed.

Lemma run_reachable (nows : list Q) s s' :
  reachable s -> run nows s = Some s' -> reachable s'.
Proof.
  revert s. induction nows as [|now rest IH]; intros s Hr; cbn [run].
  - intros [= <-]. exact Hr.
  - destruct (tick now s) as [r|] eqn:Ht; [|discriminate].
    apply IH. unfold tick in Ht. destruct (timerId s).
    + eapply schedule_loop_reachable; eauto.
    + injection Ht as <-. exact Hr.
Qed.
End SchedulerFacts.

(** C2 (as stated, refuted): with the default tempo and horizon, started at
    clock reading 10 with the delay 0.05 and polled every 25 ms, the distance
    from the clock to the next slot is above [scheduleAheadSec] at the end of
    each of the first three polls (0.3, 0.275 and 0.25 against 0.2). *)
Lemma C2_polls_end_beyond_horizon :
  exists l,
    Scheduler.run_states [10; 10.025; 10.05]%Q
      (Scheduler.start 10 0.05 Scheduler.plain) = Some l /\
    length l = 3%nat /\
    Forall (fun p =>
              (Scheduler.scheduleAheadSec (snd p)
               < Scheduler.nextNoteTime (snd p) - fst p)%Q) l.
Proof.
  eexists. split; [vm_compute; reflexivity|].
  split; [reflexivity|].
  repeat constructor.
Qed.

(** C2 (amended): for a run started with the timer idle, a positive tempo
    that stays fixed, a start delay below [scheduleAheadSec] plus one
    sixteenth and a clock that never runs backwards, every poll returns and
    at its end [nextNoteTime - now] is at least [scheduleAheadSec] (so it is
    never negative when the horizon is not) and less than
    [scheduleAheadSec] plus one sixteenth. *)
Theorem C2_next_slot_within_one_sixteenth_of_horizon
  {W : Type} (s0 : Scheduler.state W) (now0 delay : Q) (nows : list Q) :
  Scheduler.timerId s0 = false ->
  (0 < Scheduler.bpm s0)%Q ->
  (delay < Scheduler.scheduleAheadSec s0 + Scheduler.sixteenthDur s0)%Q ->
  Scheduler.clock_readings now0 nows ->
  exists l,
    Scheduler.run_states nows (Scheduler.start now0 delay s0) = Some l /\
    map fst l = nows /\
    Forall (fun p =>
              (Scheduler.scheduleAheadSec s0
               <= Scheduler.nextNoteTime (snd p) - fst p)%Q /\
              (Scheduler.nextNoteTime (snd p) - fst p
               < Scheduler.scheduleAheadSec s0 + Scheduler.sixteenthDur s0)%Q /\
              ((0 <= Scheduler.scheduleAheadSec s0)%Q ->
               (0 <= Scheduler.nextNoteTime (snd p) - fst p)%Q)) l.
Proof.
  intros Hidle Hb Hdelay Hclk.
  destruct (run_states_horizon nows now0 (Scheduler.start now0 delay s0))
    as (l & Hl & Hmap & Hall).
  - unfold Scheduler.start. now rewrite Hidle.
  - unfold Scheduler.start. now rewrite Hidle.
  - unfold Scheduler.start. rewrite Hidle. cbn.
    change (Scheduler.sixteenthDur _) with (Scheduler.sixteenthDur s0). lra.
  - exact Hclk.
  - exists l. split; [exact Hl|]. split; [exact Hmap|].
    revert Hall. unfold Scheduler.start. rewrite Hidle. cbn.
    change (Scheduler.sixteenthDur (Scheduler.set_timer _ _ _ _ s0))
      with (Scheduler.sixteenthDur s0).
    intros Hall. eapply Forall_impl; [exact Hall|].
    intros [now s] [Hlo Hhi]. cbn in *.
    repeat split; try assumption. intros H0. lra.
Qed.

(** The default scheduler started at 10 with delay 0.05 and polled at 10 and
    10.025. *)
Lemma C2_next_slot_within_one_sixteenth_of_horizon_witness :
  exists l,
    Scheduler.run_states [10; 10.025]%Q
      (Scheduler.start 10 0.05 Scheduler.plain) = Some l /\
    map fst l = [10; 10.025]%Q /\
    Forall (fun p =>
              (Scheduler.scheduleAheadSec Scheduler.plain
               <= Scheduler.nextNoteTime (snd p) - fst p)%Q /\
              (Scheduler.nextNoteTime (snd p) - fst p
               < Scheduler.scheduleAheadSec Scheduler.plain
                 + Scheduler.sixteenthDur Scheduler.plain)%Q /\
              ((0 <= Scheduler.scheduleAheadSec Scheduler.plain)%Q ->
               (0 <= Scheduler.nextNoteTime (snd p) - fst p)%Q)) l.
Proof.
  apply (C2_next_slot_within_one_sixteenth_of_horizon
           Scheduler.plain 10 0.05 [10; 10.025]%Q).
  - reflexivity.
  - reflexivity.
  - reflexivity.
  - cbn. repeat split; discriminate.
Defined.



(** C5: in every state reachable after [start], the states after any
    number of polls included, the slot is in 0..15; each [advance] moves it
    to [(slot + 1) mod 16] and adds one to [barCount] exactly when the new
    slot is 0; hence [n] advances after [start] leave the slot at [n mod 16]
    and the bar count at [n / 16]. *)
Theorem C5_slot_cycles_and_bars_count
  {W : Type} (s : Scheduler.state W) (s0 : Scheduler.state W)
  (now delay : Q) (n : nat) :
  Scheduler.reachable s ->
  Scheduler.timerId s0 = false ->
  0 <= Scheduler.current16th s < 16 /\
  (forall (nows : list Q) (s' : Scheduler.state W),
      Scheduler.run nows s = Some s' ->
      Scheduler.reachable s' /\ 0 <= Scheduler.current16th s' < 16) /\
  Scheduler.current16th (Scheduler.advance_vars s)
  = (Scheduler.current16th s + 1) mod 16 /\
  Scheduler.barCount (Scheduler.advance_vars s)
  = Scheduler.barCount s
    + (if Scheduler.current16th (Scheduler.advance_vars s) =? 0 then 1 else 0) /\
  Scheduler.current16th
    (Nat.iter n Scheduler.advance_vars (Scheduler.start now delay s0))
  = Z.of_nat n mod 16 /\
  Scheduler.barCount
    (Nat.iter n Scheduler.advance_vars (Scheduler.start now delay s0))
  = Z.of_nat n / 16.
Proof.
  intros Hreach Hidle.
  destruct (reachable_slot s Hreach) as [Hslot _].
  destruct (advance_vars_slot s Hslot) as [Hc Hb].
  split; [exact Hslot|].
  split.
  { intros nows s' Hrun.
    pose proof (run_reachable nows s s' Hreach Hrun) as Hr'.
    split; [exact Hr'|]. apply (reachable_slot s' Hr'). }
  split; [exact Hc|]. split; [exact Hb|].
  apply iter_advance_count; unfold Scheduler.start; rewrite Hidle; reflexivity.
Qed.

(** Thirty-five advances after a start: slot 3 of bar 2. *)
Lemma C5_slot_cycles_and_bars_count_witness :
  Scheduler.current16th
    (Nat.iter 35 Scheduler.advance_vars (Scheduler.start 10 0.05 Scheduler.plain))
  = 3 /\
  Scheduler.barCount
    (Nat.iter 35 Scheduler.advance_vars (Scheduler.start 10 0.05 Scheduler.plain))
  = 2.
Proof.
  destruct (C5_slot_cycles_and_bars_count
              (Scheduler.start 10 0.05 Scheduler.plain) Scheduler.plain
              10 0.05 35) as (_ & _ & _ & _ & Hc & Hb).
  - apply Scheduler.reach_start. reflexivity.
  - reflexivity.
  - split; [exact Hc|exact Hb].
Defined.

(** C9: whatever the handlers do, throwing included, one loop iteration
    completes normally, makes its calls (the bar call too at slot 0) and
    advances [nextNoteTime], the slot and the bar count; a poll never lets an
    exception out and leaves the closure variables and the call log exactly
    as silent handlers would; with a positive tempo the poll returns; and a
    whole run of polls evolves as with silent handlers. *)
Theorem C9_handler_faults_do_not_stop_the_loop
  {W : Type} (s : Scheduler.state W) (fuel : nat) (now : Q) (nows : list Q) :
  (exists s', Scheduler.schedule_body s = Eff.Ok tt s' /\
              Scheduler.slot_step s s') /\
  (forall r, Scheduler.schedule_loop fuel now s = Some r ->
             Eff.threw r = false /\
             Scheduler.schedule_loop fuel now (Scheduler.erase s)
             = Some (Eff.Ok tt (Scheduler.erase (Eff.final r)))) /\
  ((0 < Scheduler.bpm s)%Q ->
   exists s', Scheduler.schedule now s = Some (Eff.Ok tt s')) /\
  option_map Scheduler.erase (Scheduler.run nows s)
  = Scheduler.run nows (Scheduler.erase s).
Proof.
  split; [|split; [|split]].
  - destruct (schedule_body_step s) as (s' & Hs' & Hstep & _). eauto.
  - intros r Hr. pose proof (schedule_loop_erase fuel now s) as H.
    rewrite Hr in H. exact H.
  - apply schedule_returns.
  - symmetry. apply run_erase.
Qed.

(** Handlers that throw on every call: the first poll still makes its three
    calls and leaves the slot at 2. *)
Lemma C9_handler_faults_do_not_stop_the_loop_witness :
  exists s',
    Scheduler.schedule 10
      (Scheduler.start 10 0.05 (Scheduler.createScheduler Scheduler.faulty O))
    = Some (Eff.Ok tt s') /\
    Scheduler.world s' = 3%nat /\
    Scheduler.current16th s' = 2 /\
    length (Scheduler.calls s') = 3%nat.
Proof.
  destruct (C9_handler_faults_do_not_stop_the_loop
              (Scheduler.start 10 0.05 (Scheduler.createScheduler Scheduler.faulty O))
              O 10 []) as (_ & _ & Hret & _).
  destruct Hret as (s' & Hs'); [reflexivity|].
  exists s'. split; [exact Hs'|].
  vm_compute in Hs'. injection Hs' as <-. repeat split.
Defined.

(** ** The arrangement resolver *)

Section ResolverFacts.
Import Techno.
Implicit Types arr : list Sect.

Lemma total_bars_from arr (a : Z) :
  fold_left (fun acc section => acc + bars section) arr a = a + total_bars arr.
Proof.
  unfold total_bars. revert a.
  induction arr as [|sec rest IH]; intros a; cbn [fold_left]; [lia|].
  rewrite (IH (a + bars sec)), (IH (0 + bars sec)). lia.
Qed.

Lemma total_bars_cons (sec : Sect) arr :
  total_bars (sec :: arr) = bars sec + total_bars arr.
Proof.
  unfold total_bars at 1. cbn [fold_left]. rewrite total_bars_from. lia.
Qed.

Lemma total_bars_snoc arr (sec : Sect) :
  total_bars (arr ++ [sec]) = total_bars arr + bars sec.
Proof.
  induction arr as [|x rest IH]; cbn [app].
  - rewrite total_bars_cons. lia.
  - rewrite !total_bars_cons, IH. lia.
Qed.

Lemma section_start_S arr (i : nat) (sec : Sect) :
  arr !! i = Some sec ->
  section_start arr (S i) = section_start arr i + bars sec.
Proof.
  intros Hi. unfold section_start.
  rewrite (take_S_r _ _ _ Hi). apply total_bars_snoc.
Qed.

Lemma section_start_all arr (i : nat) :
  (length arr <= i)%nat -> section_start arr i = total_bars arr.
Proof. intros Hi. unfold section_start. now rewrite take_ge. Qed.

Lemma section_start_step arr (i : nat) :
  Forall (fun s => 0 < bars s) arr ->
  section_start arr i <= section_start arr (S i).
Proof.
  intros Hpos. destruct (arr !! i) as [sec|] eqn:Hi.
  - rewrite (section_start_S _ _ _ Hi).
    rewrite Forall_lookup in Hpos. specialize (Hpos _ _ Hi). cbn in Hpos. lia.
  - apply lookup_ge_None_1 in Hi.
    rewrite !section_start_all by lia. lia.
Qed.

Lemma section_start_mono arr (i j : nat) :
  Forall (fun s => 0 < bars s) arr ->
  (i <= j)%nat -> section_start arr i <= section_start arr j.
Proof.
  intros Hpos Hij. induction Hij as [|j _ IH]; [lia|].
  pose proof (section_start_step arr j Hpos). lia.
Qed.

(** The loop returns at the section whose interval holds the bar. *)
Lemma scan_sections_found arr (i cursor bar : Z) :
  cursor <= bar < cursor + total_bars arr ->
  exists (k : nat) (sec : Sect),
    arr !! k = Some sec /\
    scan_sections arr i cursor bar
    = Some {| section := sec; index := i + Z.of_nat k;
              offset := bar - (cursor + section_start arr k);
              isSectionStart := bar =? cursor + section_start arr k |} /\
    cursor + section_start arr k <= bar
      < cursor + section_start arr k + bars sec.
Proof.
  revert i cursor. induction arr as [|sec rest IH]; intros i cursor Hbar.
  - unfold total_bars in Hbar. cbn in Hbar. lia.
  - rewrite total_bars_cons in Hbar. cbn [scan_sections].
    destruct (Z.ltb_spec bar (cursor + bars sec)) as [Hlt|Hge].
    + exists O, sec. unfold section_start, total_bars. cbn.
      rewrite !Z.add_0_r. repeat split; try reflexivity; lia.
    + destruct (IH (i + 1) (cursor + bars sec)) as (k & s & Hk & Hscan & Hin);
        [lia|].
      exists (S k), s. split; [exact Hk|].
      assert (Hst : section_start (sec :: rest) (S k)
                    = bars sec + section_start rest k).
      { unfold section_start. cbn [take]. apply total_bars_cons. }
      rewrite Hst, Hscan.
      replace (cursor + (bars sec + section_start rest k))
        with (cursor + bars sec + section_start rest k) by lia.
      replace (i + 1 + Z.of_nat k) with (i + Z.of_nat (S k)) by lia.
      split; [reflexivity|lia].
Qed.

(** Past the last bar the loop falls through. *)
Lemma scan_sections_none arr (i cursor bar : Z) :
  Forall (fun s => 0 < bars s) arr ->
  cursor + total_bars arr <= bar -> scan_sections arr i cursor bar = None.
Proof.
  intros Hpos. revert i cursor.
  induction Hpos as [|sec rest Hsec Hrest IH]; intros i cursor Hbar; [reflexivity|].
  rewrite total_bars_cons in Hbar. cbn [scan_sections].
  assert (0 <= total_bars rest).
  { rewrite <- (section_start_all rest (length rest)) by lia.
    change 0 with (section_start rest 0).
    apply section_start_mono; [assumption|lia]. }
  destruct (Z.ltb_spec bar (cursor + bars sec)) as [Hlt|Hge]; [lia|].
  apply IH. lia.
Qed.

Lemma total_bars_nonneg arr :
  Forall (fun s => 0 < bars s) arr -> 0 <= total_bars arr.
Proof.
  intros Hpos.
  rewrite <- (section_start_all arr (length arr)) by lia.
  change 0 with (section_start arr 0).
  apply section_start_mono; [assumption|lia].
Qed.

Lemma getSectionForBar_inside arr (bar : Z) :
  Forall (fun s => 0 < bars s) arr ->
  0 <= bar < total_bars arr ->
  exists (i : nat) (sec : Sect),
    arr !! i = Some sec /\
    getSectionForBar arr bar
    = Some {| section := sec; index := Z.of_nat i;
              offset := bar - section_start arr i;
              isSectionStart := bar =? section_start arr i |} /\
    section_start arr i <= bar < section_start arr i + bars sec /\
    0 <= section_start arr i /\
    section_start arr i + bars sec <= total_bars arr /\
    (forall (j : nat) (sec' : Sect),
        arr !! j = Some sec' ->
        section_start arr j <= bar < section_start arr j + bars sec' ->
        j = i).
Proof.
  intros Hpos Hbar.
  destruct (scan_sections_found arr 0 0 bar) as (i & sec & Hi & Hscan & Hin);
    [lia|].
  rewrite !Z.add_0_l in *.
  exists i, sec. split; [exact Hi|].
  split; [unfold getSectionForBar; now rewrite Hscan|].
  split; [exact Hin|].
  split.
  { change 0 with (section_start arr 0).
    apply section_start_mono; [assumption|lia]. }
  split.
  { rewrite <- (section_start_S _ _ _ Hi).
    rewrite <- (section_start_all arr (length arr)) by lia.
    apply section_start_mono; [assumption|].
    apply lookup_lt_Some in Hi. lia. }
  intros j sec' Hj Hjin.
  destruct (Nat.lt_trichotomy j i) as [Hlt|[Heq|Hgt]]; [|exact Heq|]; exfalso.
  - pose proof (section_start_mono arr (S j) i Hpos ltac:(lia)) as Hm.
    rewrite (section_start_S _ _ _ Hj) in Hm. lia.
  - pose proof (section_start_mono arr (S i) j Hpos ltac:(lia)) as Hm.
    rewrite (section_start_S _ _ _ Hi) in Hm. lia.
Qed.

(** Every section is the answer at its own first bar. *)
Lemma getSectionForBar_at_start arr (i : nat) (sec : Sect) :
  Forall (fun s => 0 < bars s) arr ->
  arr !! i = Some sec ->
  getSectionForBar arr (section_start arr i)
  = Some {| section := sec; index := Z.of_nat i; offset := 0;
            isSectionStart := true |}.
Proof.
  intros Hpos Hi.
  assert (Hsec : 0 < bars sec).
  { rewrite Forall_lookup in Hpos. exact (Hpos _ _ Hi). }
  assert (H0 : 0 <= section_start arr i).
  { change 0 with (section_start arr 0).
    apply section_start_mono; [assumption|lia]. }
  assert (Hend : section_start arr i + bars sec <= total_bars arr).
  { rewrite <- (section_start_S _ _ _ Hi).
    rewrite <- (section_start_all arr (length arr)) by lia.
    apply section_start_mono; [assumption|].
    apply lookup_lt_Some in Hi. lia. }
  destruct (getSectionForBar_inside arr (section_start arr i) Hpos)
    as (k & sec' & Hk & Hget & _ & _ & _ & Huniq); [lia|].
  assert (Hik : i = k) by (apply (Huniq i sec Hi); lia).
  subst k. rewrite Hi in Hk. injection Hk as <-.
  rewrite Hget, Z.sub_diag, Z.eqb_refl. reflexivity.
Qed.

(** Beyond the arrangement the answer is pinned to the last section. *)
Lemma getSectionForBar_beyond arr (last : Sect) (bar : Z) :
  Forall (fun s => 0 < bars s) (arr ++ [last]) ->
  total_bars (arr ++ [last]) <= bar ->
  getSectionForBar (arr ++ [last]) bar
  = Some {| section := last; index := js_length (arr ++ [last]) - 1;
            offset := bars last - 1; isSectionStart := false |}.
Proof.
  intros Hpos Hbar. unfold getSectionForBar.
  rewrite scan_sections_none by (assumption || lia).
  unfold js_index, js_length. rewrite length_app. cbn [length].
  destruct (Z.ltb_spec (Z.of_nat (length arr + 1) - 1) 0) as [Hneg|_]; [lia|].
  replace (Z.to_nat (Z.of_nat (length arr + 1) - 1)) with (length arr) by lia.
  rewrite lookup_app_r by lia. rewrite Nat.sub_diag. reflexivity.
Qed.

Lemma getSectionForBar_total arr (bar : Z) :
  arr <> [] -> exists found, getSectionForBar arr bar = Some found.
Proof.
  intros Hne. unfold getSectionForBar.
  destruct (scan_sections arr 0 0 bar) as [found|]; [eauto|].
  destruct (js_index_Some arr (js_length arr - 1)) as [last ->]; [|eauto].
  unfold js_length. destruct arr; [congruence|cbn [length]; lia].
Qed.

Lemma ARRANGEMENT_positive : Forall (fun s => 0 < bars s) ARRANGEMENT.
Proof. repeat constructor. Qed.

End ResolverFacts.

(** C3: in an arrangement of positive section lengths, for every bar in
    [0, totalBars) the resolver returns the one section whose interval
    [start, start + length) holds the bar, with the offset [bar - start] and
    the start flag [bar = start]; the intervals lie inside [0, totalBars),
    no other section's interval holds the bar, and every section is returned
    at its own start.  [ARRANGEMENT] is such an arrangement, 168 bars long,
    and resolves 0, 16 and 167 to (section 0, 0, true), (section 1, 0, true)
    and (section 6, 15, false). *)
Theorem C3_resolver_partitions_the_arrangement
  (arr : list Techno.Sect) (bar : Z) :
  Forall (fun s => 0 < Techno.bars s) arr ->
  0 <= bar < Techno.total_bars arr ->
  (exists (i : nat) (sec : Techno.Sect),
      arr !! i = Some sec /\
      Techno.getSectionForBar arr bar
      = Some {| Techno.section := sec; Techno.index := Z.of_nat i;
                Techno.offset := bar - Techno.section_start arr i;
                Techno.isSectionStart := bar =? Techno.section_start arr i |} /\
      Techno.section_start arr i <= bar
        < Techno.section_start arr i + Techno.bars sec /\
      0 <= Techno.section_start arr i /\
      Techno.section_start arr i + Techno.bars sec <= Techno.total_bars arr /\
      (forall (j : nat) (sec' : Techno.Sect),
          arr !! j = Some sec' ->
          Techno.section_start arr j <= bar
            < Techno.section_start arr j + Techno.bars sec' ->
          j = i)) /\
  (forall (i : nat) (sec : Techno.Sect),
      arr !! i = Some sec ->
      Techno.getSectionForBar arr (Techno.section_start arr i)
      = Some {| Techno.section := sec; Techno.index := Z.of_nat i;
                Techno.offset := 0; Techno.isSectionStart := true |}) /\
  Forall (fun s => 0 < Techno.bars s) Techno.ARRANGEMENT /\
  map Techno.bars Techno.ARRANGEMENT = [16; 32; 32; 16; 32; 24; 16] /\
  Techno.TOTAL_BARS = 168 /\
  Techno.getSectionForBar Techno.ARRANGEMENT 0
  = Some (Techno.mkLookup Techno.distantIntro 0 0 true) /\
  Techno.getSectionForBar Techno.ARRANGEMENT 16
  = Some (Techno.mkLookup Techno.warmBuild 1 0 true) /\
  Techno.getSectionForBar Techno.ARRANGEMENT 167
  = Some (Techno.mkLookup Techno.outroFade 6 15 false).
Proof.
  intros Hpos Hbar.
  split; [now apply getSectionForBar_inside|].
  split; [intros i sec Hi; now apply getSectionForBar_at_start|].
  split; [exact ARRANGEMENT_positive|].
  repeat split; reflexivity.
Qed.

(** Bar 100 of the Techno arrangement. *)
Lemma C3_resolver_partitions_the_arrangement_witness :
  exists (i : nat) (sec : Techno.Sect),
    Techno.ARRANGEMENT !! i = Some sec /\
    Techno.getSectionForBar Techno.ARRANGEMENT 100
    = Some {| Techno.section := sec; Techno.index := Z.of_nat i;
              Techno.offset := 100 - Techno.section_start Techno.ARRANGEMENT i;
              Techno.isSectionStart :=
                100 =? Techno.section_start Techno.ARRANGEMENT i |}.
Proof.
  destruct (C3_resolver_partitions_the_arrangement Techno.ARRANGEMENT 100)
    as ((i & sec & Hi & Hget & _) & _).
  - repeat constructor.
  - split; [discriminate|reflexivity].
  - exists i, sec. split; [exact Hi|exact Hget].
Defined.


(** ** The Techno director *)

Section TechnoFacts.
Import Techno.

(** What one bar callback does to the refs and to the fade actions. *)
Lemma handleBar_effect (now t : Q) (b : Z) (d : director) :
  exists (lookup : Lookup) (d' : director),
    getSectionForBar ARRANGEMENT b = Some lookup /\
    handleBar now t b d = Eff.Ok tt d' /\
    arrangementStateRef d' = lookup /\
    chordRef d' = js_index CHORD_SEQUENCE (js_rem b (js_length CHORD_SEQUENCE)) /\
    fadeScheduledRef d' = fadeScheduledRef d || (TOTAL_BARS <=? b) /\
    fades d' = fades d ++
               (if (TOTAL_BARS <=? b) && negb (fadeScheduledRef d)
                then fade_transition now t else []).
Proof.
  destruct (getSectionForBar_total ARRANGEMENT b) as [lookup Hl]; [discriminate|].
  exists lookup. unfold handleBar. rewrite Hl.
  unfold Eff.bind, Eff.when, Eff.ret, emit, set_refs, set_fadeScheduled,
    Eff.modify, fades.
  destruct (TOTAL_BARS <=? b) eqn:Htot;
    destruct (fadeScheduledRef d) eqn:Hfade;
    destruct (negb (index (arrangementStateRef d) =? index lookup) && (0 <? b));
    destruct (String.eqb (fxMode (section lookup)) "impact");
    destruct (String.eqb (fxMode (section lookup)) "wash");
    destruct (String.eqb (fxMode (section lookup)) "dive");
    destruct ((js_rem (offset lookup) 8 =? 4)
              && negb (Qle_bool (lead (intensity (section lookup))) 0.2));
    cbn -[TOTAL_BARS CHORD_SEQUENCE js_rem js_index];
    eexists; (split; [reflexivity|]); (split; [reflexivity|]);
    cbn -[TOTAL_BARS CHORD_SEQUENCE js_rem js_index];
    rewrite ?Hfade, ?Htot, ?List.filter_app; cbn [List.filter is_fade app];
    rewrite ?app_nil_r, <- ?app_assoc; repeat split; reflexivity.
Qed.

Lemma bar_callbacks_app (l1 l2 : list (Q * Q * Z)) (d : director) :
  bar_callbacks (l1 ++ l2) d = bar_callbacks l2 (bar_callbacks l1 d).
Proof.
  revert d. induction l1 as [|[[now t] b] rest IH]; intros d; cbn; auto.
Qed.

(** Once the flag is set no bar callback schedules a fade. *)
Lemma bar_callbacks_after_fade (cbs : list (Q * Q * Z)) (d : director) :
  fadeScheduledRef d = true ->
  fadeScheduledRef (bar_callbacks cbs d) = true /\
  fades (bar_callbacks cbs d) = fades d.
Proof.
  revert d. induction cbs as [|[[now t] b] rest IH]; intros d Hf; [auto|].
  cbn [bar_callbacks].
  destruct (handleBar_effect now t b d) as (lk & d' & _ & -> & _ & _ & Hf' & Hfd).
  cbn [Eff.final]. rewrite Hf in Hf', Hfd. cbn in Hf'.
  rewrite andb_false_r, app_nil_r in Hfd.
  destruct (IH d' Hf') as [-> ->]. auto.
Qed.

(** Before the arrangement ends no bar callback schedules a fade. *)
Lemma bar_callbacks_before_end (cbs : list (Q * Q * Z)) (d : director) :
  fadeScheduledRef d = false ->
  Forall (fun c => snd c < TOTAL_BARS) cbs ->
  fadeScheduledRef (bar_callbacks cbs d) = false /\
  fades (bar_callbacks cbs d) = fades d.
Proof.
  intros Hf Hall. revert d Hf.
  induction Hall as [|[[now t] b] rest Hb _ IH]; intros d Hf; [auto|].
  cbn [bar_callbacks]. cbn in Hb.
  destruct (handleBar_effect now t b d) as (lk & d' & _ & -> & _ & _ & Hf' & Hfd).
  cbn [Eff.final].
  assert (Hnot : (TOTAL_BARS <=? b) = false) by (apply Z.leb_gt; exact Hb).
  rewrite Hf, Hnot in Hf', Hfd. cbn in Hf', Hfd. rewrite app_nil_r in Hfd.
  destruct (IH d' Hf') as [-> ->]. auto.
Qed.

Lemma bar_callbacks_fade_once
  (pre post : list (Q * Q * Z)) (now t : Q) (b : Z) (d : director) :
  fadeScheduledRef d = false ->
  Forall (fun c => snd c < TOTAL_BARS) pre ->
  TOTAL_BARS <= b ->
  fades (bar_callbacks (pre ++ (now, t, b) :: post) d)
  = fades d ++ fade_transition now t.
Proof.
  intros Hf Hpre Hb.
  rewrite bar_callbacks_app. cbn [bar_callbacks].
  destruct (bar_callbacks_before_end pre d Hf Hpre) as [Hf1 Hfd1].
  destruct (handleBar_effect now t b (bar_callbacks pre d))
    as (lk & d' & _ & -> & _ & _ & Hf' & Hfd).
  cbn [Eff.final].
  assert (Hyes : (TOTAL_BARS <=? b) = true) by (apply Z.leb_le; exact Hb).
  rewrite Hf1, Hyes in Hf', Hfd. cbn in Hf', Hfd.
  destruct (bar_callbacks_after_fade post d' Hf') as [_ ->].
  rewrite Hfd, Hfd1. reflexivity.
Qed.

Lemma chord_sequence_lookup (b : Z) :
  0 <= b ->
  exists chord,
    js_index CHORD_SEQUENCE (js_rem b (js_length CHORD_SEQUENCE)) = Some chord /\
    CHORD_SEQUENCE !! Z.to_nat (b mod js_length CHORD_SEQUENCE) = Some chord.
Proof.
  intros Hb. change (js_length CHORD_SEQUENCE) with 8.
  rewrite js_rem_nonneg by lia.
  pose proof (Z.mod_pos_bound b 8 ltac:(lia)) as Hm.
  destruct (js_index_Some CHORD_SEQUENCE (b mod 8)) as [chord Hc].
  { change (js_length CHORD_SEQUENCE) with 8. lia. }
  exists chord. split; [exact Hc|].
  unfold js_index in Hc. destruct (Z.ltb_spec (b mod 8) 0); [lia|exact Hc].
Qed.

(** [triggerLead] completes normally whatever the instrument does. *)
Lemma triggerLead_effect (t amt : Q) (chord : Chord) (ev : LeadEvent) (d : director) :
  Eff.threw (triggerLead t chord ev amt d) = false /\
  forall inst : Instrument,
    leadInstrument d = Some inst -> playingRef d = true ->
    emitted (Eff.final (triggerLead t chord ev amt d))
    = emitted d ++
      [LeadPlay (js_index (chord_lead chord) (lead_index chord ev))
                t (amt * vel ev)%Q (lead_duration d ev)].
Proof.
  unfold triggerLead, play, Eff.tryCatch, Eff.bind, emit, Eff.modify.
  destruct (leadInstrument d) as [inst|] eqn:Hi;
    [|split; [reflexivity|intros ? [=]]].
  destruct (playingRef d) eqn:Hp; cbn [negb];
    [|split; [reflexivity|intros ? _ [=]]].
  cbn [leadInstrument playingRef bpmRef emitted].
  destruct (inst _ _ _ _); (split; [reflexivity|]); intros ? _ _; reflexivity.
Qed.

Lemma lead_note_cases (chord : Chord) (ev : LeadEvent) :
  (0 <= idx ev < js_length (chord_lead chord) ->
   js_index (chord_lead chord) (lead_index chord ev)
   = chord_lead chord !! Z.to_nat (idx ev)) /\
  (js_length (chord_lead chord) <= idx ev -> chord_lead chord <> [] ->
   js_index (chord_lead chord) (lead_index chord ev) = last (chord_lead chord)).
Proof.
  unfold lead_index, js_index, js_length. split.
  - intros Hi. rewrite Z.min_r by lia.
    destruct (Z.ltb_spec (idx ev) 0); [lia|reflexivity].
  - intros Hi Hne. rewrite Z.min_l by lia.
    assert (0 < length (chord_lead chord))%nat.
    { destruct (chord_lead chord); [congruence|cbn; lia]. }
    destruct (Z.ltb_spec (Z.of_nat (length (chord_lead chord)) - 1) 0); [lia|].
    rewrite last_lookup. f_equal. lia.
Qed.

(** In the shipped tables every lead event names a position of every
    chord's lead array, so the clamp of [triggerLead] is a guard that the
    data never reaches. *)
Lemma lead_patterns_fit (name : string) (pat : list (option LeadEvent)) (chord : Chord) :
  LEAD_PATTERNS !! name = Some pat -> In chord CHORD_SEQUENCE ->
  pattern_fits pat chord = true.
Proof.
  intros Hpat Hchord. unfold LEAD_PATTERNS in Hpat.
  apply elem_of_list_to_map_2 in Hpat.
  repeat (apply elem_of_cons in Hpat; destruct Hpat as [[= -> ->]|Hpat]);
    try (apply elem_of_nil in Hpat; contradiction);
    cbn in Hchord;
    repeat (destruct Hchord as [<-|Hchord]; [reflexivity|]);
    contradiction.
Qed.

End TechnoFacts.

(** ** The Piano director *)

Lemma normalized_degree (n L : Z) :
  0 < L -> js_rem (js_rem n L + L) L = n mod L.
Proof.
  intros HL. unfold js_rem.
  pose proof (Z.rem_bound_abs n L ltac:(lia)) as Hb.
  rewrite Z.rem_mod_nonneg by lia.
  rewrite Z.rem_eq by lia.
  replace (n - L * Z.quot n L + L) with (n + (1 - Z.quot n L) * L) by lia.
  apply Z_mod_plus_full.
Qed.

Lemma resolveDegree_wraps (chord : Piano.Chord) (n : Z) :
  Piano.piano chord <> [] ->
  exists note,
    Piano.resolveDegree chord (Piano.Num n) = Some note /\
    Piano.piano chord !! Z.to_nat (n mod js_length (Piano.piano chord)) = Some note.
Proof.
  intros Hne. unfold Piano.resolveDegree.
  assert (HL : 0 < js_length (Piano.piano chord)).
  { unfold js_length. destruct (Piano.piano chord); [congruence|cbn; lia]. }
  destruct (Z.eqb_spec (js_length (Piano.piano chord)) 0) as [H0|_]; [lia|].
  rewrite normalized_degree by exact HL.
  pose proof (Z.mod_pos_bound n _ HL) as Hm.
  destruct (js_index_Some (Piano.piano chord) _ Hm) as [note Hnote].
  exists note. split; [exact Hnote|].
  unfold js_index in Hnote.
  destruct (Z.ltb_spec (n mod js_length (Piano.piano chord)) 0); [lia|exact Hnote].
Qed.

(** ** The progression pool *)

Section AppFacts.
Import App.

Lemma random_index_range (rnd : Q) (n : Z) :
  (0 <= rnd)%Q -> (rnd < 1)%Q -> 0 < n -> 0 <= random_index rnd n < n.
Proof.
  intros H0 H1 Hn. unfold random_index.
  assert (Hq : (0 < inject_Z n)%Q).
  { change 0%Q with (inject_Z 0). rewrite <- Zlt_Qlt. exact Hn. }
  split.
  - change 0 with (Qfloor 0). apply Qfloor_resp_le. nra.
  - rewrite Zlt_Qlt. eapply Qle_lt_trans; [apply Qfloor_le|]. nra.
Qed.

Lemma choose_index_spec (n prev drawn : Z) :
  1 < n -> 0 <= drawn < n ->
  0 <= choose_index n prev drawn < n /\
  choose_index n prev drawn <> prev /\
  (drawn <> prev -> choose_index n prev drawn = drawn) /\
  (drawn = prev -> choose_index n prev drawn = (prev + 1) mod n).
Proof.
  intros Hn Hd. unfold choose_index.
  destruct (Z.ltb_spec 1 n) as [_|]; [|lia]. cbn [andb].
  destruct (Z.eqb_spec drawn prev) as [->|Hne].
  - rewrite js_rem_nonneg by lia.
    pose proof (Z.mod_pos_bound (prev + 1) n ltac:(lia)) as Hm.
    repeat split; try lia; try reflexivity.
    destruct (Z.eq_dec (prev + 1) n) as [He|He].
    + rewrite He, Z.mod_same by lia. lia.
    + rewrite Z.mod_small by lia. lia.
  - repeat split; try lia; try reflexivity.
Qed.

Lemma pool_progressions (prog : Progression) :
  In prog MINOR_POOLS -> js_length prog = 4.
Proof.
  cbn. intros [<-|[<-|[<-|[]]]]; reflexivity.
Qed.

Lemma pool_lookup (i : Z) :
  0 <= i < js_length MINOR_POOLS ->
  exists prog, js_index MINOR_POOLS i = Some prog /\ In prog MINOR_POOLS.
Proof.
  intros Hi. destruct (js_index_Some MINOR_POOLS i Hi) as [prog Hp].
  exists prog. split; [exact Hp|].
  unfold js_index in Hp. destruct (i <? 0); [discriminate|].
  apply list_elem_of_In. eapply list_elem_of_lookup_2. exact Hp.
Qed.

(** The index and the bar counter after [onBar], thrown or not. *)
Lemma onBar_index (rnd t : Q) (b : Z) (r : refs) :
  barsSinceChangeRef (Eff.final (onBar rnd t b r)) = barsSinceChangeRef r + 1 /\
  progIdxRef (Eff.final (onBar rnd t b r))
  = if change_bar r
    then choose_index (js_length MINOR_POOLS) (progIdxRef r)
           (random_index rnd (js_length MINOR_POOLS))
    else progIdxRef r.
Proof.
  unfold onBar, change_bar.
  destruct (js_rem (barsSinceChangeRef r + 1) CHANGE_EVERY_BARS =? 0).
  - destruct (js_index MINOR_POOLS _) as [prog|]; [|split; reflexivity].
    destruct (js_index prog _); split; reflexivity.
  - destruct (progressionRef r) as [prog|]; [|split; reflexivity].
    destruct (js_index prog _); split; reflexivity.
Qed.

(** From settled refs [onBar] returns and plays the chord at
    [barIndex mod length] of the progression then in force. *)
Lemma onBar_effect (rnd t : Q) (b : Z) (r : refs) :
  (0 <= rnd)%Q -> (rnd < 1)%Q -> 0 <= b -> settled r ->
  exists (r' : refs) (prog : Progression) (chord : Chord),
    onBar rnd t b r = Eff.Ok tt r' /\ settled r' /\
    progressionRef r' = Some prog /\
    prog !! Z.to_nat (b mod js_length prog) = Some chord /\
    emitted r' = emitted r ++ [PadChord t chord; Bass t (js_index chord 0)].
Proof.
  intros H0 H1 Hb (prog0 & Hp0 & Hin0 & Hidx0).
  pose proof (random_index_range rnd (js_length MINOR_POOLS) H0 H1 ltac:(reflexivity))
    as Hdrawn.
  destruct (choose_index_spec (js_length MINOR_POOLS) (progIdxRef r) _
              ltac:(reflexivity) Hdrawn) as (Hrange & _).
  assert (Hchord : forall prog, In prog MINOR_POOLS ->
            exists chord, js_index prog (js_rem b (js_length prog)) = Some chord /\
                          prog !! Z.to_nat (b mod js_length prog) = Some chord).
  { intros prog Hin. rewrite (pool_progressions prog Hin).
    rewrite js_rem_nonneg by lia.
    pose proof (Z.mod_pos_bound b 4 ltac:(lia)) as Hm.
    destruct (js_index_Some prog (b mod 4)) as [chord Hc].
    { rewrite (pool_progressions prog Hin). lia. }
    exists chord. split; [exact Hc|].
    unfold js_index in Hc. destruct (Z.ltb_spec (b mod 4) 0); [lia|exact Hc]. }
  unfold onBar.
  destruct (js_rem (barsSinceChangeRef r + 1) CHANGE_EVERY_BARS =? 0).
  - destruct (pool_lookup _ Hrange) as (prog & Hprog & Hin).
    rewrite Hprog.
    destruct (Hchord prog Hin) as (chord & Hc & Hc').
    rewrite Hc. eexists _, prog, chord.
    split; [reflexivity|]. split; [|auto].
    exists prog. cbn. auto.
  - rewrite Hp0.
    destruct (Hchord prog0 Hin0) as (chord & Hc & Hc').
    rewrite Hc. eexists _, prog0, chord.
    split; [reflexivity|]. split; [|auto].
    exists prog0. cbn. auto.
Qed.

End AppFacts.

(** C1 (as stated, refuted): on the chord fm9, whose lead array has six
    notes, a lead event with index 6 is played as the last note C6, not as
    the note at [6 mod 6], which is C5. *)
Lemma C1_lead_index_six_plays_last_note :
  js_length (Techno.chord_lead Techno.fm9) = 6 /\
  (exists gain duration,
      Techno.emitted
        (Eff.final
           (Techno.triggerLead 0 Techno.fm9 (Techno.mkLead 6 (Some 2%Q) 0.5) 1
              (Techno.stage (Some Techno.broken_instrument))))
      = [Techno.LeadPlay (Some "C6"%string) 0 gain duration]) /\
  Techno.chord_lead Techno.fm9 !! Z.to_nat (6 mod 6) = Some "C5"%string /\
  Some "C6"%string <> Techno.chord_lead Techno.fm9 !! Z.to_nat (6 mod 6).
Proof.
  split; [reflexivity|].
  split; [eexists _, _; reflexivity|].
  split; [reflexivity|discriminate].
Qed.

(** C1 (amended): [triggerLead] of the Techno director never throws, even
    when the instrument does; with the instrument loaded and playback on it
    requests the note at [min (length - 1) index] of the chord's lead array,
    which is the note at the index itself when that is a valid position and
    the last note when the index is at or past the end.  The wrap-around is
    what [resolveDegree] of the Piano director does: a numeric degree on a
    non-empty array resolves to the note at [degree mod length]. *)
Theorem C1_lead_index_clamps_and_piano_degree_wraps
  (d : Techno.director) (t amt : Q) (chord : Techno.Chord)
  (ev : Techno.LeadEvent) (pchord : Piano.Chord) (degree : Z) :
  Eff.threw (Techno.triggerLead t chord ev amt d) = false /\
  (forall inst : Techno.Instrument,
      Techno.leadInstrument d = Some inst -> Techno.playingRef d = true ->
      Techno.emitted (Eff.final (Techno.triggerLead t chord ev amt d))
      = Techno.emitted d ++
        [Techno.LeadPlay
           (js_index (Techno.chord_lead chord)
              (Z.min (js_length (Techno.chord_lead chord) - 1) (Techno.idx ev)))
           t (amt * Techno.vel ev)%Q (Techno.lead_duration d ev)]) /\
  (0 <= Techno.idx ev < js_length (Techno.chord_lead chord) ->
   js_index (Techno.chord_lead chord)
     (Z.min (js_length (Techno.chord_lead chord) - 1) (Techno.idx ev))
   = Techno.chord_lead chord !! Z.to_nat (Techno.idx ev)) /\
  (js_length (Techno.chord_lead chord) <= Techno.idx ev ->
   Techno.chord_lead chord <> [] ->
   js_index (Techno.chord_lead chord)
     (Z.min (js_length (Techno.chord_lead chord) - 1) (Techno.idx ev))
   = last (Techno.chord_lead chord)) /\
  (Piano.piano pchord <> [] ->
   exists note,
     Piano.resolveDegree pchord (Piano.Num degree) = Some note /\
     Piano.piano pchord !! Z.to_nat (degree mod js_length (Piano.piano pchord))
     = Some note).
Proof.
  destruct (triggerLead_effect t amt chord ev d) as [Hthrew Hplay].
  destruct (lead_note_cases chord ev) as [Hin Hout].
  split; [exact Hthrew|]. split; [exact Hplay|].
  split; [exact Hin|]. split; [exact Hout|].
  apply resolveDegree_wraps.
Qed.

(** Index 9 on the six lead notes of c7, and degree -1 on a six-note piano
    voicing. *)
Lemma C1_lead_index_clamps_and_piano_degree_wraps_witness :
  js_index (Techno.chord_lead Techno.c7)
    (Z.min (js_length (Techno.chord_lead Techno.c7) - 1) 9)
  = Some "G5"%string /\
  Piano.resolveDegree
    (Piano.mkChord ["D4"; "A4"; "C5"; "E5"; "F5"; "A5"]%string [] [] None)
    (Piano.Num (-1))
  = Some "A5"%string.
Proof.
  destruct (C1_lead_index_clamps_and_piano_degree_wraps
              (Techno.stage None) 0 1 Techno.c7 (Techno.mkLead 9 None 1)
              (Piano.mkChord ["D4"; "A4"; "C5"; "E5"; "F5"; "A5"]%string [] [] None)
              (-1))
    as (_ & _ & _ & Hlast & Hwrap).
  split.
  - exact (Hlast ltac:(discriminate) ltac:(discriminate)).
  - destruct Hwrap as (note & -> & Hnote); [discriminate|].
    rewrite <- Hnote. reflexivity.
Defined.

(** C6: in a run whose fade flag starts cleared (as [play] leaves it), the
    bar callbacks before the end of the arrangement schedule no fade; the
    first callback with [barCount >= TOTAL_BARS] schedules the master-gain
    ramp and the deferred stop, and whatever callbacks follow add nothing:
    the run's fade actions are exactly that one transition.  For every bar
    at or past [TOTAL_BARS] the resolver answers the last section with
    offset [bars - 1] = 15 and the start flag off; bar 168 is such a bar. *)
Theorem C6_fade_scheduled_once_and_resolver_pins_last_section
  (d : Techno.director) (pre post : list (Q * Q * Z)) (now t : Q) (b bar : Z) :
  Techno.fadeScheduledRef d = false ->
  Forall (fun c => snd c < Techno.TOTAL_BARS) pre ->
  Techno.TOTAL_BARS <= b ->
  Techno.TOTAL_BARS <= bar ->
  Techno.fades (Techno.bar_callbacks pre d) = Techno.fades d /\
  Techno.fades (Techno.bar_callbacks (pre ++ [(now, t, b)]) d)
  = Techno.fades d ++
    [Techno.CancelScheduledValues now; Techno.SetTargetAtTime 0.0001 t 1.5;
     Techno.SetTimeoutStop 4000] /\
  Techno.fades (Techno.bar_callbacks (pre ++ (now, t, b) :: post) d)
  = Techno.fades (Techno.bar_callbacks (pre ++ [(now, t, b)]) d) /\
  Techno.fadeScheduledRef (Techno.play_reset d) = false /\
  Techno.getSectionForBar Techno.ARRANGEMENT bar
  = Some (Techno.mkLookup Techno.outroFade 6 15 false) /\
  Techno.getSectionForBar Techno.ARRANGEMENT 168
  = Some (Techno.mkLookup Techno.outroFade 6 15 false).
Proof.
  intros Hf Hpre Hb Hbar.
  split; [apply (bar_callbacks_before_end pre d Hf Hpre)|].
  split; [apply (bar_callbacks_fade_once pre [] now t b d Hf Hpre Hb)|].
  split.
  { rewrite (bar_callbacks_fade_once pre post now t b d Hf Hpre Hb).
    rewrite (bar_callbacks_fade_once pre [] now t b d Hf Hpre Hb).
    reflexivity. }
  split; [reflexivity|].
  split; [|reflexivity].
  change Techno.ARRANGEMENT
    with ([Techno.distantIntro; Techno.warmBuild; Techno.dropOne;
           Techno.airyBreakdown; Techno.secondBuild; Techno.finalDrop]
          ++ [Techno.outroFade]).
  rewrite getSectionForBar_beyond; [reflexivity|repeat constructor|exact Hbar].
Qed.

(** Bar callbacks 166 to 170 of a run: one fade, at bar 168. *)
Lemma C6_fade_scheduled_once_and_resolver_pins_last_section_witness :
  Techno.fades
    (Techno.bar_callbacks
       ([(20%Q, 20.1%Q, 166); (22%Q, 22.1%Q, 167)] ++
        (24%Q, 24.1%Q, 168) :: [(26%Q, 26.1%Q, 169); (28%Q, 28.1%Q, 170)])
       (Techno.stage None))
  = [Techno.CancelScheduledValues 24; Techno.SetTargetAtTime 0.0001 24.1 1.5;
     Techno.SetTimeoutStop 4000] /\
  Techno.getSectionForBar Techno.ARRANGEMENT 200
  = Some (Techno.mkLookup Techno.outroFade 6 15 false).
Proof.
  destruct (C6_fade_scheduled_once_and_resolver_pins_last_section
              (Techno.stage None)
              [(20%Q, 20.1%Q, 166); (22%Q, 22.1%Q, 167)]
              [(26%Q, 26.1%Q, 169); (28%Q, 28.1%Q, 170)] 24 24.1 168 200)
    as (_ & Hone & Hrest & _ & Hpin & _).
  - reflexivity.
  - repeat constructor.
  - discriminate.
  - discriminate.
  - split; [|exact Hpin]. rewrite Hrest, Hone. reflexivity.
Defined.

(** C7 (as stated, refuted): bars 0 and 8 get the same chord, but they lie
    in the same section too, the sixteen-bar first one. *)
Lemma C7_bar_eight_is_in_the_first_section :
  ~ (js_index Techno.CHORD_SEQUENCE (js_rem 8 (js_length Techno.CHORD_SEQUENCE))
     = js_index Techno.CHORD_SEQUENCE (js_rem 0 (js_length Techno.CHORD_SEQUENCE)) /\
     option_map Techno.section (Techno.getSectionForBar Techno.ARRANGEMENT 8)
     <> option_map Techno.section (Techno.getSectionForBar Techno.ARRANGEMENT 0)).
Proof. intros [_ Hdiff]. apply Hdiff. reflexivity. Qed.

(** C7 (amended): for every bar index [b >= 0] the bar callback of the
    Techno director returns and stores the chord
    [CHORD_SEQUENCE[b mod length]], whatever section state it starts from;
    the bar callback of [App.jsx] plays the chord at [b mod length] of the
    progression in force.  With the eight-chord sequence the chord at bar 8
    is the chord at bar 0, both bars lying in section 0, and the chord at
    bar 16 is again the chord at bar 0 although bar 16 lies in section 1. *)
Theorem C7_chord_is_bar_modulo_sequence_length
  (d : Techno.director) (now t : Q) (b : Z) (r : App.refs) (rnd : Q) :
  0 <= b ->
  (exists (d' : Techno.director) (chord : Techno.Chord),
      Techno.handleBar now t b d = Eff.Ok tt d' /\
      Techno.chordRef d' = Some chord /\
      Techno.CHORD_SEQUENCE !! Z.to_nat (b mod js_length Techno.CHORD_SEQUENCE)
      = Some chord /\
      Techno.getSectionForBar Techno.ARRANGEMENT b
      = Some (Techno.arrangementStateRef d')) /\
  ((0 <= rnd)%Q -> (rnd < 1)%Q -> App.settled r ->
   exists (r' : App.refs) (prog : App.Progression) (chord : App.Chord),
     App.onBar rnd t b r = Eff.Ok tt r' /\ App.settled r' /\
     App.progressionRef r' = Some prog /\
     prog !! Z.to_nat (b mod js_length prog) = Some chord /\
     App.emitted r' = App.emitted r
                      ++ [App.PadChord t chord; App.Bass t (js_index chord 0)]) /\
  js_length Techno.CHORD_SEQUENCE = 8 /\
  Techno.chordRef (Eff.final (Techno.handleBar now t 8 d))
  = Techno.chordRef (Eff.final (Techno.handleBar now t 0 d)) /\
  Techno.index (Techno.arrangementStateRef (Eff.final (Techno.handleBar now t 8 d)))
  = Techno.index (Techno.arrangementStateRef (Eff.final (Techno.handleBar now t 0 d))) /\
  Techno.chordRef (Eff.final (Techno.handleBar now t 16 d))
  = Techno.chordRef (Eff.final (Techno.handleBar now t 0 d)) /\
  Techno.index (Techno.arrangementStateRef (Eff.final (Techno.handleBar now t 16 d)))
  <> Techno.index (Techno.arrangementStateRef (Eff.final (Techno.handleBar now t 0 d))).
Proof.
  intros Hb.
  split.
  { destruct (handleBar_effect now t b d) as (lk & d' & Hlk & Hd' & Hst & Hch & _).
    destruct (chord_sequence_lookup b Hb) as (chord & Hc & Hc').
    exists d', chord. rewrite Hst, Hch. auto. }
  split; [intros H0 H1 Hs; now apply onBar_effect|].
  split; [reflexivity|].
  destruct (handleBar_effect now t 0 d) as (l0 & d0 & Hl0 & -> & Hs0 & Hc0 & _).
  destruct (handleBar_effect now t 8 d) as (l8 & d8 & Hl8 & -> & Hs8 & Hc8 & _).
  destruct (handleBar_effect now t 16 d) as (l16 & d16 & Hl16 & -> & Hs16 & Hc16 & _).
  cbn [Eff.final]. rewrite Hs0, Hs8, Hs16, Hc0, Hc8, Hc16.
  vm_compute in Hl0, Hl8, Hl16.
  injection Hl0 as <-. injection Hl8 as <-. injection Hl16 as <-.
  repeat split; discriminate.
Qed.

(** Bar 21 gets the sixth chord of the sequence. *)
Lemma C7_chord_is_bar_modulo_sequence_length_witness :
  exists (d' : Techno.director),
    Techno.handleBar 30 30.1 21 (Techno.stage None) = Eff.Ok tt d' /\
    Techno.chordRef d' = Some Techno.abMaj9.
Proof.
  destruct (C7_chord_is_bar_modulo_sequence_length
              (Techno.stage None) 30 30.1 21 App.initial 0.5)
    as ((d' & chord & Hd' & Hch & Hseq & _) & _).
  - discriminate.
  - exists d'. split; [exact Hd'|].
    rewrite Hch. symmetry. exact Hseq.
Defined.

(** C8 (as stated, refuted): with the three pools and previous index 0, two
    of the three equally likely draws select index 1 and one selects index 2,
    so the choice is not uniform over the progressions other than the
    previous one. *)
Lemma C8_choice_among_the_others_is_not_uniform :
  ~ (forall i j : Z,
        0 <= i < js_length App.MINOR_POOLS -> 0 <= j < js_length App.MINOR_POOLS ->
        i <> 0 -> j <> 0 ->
        App.draws_selecting (js_length App.MINOR_POOLS) 0 i
        = App.draws_selecting (js_length App.MINOR_POOLS) 0 j).
Proof.
  intros H. specialize (H 1 2).
  assert (Hne : App.draws_selecting (js_length App.MINOR_POOLS) 0 1
                <> App.draws_selecting (js_length App.MINOR_POOLS) 0 2).
  { vm_compute. discriminate. }
  apply Hne. apply H; try discriminate; split; try discriminate; reflexivity.
Qed.

(** C8 (amended): [onBar] changes the progression exactly on the calls where
    the count of bars since the last reset reaches a multiple of
    [CHANGE_EVERY_BARS]; an index is then drawn at random from the pool and,
    when it equals the previous index and the pool has more than one entry,
    replaced by the next index [(drawn + 1) mod length], with no second
    draw.  The selected index lies in the pool and never equals the previous
    one when the pool has more than one entry; on the other calls the index
    stays.  Of the three draws one selects each index other than the
    previous one, and the draw of the previous index goes to its
    successor. *)
Theorem C8_progression_change_picks_another_index
  (r : App.refs) (rnd t : Q) (b : Z) (n prev drawn : Z) :
  App.barsSinceChangeRef (Eff.final (App.onBar rnd t b r))
  = App.barsSinceChangeRef r + 1 /\
  App.progIdxRef (Eff.final (App.onBar rnd t b r))
  = (if js_rem (App.barsSinceChangeRef r + 1) App.CHANGE_EVERY_BARS =? 0
     then App.choose_index (js_length App.MINOR_POOLS) (App.progIdxRef r)
            (Qfloor (rnd * inject_Z (js_length App.MINOR_POOLS)))
     else App.progIdxRef r) /\
  ((0 <= rnd)%Q -> (rnd < 1)%Q -> 0 < n ->
   0 <= Qfloor (rnd * inject_Z n) < n) /\
  (1 < n -> 0 <= drawn < n ->
   0 <= App.choose_index n prev drawn < n /\
   App.choose_index n prev drawn <> prev /\
   (drawn <> prev -> App.choose_index n prev drawn = drawn) /\
   (drawn = prev -> App.choose_index n prev drawn = (prev + 1) mod n)) /\
  (0 <= prev < 3 ->
   App.draws_selecting 3 prev prev = 0%nat /\
   App.draws_selecting 3 prev ((prev + 1) mod 3) = 2%nat /\
   App.draws_selecting 3 prev ((prev + 2) mod 3) = 1%nat) /\
  js_length App.MINOR_POOLS = 3.
Proof.
  destruct (onBar_index rnd t b r) as [Hsince Hidx].
  split; [exact Hsince|]. split; [exact Hidx|].
  split; [apply random_index_range|].
  split; [apply choose_index_spec|].
  split; [|reflexivity].
  intros Hp.
  assert (Hcases : prev = 0 \/ prev = 1 \/ prev = 2) by lia.
  destruct Hcases as [->|[->| ->]]; vm_compute; auto.
Qed.

(** Three pools, previous index 1, draw 1: index 2 is selected. *)
Lemma C8_progression_change_picks_another_index_witness :
  App.choose_index 3 1 1 = 2 /\ App.choose_index 3 1 1 <> 1.
Proof.
  destruct (C8_progression_change_picks_another_index
              App.initial 0.4 0 0 3 1 1)
    as (_ & _ & _ & Hpick & _).
  destruct Hpick as (_ & Hne & _ & Hnext); [lia|lia|].
  split; [apply Hnext; reflexivity|exact Hne].
Defined.

(** ** The scheduler across polls *)

Section PollFacts.
Import Scheduler.
Context {W : Type}.
Implicit Types s : state W.

(** More fuel never changes the outcome of a poll. *)
Lemma schedule_loop_more_fuel (f f' : nat) (now : Q) s r :
  (f <= f')%nat -> schedule_loop f now s = Some r -> schedule_loop f' now s = Some r.
Proof.
  revert f' s. induction f as [|f IH]; intros f' s Hle; cbn [schedule_loop].
  - destruct f'; cbn [schedule_loop]; destruct (Qlt_le_dec _ _); auto; discriminate.
  - destruct f' as [|f']; [lia|]. cbn [schedule_loop].
    destruct (Qlt_le_dec _ _); [|auto].
    destruct (schedule_body s) as [[] s'|s']; [|auto].
    apply IH. lia.
Qed.

Lemma schedule_loop_unique (f f' : nat) (now : Q) s r r' :
  schedule_loop f now s = Some r -> schedule_loop f' now s = Some r' -> r = r'.
Proof.
  intros H H'.
  apply (schedule_loop_more_fuel f (Nat.max f f') now s r ltac:(lia)) in H.
  apply (schedule_loop_more_fuel f' (Nat.max f f') now s r' ltac:(lia)) in H'.
  congruence.
Qed.

(** A poll at [now1] followed by a poll at a later [now2] is the poll at
    [now2]. *)
Lemma schedule_loop_merge (f1 f2 : nat) (now1 now2 : Q) s s1 r :
  (now1 <= now2)%Q ->
  schedule_loop f1 now1 s = Some (Eff.Ok tt s1) ->
  schedule_loop f2 now2 s1 = Some r ->
  schedule_loop (f1 + f2) now2 s = Some r.
Proof.
  intros Hnow. revert s.
  induction f1 as [|f1 IH]; intros s; cbn [schedule_loop].
  - destruct (Qlt_le_dec (nextNoteTime s) (now1 + scheduleAheadSec s)); [discriminate|].
    intros [= <-]. auto.
  - destruct (Qlt_le_dec (nextNoteTime s) (now1 + scheduleAheadSec s)) as [Hlt|Hge].
    + destruct (schedule_body_step s) as (s' & Hs' & _). rewrite Hs'.
      intros H1 H2. cbn [Nat.add schedule_loop].
      destruct (Qlt_le_dec (nextNoteTime s) (now2 + scheduleAheadSec s)) as [_|Hge2];
        [|lra].
      rewrite Hs'. now apply IH.
    + intros [= <-] H2.
      apply (schedule_loop_more_fuel f2 (S f1 + f2) now2 s r); [lia|exact H2].
Qed.

Lemma tick_merge (now1 now2 : Q) s :
  timerId s = true -> (0 < bpm s)%Q -> (now1 <= now2)%Q ->
  run [now1; now2] s = run [now2] s /\ exists s', run [now2] s = Some s'.
Proof.
  intros Hrun Hb Hnow. cbn [run]. unfold tick. rewrite Hrun.
  destruct (schedule_returns now1 s Hb) as (s1 & Hs1). rewrite Hs1. cbn [Eff.final].
  unfold schedule in Hs1.
  destruct (schedule_loop_config _ _ _ _ Hs1) as (Hb1 & _ & _ & _ & Ht1).
  cbn [Eff.final] in Hb1, Ht1. rewrite Ht1, Hrun.
  destruct (schedule_returns now2 s1 ltac:(now rewrite Hb1)) as (s2 & Hs2).
  destruct (schedule_returns now2 s Hb) as (s2' & Hs2').
  rewrite Hs2, Hs2'. cbn [Eff.final]. split; [|eauto].
  unfold schedule in Hs2, Hs2'.
  pose proof (schedule_loop_merge _ _ _ _ _ _ _ Hnow Hs1 Hs2) as Hm.
  pose proof (schedule_loop_unique _ _ _ _ _ _ Hm Hs2') as He.
  now injection He as ->.
Qed.

Lemma clock_readings_last (t now : Q) (nows : list Q) :
  clock_readings t (nows ++ [now]) -> (t <= now)%Q.
Proof.
  revert t. induction nows as [|n rest IH]; intros t; cbn.
  - tauto.
  - intros [Htn Hrest]. specialize (IH _ Hrest). lra.
Qed.

Lemma run_config (nows : list Q) s s' :
  run nows s = Some s' -> bpm s' = bpm s /\ timerId s' = timerId s.
Proof.
  revert s. induction nows as [|now rest IH]; intros s; cbn [run].
  - intros [= <-]. auto.
  - destruct (tick now s) as [r|] eqn:Ht; [|discriminate].
    intros Hrest. destruct (IH _ Hrest) as [-> ->].
    unfold tick in Ht. destruct (timerId s) eqn:Hid.
    + destruct (schedule_loop_config _ _ _ _ Ht) as (-> & _ & _ & _ & ->). auto.
    + injection Ht as <-. auto.
Qed.

Lemma run_merge (t now : Q) (nows : list Q) s :
  timerId s = true -> (0 < bpm s)%Q ->
  clock_readings t (nows ++ [now]) ->
  run (nows ++ [now]) s = run [now] s /\ exists s', run [now] s = Some s'.
Proof.
  revert t s. induction nows as [|n rest IH]; intros t s Hrun Hb Hclk.
  - split; [reflexivity|]. cbn [run]. unfold tick. rewrite Hrun.
    destruct (schedule_returns now s Hb) as (s' & ->). eauto.
  - cbn in Hclk. destruct Hclk as [_ Hrest].
    pose proof (clock_readings_last _ _ _ Hrest) as Hn.
    destruct (tick_merge n now s Hrun Hb Hn) as [Hm Hex].
    split; [|exact Hex]. rewrite <- Hm.
    change ((n :: rest) ++ [now]) with (n :: (rest ++ [now])).
    cbn [run]. destruct (tick n s) as [r|] eqn:Ht; [|reflexivity].
    assert (Hcfg : bpm (Eff.final r) = bpm s /\ timerId (Eff.final r) = timerId s).
    { apply (run_config [n] s). cbn [run]. now rewrite Ht. }
    destruct Hcfg as [Hb' Ht'].
    apply (IH n (Eff.final r)); [congruence|now rewrite Hb'|exact Hrest].
Qed.

End PollFacts.

(** ** The grid *)

Section GridFacts.
Import Scheduler Grid.

Lemma slot_spec (u : state unit) :
  schedule_body u = Eff.Ok tt (slot u) /\ slot_step u (slot u).
Proof.
  unfold slot. destruct (schedule_body_step u) as (u' & -> & Hstep & _). auto.
Qed.

Lemma erase_unit (u : state unit) :
  handlers u = noop -> erase u = u.
Proof. destruct u as [? ? ? ? h ? ? ? ? [] ?]. cbn. now intros ->. Qed.

(** A poll is a number of whole loop iterations. *)
Lemma schedule_loop_slots {W : Type} (fuel : nat) (now : Q) (s : state W) r :
  schedule_loop fuel now s = Some r ->
  exists n : nat, erase (Eff.final r) = Nat.iter n slot (erase s).
Proof.
  revert s. induction fuel as [|fuel IH]; intros s; cbn [schedule_loop];
    destruct (Qlt_le_dec _ _); try discriminate;
    try (intros [= <-]; exists O; reflexivity).
  destruct (schedule_body_step s) as (s' & -> & _ & Hs').
  intros Hr. destruct (IH _ Hr) as (n & Hn).
  assert (Hslot : slot (erase s) = erase s') by (unfold slot; now rewrite Hs').
  exists (S n). now rewrite Hn, Nat.iter_succ_r, Hslot.
Qed.

Lemma run_slots {W : Type} (nows : list Q) (s s' : state W) :
  run nows s = Some s' ->
  exists n : nat, erase s' = Nat.iter n slot (erase s).
Proof.
  revert s. induction nows as [|now rest IH]; intros s; cbn [run].
  - intros [= <-]. exists O. reflexivity.
  - destruct (tick now s) as [r|] eqn:Ht; [|discriminate].
    intros Hrest. destruct (IH _ Hrest) as (n & Hn).
    unfold tick in Ht. destruct (timerId s).
    + destruct (schedule_loop_slots _ _ _ _ Ht) as (m & Hm).
      exists (n + m)%nat. rewrite Hn, Hm. symmetry. apply Nat.iter_add.
    + injection Ht as <-. eauto.
Qed.

Lemma stream_S (t0 dur sw : Q) (n : nat) :
  stream t0 dur sw (S n) = stream t0 dur sw n ++ slot_calls t0 dur sw n.
Proof.
  unfold stream. rewrite seq_S, flat_map_app. cbn. now rewrite app_nil_r.
Qed.

Lemma call_eq_refl_list (l : list call) : Forall2 call_eq l l.
Proof.
  induction l as [|[t a b|t b] l IH]; constructor; auto;
    constructor; reflexivity.
Qed.

(** The closed form of the state [n] iterations after the slot and bar
    counters were zero. *)
Lemma iter_slot_grid (n : nat) (u : state unit) :
  current16th u = 0 -> barCount u = 0 ->
  let v := Nat.iter n slot u in
  bpm v = bpm u /\ swing v = swing u /\
  (nextNoteTime v == nextNoteTime u + inject_Z (Z.of_nat n) * sixteenthDur u)%Q /\
  current16th v = Z.of_nat n mod 16 /\
  barCount v = Z.of_nat n / 16 /\
  Forall2 call_eq (calls v)
    (calls u ++ stream (nextNoteTime u) (sixteenthDur u) (swing u) n).
Proof.
  intros Hc Hb. induction n as [|n IH]; cbn zeta in *.
  - cbn [Nat.iter nat_rect]. unfold stream. cbn [seq flat_map].
    rewrite Hc, Hb, app_nil_r.
    change (inject_Z (Z.of_nat 0)) with 0%Q.
    repeat split; try reflexivity; [lra|apply call_eq_refl_list].
  - rewrite Nat.iter_succ.
    set (v := Nat.iter n slot u) in *.
    destruct IH as (Hbpm & Hsw & Hnext & Hcur & Hbar & Hcalls).
    destruct (slot_spec v) as [_ Hstep].
    destruct Hstep as (Hb' & _ & _ & Hs' & _ & _ & Hn' & Hc' & Hbar' & Hcalls').
    assert (Hdur : sixteenthDur v = sixteenthDur u).
    { unfold sixteenthDur, secondsPerBeat. now rewrite Hbpm. }
    assert (Hslot : 0 <= current16th v < 16).
    { rewrite Hcur. apply Z.mod_pos_bound. lia. }
    split; [congruence|]. split; [congruence|].
    split.
    { rewrite Hn', Hnext, Hdur, Nat2Z.inj_succ. unfold Z.succ.
      rewrite inject_Z_plus. change (inject_Z 1) with 1%Q. lra. }
    split.
    { rewrite Hc', Hcur, js_rem_nonneg by lia. rewrite Nat2Z.inj_succ.
      Z.div_mod_to_equations. lia. }
    split.
    { rewrite Hbar', Hbar, Hcur, js_rem_nonneg by lia. rewrite Nat2Z.inj_succ.
      destruct (Z.eqb_spec ((Z.of_nat n mod 16 + 1) mod 16) 0) as [H0|H0];
        revert H0; Z.div_mod_to_equations; lia. }
    rewrite Hcalls', stream_S, app_assoc.
    apply Forall2_app; [exact Hcalls|].
    unfold calls_of_slot, slot_calls, swingOffset.
    rewrite Hcur, Hbar, Hsw, Hdur.
    assert (Hrem : js_rem (Z.of_nat n mod 16) 4 = Z.of_nat n mod 4).
    { rewrite js_rem_nonneg by lia. Z.div_mod_to_equations. lia. }
    rewrite Hrem.
    constructor.
    + constructor. rewrite Hnext. reflexivity.
    + destruct (Z.of_nat n mod 16 =? 0); constructor; [|constructor].
      constructor. exact Hnext.
Qed.

End GridFacts.

Lemma run_returns {W : Type} (nows : list Q) (s : Scheduler.state W) :
  (0 < Scheduler.bpm s)%Q -> exists s', Scheduler.run nows s = Some s'.
Proof.
  revert s. induction nows as [|now rest IH]; intros s Hb; cbn [Scheduler.run].
  - eauto.
  - destruct (tick_returns now s Hb) as (s1 & Hs1). rewrite Hs1. cbn [Eff.final].
    apply IH.
    assert (Hcfg : Scheduler.bpm s1 = Scheduler.bpm s).
    { apply (run_config [now] s s1). cbn [Scheduler.run]. now rewrite Hs1. }
    now rewrite Hcfg.
Qed.

(** X1: with the timer running and a positive tempo, any series of polls at
    clock readings that never run backwards leaves exactly the state that
    the last poll alone would have left: the same closure variables, the
    same handler calls in the same order, the same handler world.  How the
    polls are spaced changes nothing. *)
Theorem X1_polls_merge_into_the_last_one
  {W : Type} (s : Scheduler.state W) (t now : Q) (nows : list Q) :
  Scheduler.timerId s = true ->
  (0 < Scheduler.bpm s)%Q ->
  Scheduler.clock_readings t (nows ++ [now]) ->
  Scheduler.run (nows ++ [now]) s = Scheduler.run [now] s /\
  exists s', Scheduler.run [now] s = Some s'.
Proof. apply run_merge. Qed.

(** Three polls 25 ms apart against the single poll at the last reading. *)
Lemma X1_polls_merge_into_the_last_one_witness :
  Scheduler.run ([10; 10.025] ++ [10.05])%Q
    (Scheduler.start 10 0.05 Scheduler.swung)
  = Scheduler.run [10.05]%Q (Scheduler.start 10 0.05 Scheduler.swung).
Proof.
  destruct (X1_polls_merge_into_the_last_one
              (Scheduler.start 10 0.05 Scheduler.swung) 10 10.05 [10; 10.025]%Q)
    as [Hm _].
  - reflexivity.
  - reflexivity.
  - cbn. repeat split; discriminate.
  - exact Hm.
Defined.

(** X2: after a start with the timer idle and a positive tempo, every run of
    polls returns, and the state it leaves is that of some number [n] of
    whole sixteenths: [nextNoteTime] is the start time plus [n] sixteenth
    durations, the slot is [n mod 16], the bar count [n / 16], and the calls
    made are, in order and with nothing missing or repeated, those of the
    sixteenths 0 .. n-1: slot [k mod 16] of bar [k / 16] at its grid time
    (plus the swing on off-eighths), each slot 0 followed at once by its bar
    call at the unswung grid time. *)
Theorem X2_run_emits_the_grid_in_order
  {W : Type} (s0 : Scheduler.state W) (now delay : Q) (nows : list Q) :
  Scheduler.timerId s0 = false ->
  (0 < Scheduler.bpm s0)%Q ->
  exists (s' : Scheduler.state W) (n : nat),
    Scheduler.run nows (Scheduler.start now delay s0) = Some s' /\
    (Scheduler.nextNoteTime s'
     == now + delay + inject_Z (Z.of_nat n) * Scheduler.sixteenthDur s0)%Q /\
    Scheduler.current16th s' = Z.of_nat n mod 16 /\
    Scheduler.barCount s' = Z.of_nat n / 16 /\
    Forall2 Grid.call_eq (Scheduler.calls s')
      (Scheduler.calls s0 ++
       Grid.stream (now + delay) (Scheduler.sixteenthDur s0) (Scheduler.swing s0) n).
Proof.
  intros Hidle Hb.
  destruct (run_returns nows (Scheduler.start now delay s0)) as (s' & Hs').
  { unfold Scheduler.start. now rewrite Hidle. }
  destruct (run_slots nows _ _ Hs') as (n & Hn).
  exists s', n. split; [exact Hs'|].
  pose proof (iter_slot_grid n (Scheduler.erase (Scheduler.start now delay s0))) as Hg.
  unfold Scheduler.start in Hg, Hn. rewrite Hidle in Hg, Hn.
  specialize (Hg eq_refl eq_refl). cbn zeta in Hg. rewrite <- Hn in Hg.
  destruct Hg as (_ & _ & Hnext & Hcur & Hbar & Hcalls).
  repeat split; assumption.
Qed.

(** The default scheduler after six polls. *)
Lemma X2_run_emits_the_grid_in_order_witness :
  exists (s' : Scheduler.state unit) (n : nat),
    Scheduler.run Scheduler.six_polls (Scheduler.start 10 0.05 Scheduler.plain)
    = Some s' /\
    Scheduler.current16th s' = Z.of_nat n mod 16.
Proof.
  destruct (X2_run_emits_the_grid_in_order
              Scheduler.plain 10 0.05 Scheduler.six_polls)
    as (s' & n & Hrun & _ & Hcur & _).
  - reflexivity.
  - reflexivity.
  - exists s', n. split; [exact Hrun|exact Hcur].
Defined.

(** ** Note names, continued *)

Section NameFacts.
Import Notes.

Lemma name_table : forallb TechnoBeat.name_parses (seqZ 0 128) = true.
Proof. vm_compute. reflexivity. Qed.

(** [midiToNote] only produces texts of the note language. *)
Lemma midiToNote_matches (x : Z) : matches_note (midiToNote x).
Proof.
  rewrite midiToNote_clamp.
  pose proof name_table as Htab. rewrite forallb_forall in Htab.
  specialize (Htab (clamp_midi x)).
  unfold TechnoBeat.name_parses in Htab.
  destruct (note_regex_exec (midiToNote (clamp_midi x))) as [[name o]|] eqn:He.
  - eapply note_regex_exec_sound. exact He.
  - discriminate Htab.
    apply list_elem_of_In, elem_of_seqZ. unfold clamp_midi. lia.
Qed.

Lemma note_index_bound (name : string) :
  0 <= default 0 (NOTE_INDEX !! name) <= 11.
Proof.
  destruct (NOTE_INDEX !! name) as [v|] eqn:Hv; cbn [default id]; [|lia].
  unfold NOTE_INDEX in Hv. apply elem_of_list_to_map_2 in Hv.
  repeat (apply elem_of_cons in Hv; destruct Hv as [[= _ ->]|Hv]; [lia|]).
  apply elem_of_nil in Hv. contradiction.
Qed.

Lemma digit_value_bound (d : ascii) :
  is_digit d = true -> 0 <= digit_value d <= 9.
Proof.
  unfold is_digit, digit_value. intros H.
  apply andb_true_iff in H. destruct H as [H1 H2].
  apply Nat.leb_le in H1, H2. lia.
Qed.

Lemma octave_group_bound (s : string) (o : Z) :
  octave_group s = Some o -> -9 <= o <= 9.
Proof.
  unfold octave_group.
  destruct s as [|c [|d [|e t]]]; try discriminate.
  - destruct (is_digit c) eqn:Hc; [|discriminate].
    intros [= <-]. pose proof (digit_value_bound c Hc). lia.
  - destruct (Ascii.eqb c "-" && is_digit d) eqn:Hc; [|discriminate].
    apply andb_true_iff in Hc. destruct Hc as [_ Hd].
    intros [= <-]. pose proof (digit_value_bound d Hd). lia.
Qed.

Lemma noteToMidi_bound (s : string) : -96 <= noteToMidi s <= 131.
Proof.
  unfold noteToMidi.
  destruct (note_regex_exec s) as [[name o]|] eqn:He; [|lia].
  pose proof (note_index_bound name) as Hb.
  assert (Ho : -9 <= o <= 9).
  { unfold note_regex_exec in He.
    destruct s as [|l rest]; [discriminate|].
    destruct (is_letter l); [|discriminate].
    destruct rest as [|a rest']; [discriminate|].
    destruct (is_accidental a).
    - destruct (octave_group rest') as [o'|] eqn:Hg; [|discriminate].
      injection He as _ <-. eapply octave_group_bound; eauto.
    - destruct (octave_group (String a rest')) as [o'|] eqn:Hg; [|discriminate].
      injection He as _ <-. eapply octave_group_bound; eauto. }
  cbn zeta. lia.
Qed.

Lemma noteToMidi_midiToNote_clamp (x : Z) :
  noteToMidi (midiToNote x) = clamp_midi x.
Proof.
  rewrite midiToNote_clamp. apply noteToMidi_midiToNote.
  unfold clamp_midi. lia.
Qed.

End NameFacts.

(** X3: [midiToNote] answers, for every integer, a text that the note
    pattern of [noteToMidi] accepts, so [noteToMidi] never has to fall back
    on its output; [noteToMidi] itself ranges over -96 .. 131 (both ends
    reached, at C-9 and B9), outside the MIDI range, and [transpose] always
    lands inside 0 .. 127. *)
Theorem X3_note_names_stay_well_formed (x : Z) (s : string) (semitones : Z) :
  Notes.matches_note (Notes.midiToNote x) /\
  -96 <= Notes.noteToMidi s <= 131 /\
  Notes.noteToMidi "C-9" = -96 /\ Notes.noteToMidi "B9" = 131 /\
  Notes.matches_note (Notes.transpose s semitones) /\
  0 <= Notes.noteToMidi (Notes.transpose s semitones) <= 127.
Proof.
  split; [apply midiToNote_matches|].
  split; [apply noteToMidi_bound|].
  split; [reflexivity|]. split; [reflexivity|].
  split; [apply midiToNote_matches|].
  unfold Notes.transpose. rewrite noteToMidi_midiToNote_clamp.
  unfold Notes.clamp_midi. lia.
Qed.

(** X4: two transpositions in a row give the MIDI value clamped after each
    step; when the first step stays inside 0 .. 127 they are the single
    transposition by the sum, as texts; and going up and back down by the
    same amount returns a note of the MIDI range to its MIDI value whenever
    the way up stays in range.  A transposition by zero respells a note with
    sharps and is idempotent. *)
Theorem X4_transpositions_compose (note : string) (a b : Z) :
  Notes.noteToMidi (Notes.transpose (Notes.transpose note a) b)
  = Notes.clamp_midi (Notes.clamp_midi (Notes.noteToMidi note + a) + b) /\
  (0 <= Notes.noteToMidi note + a <= 127 ->
   Notes.transpose (Notes.transpose note a) b = Notes.transpose note (a + b)) /\
  (0 <= Notes.noteToMidi note <= 127 -> 0 <= Notes.noteToMidi note + a <= 127 ->
   Notes.noteToMidi (Notes.transpose (Notes.transpose note a) (- a))
   = Notes.noteToMidi note) /\
  Notes.transpose (Notes.transpose note 0) 0 = Notes.transpose note 0.
Proof.
  unfold Notes.transpose. rewrite !noteToMidi_midiToNote_clamp.
  split; [reflexivity|]. split; [|split].
  - intros Ha. f_equal. unfold Notes.clamp_midi. lia.
  - intros Hm Ha. unfold Notes.clamp_midi. lia.
  - rewrite (midiToNote_clamp (Notes.clamp_midi _ + 0)).
    rewrite (midiToNote_clamp (Notes.noteToMidi note + 0)).
    f_equal. unfold Notes.clamp_midi. lia.
Qed.

(** Db3 up a fifth and then up a fourth is Db3 up an octave, spelled C#4. *)
Lemma X4_transpositions_compose_witness :
  Notes.transpose (Notes.transpose "Db3" 7) 5 = "C#4"%string.
Proof.
  destruct (X4_transpositions_compose "Db3" 7 5) as (_ & Hsum & _).
  rewrite Hsum; [reflexivity|]. vm_compute. split; discriminate.
Defined.

(** ** Bass roles and instrument voices *)

Section VoiceFacts.
Import Techno TechnoBeat.

Lemma or_note_cases (a b : string) :
  (a = ""%string /\ or_note a b = b) \/ (a <> ""%string /\ or_note a b = a).
Proof. destruct a; [left|right]; split; auto; discriminate. Qed.

Lemma resolveBassRole_other (chord : Chord) (r : string) :
  ~ In r bass_roles -> resolveBassRole chord r = root (chord_bass chord).
Proof.
  intros Hr. unfold resolveBassRole.
  repeat match goal with
         | |- context [String.eqb r ?k] =>
             destruct (String.eqb_spec r k) as [->|_];
             [exfalso; apply Hr; cbn; tauto|]
         end.
  reflexivity.
Qed.

Lemma resolveBassRole_matches (chord : Chord) (r : string) :
  Notes.matches_note (root (chord_bass chord)) ->
  (fifth (chord_bass chord) = ""%string \/ Notes.matches_note (fifth (chord_bass chord))) ->
  (octave (chord_bass chord) = ""%string \/ Notes.matches_note (octave (chord_bass chord))) ->
  Notes.matches_note (resolveBassRole chord r).
Proof.
  intros Hroot Hfifth Hoct. unfold resolveBassRole.
  repeat match goal with
         | |- context [String.eqb r ?k] => destruct (String.eqb r k)
         end;
    try assumption; try apply midiToNote_matches.
  - destruct (or_note_cases (fifth (chord_bass chord)) (Notes.transpose (root (chord_bass chord)) 7))
      as [[_ ->]|[Hne ->]]; [apply midiToNote_matches|tauto].
  - destruct (or_note_cases (octave (chord_bass chord)) (Notes.transpose (root (chord_bass chord)) 12))
      as [[_ ->]|[Hne ->]]; [apply midiToNote_matches|tauto].
Qed.

(** The shipped bass patterns use known roles on slots 0 .. 15. *)
Lemma bass_patterns_known (name : string) (pat : list BassEvent) (ev : BassEvent) :
  BASS_PATTERNS !! name = Some pat -> In ev pat ->
  In (role ev) bass_roles /\ 0 <= step ev < 16.
Proof.
  intros Hpat Hev. unfold BASS_PATTERNS in Hpat.
  apply elem_of_list_to_map_2 in Hpat.
  repeat (apply elem_of_cons in Hpat; destruct Hpat as [[= -> ->]|Hpat]);
    try (apply elem_of_nil in Hpat; contradiction);
    cbn in Hev;
    repeat (destruct Hev as [<-|Hev]; [cbn; split; [tauto|lia]|]);
    contradiction.
Qed.

(** A [forEach] whose body catches what [play] throws makes every request,
    in order. *)
Lemma forEach_requests {A : Type} (inst : Instrument) (mk : A -> Z -> request)
      (arr : list A) (i : Z) (v : voices) :
  forEach (fun note idx => Eff.tryCatch (play_voice inst (mk note idx))) arr i v
  = Eff.Ok tt
      {| padInstrument := padInstrument v; stabInstrument := stabInstrument v;
         bassInstrument := bassInstrument v; playing := playing v; bpm := bpm v;
         requests := requests v ++ imap (fun k note => mk note (i + Z.of_nat k)) arr |}.
Proof.
  revert i v. induction arr as [|x rest IH]; intros i v; cbn [forEach imap].
  - unfold Eff.ret. rewrite app_nil_r. destruct v; reflexivity.
  - unfold Eff.bind at 1. unfold Eff.tryCatch at 1.
    unfold play_voice, Eff.bind, record_request, Eff.modify.
    destruct (inst _ _ _ _); rewrite IH; cbn [padInstrument stabInstrument
      bassInstrument playing bpm requests]; rewrite <- app_assoc, Z.add_0_r;
      do 3 f_equal; cbn [app]; f_equal; apply imap_ext; intros k y _;
      unfold compose; f_equal; lia.
Qed.

End VoiceFacts.

(** X5: [resolveBassRole] answers the chord's root for every role name
    outside the eight of its [switch]; the roles rootHi, ghostDown, ghostUp
    and walkUp are the root moved by +12, -2, -1 and +5 semitones (clamped
    to 0 .. 127); an empty fifth or octave entry is replaced by the root
    moved by 7 or 12; and when the root and the non-empty fifth and octave
    entries are well-formed note names, so is the answer for every role.
    The shipped bass patterns only use the eight known roles. *)
Theorem X5_bass_roles_resolve_to_notes (chord : Techno.Chord) (r : string) :
  (~ In r TechnoBeat.bass_roles ->
   TechnoBeat.resolveBassRole chord r = Techno.root (Techno.chord_bass chord)) /\
  Notes.noteToMidi (TechnoBeat.resolveBassRole chord "rootHi")
  = Notes.clamp_midi (Notes.noteToMidi (Techno.root (Techno.chord_bass chord)) + 12) /\
  Notes.noteToMidi (TechnoBeat.resolveBassRole chord "ghostDown")
  = Notes.clamp_midi (Notes.noteToMidi (Techno.root (Techno.chord_bass chord)) - 2) /\
  Notes.noteToMidi (TechnoBeat.resolveBassRole chord "ghostUp")
  = Notes.clamp_midi (Notes.noteToMidi (Techno.root (Techno.chord_bass chord)) - 1) /\
  Notes.noteToMidi (TechnoBeat.resolveBassRole chord "walkUp")
  = Notes.clamp_midi (Notes.noteToMidi (Techno.root (Techno.chord_bass chord)) + 5) /\
  (Techno.fifth (Techno.chord_bass chord) = ""%string ->
   TechnoBeat.resolveBassRole chord "fifth"
   = Notes.transpose (Techno.root (Techno.chord_bass chord)) 7) /\
  (Techno.octave (Techno.chord_bass chord) = ""%string ->
   TechnoBeat.resolveBassRole chord "octave"
   = Notes.transpose (Techno.root (Techno.chord_bass chord)) 12) /\
  (Notes.matches_note (Techno.root (Techno.chord_bass chord)) ->
   (Techno.fifth (Techno.chord_bass chord) = ""%string \/
    Notes.matches_note (Techno.fifth (Techno.chord_bass chord))) ->
   (Techno.octave (Techno.chord_bass chord) = ""%string \/
    Notes.matches_note (Techno.octave (Techno.chord_bass chord))) ->
   Notes.matches_note (TechnoBeat.resolveBassRole chord r)) /\
  (forall (name : string) (pat : list TechnoBeat.BassEvent) (ev : TechnoBeat.BassEvent),
      TechnoBeat.BASS_PATTERNS !! name = Some pat -> In ev pat ->
      In (TechnoBeat.role ev) TechnoBeat.bass_roles /\ 0 <= TechnoBeat.step ev < 16).
Proof.
  split; [apply resolveBassRole_other|].
  unfold TechnoBeat.resolveBassRole at 1 2 3 4 5 6. cbn [String.eqb Ascii.eqb Bool.eqb].
  unfold Notes.transpose at 1 2 3 4. rewrite !noteToMidi_midiToNote_clamp.
  replace (Notes.noteToMidi (Techno.root (Techno.chord_bass chord)) + -2)
    with (Notes.noteToMidi (Techno.root (Techno.chord_bass chord)) - 2) by lia.
  replace (Notes.noteToMidi (Techno.root (Techno.chord_bass chord)) + -1)
    with (Notes.noteToMidi (Techno.root (Techno.chord_bass chord)) - 1) by lia.
  repeat (split; [reflexivity|]).
  split; [intros ->; reflexivity|].
  split; [intros ->; reflexivity|].
  split; [apply resolveBassRole_matches|apply bass_patterns_known].
Qed.

(** The role of a pattern outside the table, on the chord c7. *)
Lemma X5_bass_roles_resolve_to_notes_witness :
  TechnoBeat.resolveBassRole Techno.c7 "slide" = "C2"%string.
Proof.
  destruct (X5_bass_roles_resolve_to_notes Techno.c7 "slide") as (Hother & _).
  apply Hother. cbn. intros H.
  repeat (destruct H as [H|H]; [discriminate H|]). exact H.
Defined.

(** X6: with its instrument loaded and playback on, [schedulePadChord]
    requests every note of the chord's pad array, in order, at the given
    time, the first at 0.6 and the others at 0.4 of the amount, for 0.95 of
    a bar, and [maybeTriggerChordStab] requests its three-note voicing, the
    first at 0.4 and the others at 0.3 of the amount; neither throws,
    however many of the requests the instrument rejects.  With the
    instrument missing or playback off both return without a request. *)
Theorem X6_pad_and_stab_request_every_note
  (v : TechnoBeat.voices) (inst : Techno.Instrument) (time amt : Q)
  (chord : Techno.Chord) (any : option Techno.Chord) :
  (TechnoBeat.padInstrument v = Some inst -> TechnoBeat.playing v = true ->
   exists v',
     TechnoBeat.schedulePadChord time (Some chord) amt v = Eff.Ok tt v' /\
     TechnoBeat.requests v'
     = TechnoBeat.requests v ++
       imap (fun k note =>
               TechnoBeat.mkRequest TechnoBeat.PadVoice (Some note) time
                 (amt * (if Z.of_nat k =? 0 then 0.6 else 0.4))%Q
                 (60 / TechnoBeat.bpm v * 4 * 0.95)%Q)
            (Techno.chord_pad chord)) /\
  (TechnoBeat.stabInstrument v = Some inst -> TechnoBeat.playing v = true ->
   exists v',
     TechnoBeat.maybeTriggerChordStab time (Some chord) amt v = Eff.Ok tt v' /\
     TechnoBeat.requests v'
     = TechnoBeat.requests v ++
       imap (fun k note =>
               TechnoBeat.mkRequest TechnoBeat.StabVoice note time
                 (amt * (if Z.of_nat k =? 0 then 0.4 else 0.3))%Q
                 (60 / TechnoBeat.bpm v * 0.9)%Q)
            (TechnoBeat.stab_voicing chord) /\
     length (TechnoBeat.requests v') = (length (TechnoBeat.requests v) + 3)%nat) /\
  (TechnoBeat.padInstrument v = None \/ TechnoBeat.playing v = false ->
   TechnoBeat.schedulePadChord time any amt v = Eff.Ok tt v) /\
  (TechnoBeat.stabInstrument v = None \/ TechnoBeat.playing v = false ->
   TechnoBeat.maybeTriggerChordStab time any amt v = Eff.Ok tt v).
Proof.
  split; [|split; [|split]].
  - intros Hi Hp. unfold TechnoBeat.schedulePadChord. rewrite Hi, Hp. cbn [negb].
    rewrite forEach_requests. eexists. split; [reflexivity|]. cbn. reflexivity.
  - intros Hi Hp. unfold TechnoBeat.maybeTriggerChordStab. rewrite Hi, Hp. cbn [negb].
    rewrite forEach_requests. eexists. split; [reflexivity|].
    split; [cbn; reflexivity|].
    cbn [TechnoBeat.requests]. rewrite length_app, length_imap. reflexivity.
  - intros [Hi|Hp]; unfold TechnoBeat.schedulePadChord.
    + now rewrite Hi.
    + rewrite Hp. now destruct (TechnoBeat.padInstrument v).
  - intros [Hi|Hp]; unfold TechnoBeat.maybeTriggerChordStab.
    + now rewrite Hi.
    + rewrite Hp. now destruct (TechnoBeat.stabInstrument v).
Qed.

(** Instruments that reject every request still receive the five pad notes
    of fm9. *)
Lemma X6_pad_and_stab_request_every_note_witness :
  exists v',
    TechnoBeat.schedulePadChord 4 (Some Techno.fm9) 1 TechnoBeat.all_broken
    = Eff.Ok tt v' /\
    length (TechnoBeat.requests v') = 5%nat.
Proof.
  destruct (X6_pad_and_stab_request_every_note
              TechnoBeat.all_broken Techno.broken_instrument 4 1 Techno.fm9 None)
    as (Hpad & _).
  destruct Hpad as (v' & Hv' & Hreq); [reflexivity|reflexivity|].
  exists v'. split; [exact Hv'|]. rewrite Hreq. reflexivity.
Defined.

(** X7: with its instrument loaded and playback on, [triggerBass] makes one
    request, for the note [resolveBassRole] gives the event's role, at the
    amount times the event's velocity, and never throws even if the
    instrument does; the duration is the larger of the declared length (two
    sixteenths when the event declares none) and 0.9 of a sixteenth, hence
    never below either when the tempo is positive.  With the instrument
    missing or playback off it returns without a request. *)
Theorem X7_bass_trigger_has_a_duration_floor
  (v : TechnoBeat.voices) (inst : Techno.Instrument) (time amt : Q)
  (chord : Techno.Chord) (any : option Techno.Chord) (ev : TechnoBeat.BassEvent) :
  (TechnoBeat.bassInstrument v = Some inst -> TechnoBeat.playing v = true ->
   exists v',
     TechnoBeat.triggerBass time (Some chord) ev amt v = Eff.Ok tt v' /\
     TechnoBeat.requests v'
     = TechnoBeat.requests v ++
       [TechnoBeat.mkRequest TechnoBeat.BassVoice
          (Some (TechnoBeat.resolveBassRole chord (TechnoBeat.role ev))) time
          (amt * TechnoBeat.bass_vel ev)%Q (TechnoBeat.bass_duration v ev)]) /\
  (60 / TechnoBeat.bpm v / 4 * 0.9 <= TechnoBeat.bass_duration v ev)%Q /\
  (60 / TechnoBeat.bpm v / 4 * default 2%Q (TechnoBeat.bass_len16 ev)
   <= TechnoBeat.bass_duration v ev)%Q /\
  (TechnoBeat.bassInstrument v = None \/ TechnoBeat.playing v = false ->
   TechnoBeat.triggerBass time any ev amt v = Eff.Ok tt v).
Proof.
  split; [|split; [|split]].
  - intros Hi Hp. unfold TechnoBeat.triggerBass. rewrite Hi, Hp. cbn [negb].
    unfold Eff.tryCatch, TechnoBeat.play_voice, Eff.bind,
      TechnoBeat.record_request, Eff.modify.
    cbn [TechnoBeat.req_note TechnoBeat.req_time TechnoBeat.req_gain
           TechnoBeat.req_duration].
    destruct (inst _ _ _ _); eexists; split; reflexivity.
  - apply Q.le_max_r.
  - apply Q.le_max_l.
  - intros [Hi|Hp]; unfold TechnoBeat.triggerBass.
    + now rewrite Hi.
    + rewrite Hp. now destruct (TechnoBeat.bassInstrument v).
Qed.

(** A one-sixteenth ghost note on fm9 against an instrument that throws. *)
Lemma X7_bass_trigger_has_a_duration_floor_witness :
  exists v',
    TechnoBeat.triggerBass 4 (Some Techno.fm9)
      (TechnoBeat.bass_ev 1 "ghostDown" 1 0.48) 1 TechnoBeat.all_broken
    = Eff.Ok tt v' /\
    map TechnoBeat.req_note (TechnoBeat.requests v') = [Some "D#2"%string].
Proof.
  destruct (X7_bass_trigger_has_a_duration_floor
              TechnoBeat.all_broken Techno.broken_instrument 4 1 Techno.fm9 None
              (TechnoBeat.bass_ev 1 "ghostDown" 1 0.48))
    as (Hone & _).
  destruct Hone as (v' & Hv' & Hreq); [reflexivity|reflexivity|].
  exists v'. split; [exact Hv'|]. rewrite Hreq. reflexivity.
Defined.

(** ** The sixteenth callback of the Techno director *)

Section BeatFacts.
Import Techno TechnoBeat.

Lemma filter_kick_one (b : bool) (g : trigger) :
  is_kick g = false -> List.filter is_kick (one b g) = [].
Proof. intros Hg. destruct b; cbn; [now rewrite Hg|reflexivity]. Qed.

Lemma filter_kick_bass (f : BassEvent -> bool) (t : Q) (c : option Chord) (a : Q)
      (pat : list BassEvent) :
  List.filter is_kick (flat_map (fun e => one (f e) (TriggerBass t c e a)) pat) = [].
Proof.
  induction pat as [|e rest IH]; cbn [flat_map]; [reflexivity|].
  rewrite List.filter_app, IH, filter_kick_one; reflexivity.
Qed.

Lemma map_shape_one (b : bool) (g g' : trigger) :
  shape_of g = shape_of g' -> map shape_of (one b g) = map shape_of (one b g').
Proof. intros H. destruct b; cbn; [now rewrite H|reflexivity]. Qed.

Lemma map_shape_bass (f : BassEvent -> bool) (t : Q) (c : option Chord) (a a' : Q)
      (pat : list BassEvent) :
  map shape_of (flat_map (fun e => one (f e) (TriggerBass t c e a)) pat)
  = map shape_of (flat_map (fun e => one (f e) (TriggerBass t c e a')) pat).
Proof.
  induction pat as [|e rest IH]; cbn [flat_map]; [reflexivity|].
  rewrite !map_app, IH. f_equal. now apply map_shape_one.
Qed.

End BeatFacts.

(** X8: in every section, at every energy and level, [handleSixteenth]
    triggers the kick exactly on the sixteenths with [sixteenth % 4 = 0]
    (slots 0, 4, 8 and 12 of the bar), once, at the callback's time and at
    the section's kick weight times [0.85 + 0.3 * energy]; and when it
    does, the kick is the first trigger of the callback. *)
Theorem X8_kick_on_every_beat
  (state : Techno.Lookup) (chord : option Techno.Chord) (l : TechnoBeat.live)
  (r : TechnoBeat.draws) (time : Q) (sixteenth : Z) :
  List.filter TechnoBeat.is_kick
    (TechnoBeat.handleSixteenth state chord l r time sixteenth)
  = (if js_rem sixteenth 4 =? 0
     then [TechnoBeat.TriggerKick time
             (Techno.kick (Techno.intensity (Techno.section state))
              * (0.85 + TechnoBeat.energyRef l * 0.3))%Q]
     else []) /\
  (0 <= sixteenth < 16 ->
   (js_rem sixteenth 4 =? 0) = true ->
   In sixteenth [0; 4; 8; 12] /\
   head (TechnoBeat.handleSixteenth state chord l r time sixteenth)
   = Some (TechnoBeat.TriggerKick time
             (Techno.kick (Techno.intensity (Techno.section state))
              * (0.85 + TechnoBeat.energyRef l * 0.3))%Q)).
Proof.
  split.
  - unfold TechnoBeat.handleSixteenth. cbn zeta.
    set (first := TechnoBeat.one (js_rem sixteenth 4 =? 0) (TechnoBeat.TriggerKick _ _)).
    rewrite !List.filter_app.
    rewrite filter_kick_bass.
    rewrite !filter_kick_one by reflexivity.
    subst first.
    destruct (js_index _ sixteenth) as [[e|]|]; cbn [List.filter TechnoBeat.is_kick app];
      rewrite ?app_nil_r; destruct (js_rem sixteenth 4 =? 0); reflexivity.
  - intros Hs Hk. split.
    + apply Z.eqb_eq in Hk. rewrite js_rem_nonneg in Hk by lia.
      cbn. Z.div_mod_to_equations. lia.
    + unfold TechnoBeat.handleSixteenth. cbn zeta. rewrite Hk. reflexivity.
Qed.

(** Slot 8 of a bar in the first drop. *)
Lemma X8_kick_on_every_beat_witness :
  head (TechnoBeat.handleSixteenth
          (Techno.mkLookup Techno.dropOne 2 3 false) (Some Techno.fm9)
          (TechnoBeat.mkLive 0.5 1 1 1 120) (TechnoBeat.mkDraws 0.9 0.9 0.9) 7 8)
  = Some (TechnoBeat.TriggerKick 7 (1.05 * (0.85 + 0.5 * 0.3))%Q).
Proof.
  destruct (X8_kick_on_every_beat
              (Techno.mkLookup Techno.dropOne 2 3 false) (Some Techno.fm9)
              (TechnoBeat.mkLive 0.5 1 1 1 120) (TechnoBeat.mkDraws 0.9 0.9 0.9) 7 8)
    as (_ & Hhead).
  destruct Hhead as (_ & Hh); [lia|reflexivity|exact Hh].
Defined.

(** X9: the bass, lead and effect levels and the tempo only scale what
    [handleSixteenth] triggers: two calls that agree on the section state,
    the chord, the energy, the random draws, the time and the sixteenth make
    the same trigger calls in the same order, with the same times, chords
    and pattern events, whatever the levels and tempos are. *)
Theorem X9_levels_never_change_the_pattern
  (state : Techno.Lookup) (chord : option Techno.Chord) (l l' : TechnoBeat.live)
  (r : TechnoBeat.draws) (time : Q) (sixteenth : Z) :
  TechnoBeat.energyRef l = TechnoBeat.energyRef l' ->
  map TechnoBeat.shape_of (TechnoBeat.handleSixteenth state chord l r time sixteenth)
  = map TechnoBeat.shape_of (TechnoBeat.handleSixteenth state chord l' r time sixteenth).
Proof.
  intros He. unfold TechnoBeat.handleSixteenth. cbn zeta. rewrite He.
  rewrite !map_app.
  repeat match goal with
         | |- _ ++ _ = _ ++ _ => apply (f_equal2 (@app TechnoBeat.shape))
         end;
    try reflexivity;
    try (apply map_shape_one; reflexivity);
    try apply map_shape_bass.
  destruct (js_index _ sixteenth) as [[e|]|]; reflexivity.
Qed.

(** The bass muted and the tempo doubled, on slot 0 of the anthem section. *)
Lemma X9_levels_never_change_the_pattern_witness :
  map TechnoBeat.shape_of
    (TechnoBeat.handleSixteenth (Techno.mkLookup Techno.finalDrop 5 4 false)
       (Some Techno.c7) (TechnoBeat.mkLive 0.5 1 1 1 120)
       (TechnoBeat.mkDraws 0.9 0.9 0.9) 7 0)
  = map TechnoBeat.shape_of
      (TechnoBeat.handleSixteenth (Techno.mkLookup Techno.finalDrop 5 4 false)
         (Some Techno.c7) (TechnoBeat.mkLive 0.5 0 0.3 2 60)
         (TechnoBeat.mkDraws 0.9 0.9 0.9) 7 0).
Proof.
  apply (X9_levels_never_change_the_pattern
           (Techno.mkLookup Techno.finalDrop 5 4 false) (Some Techno.c7)
           (TechnoBeat.mkLive 0.5 1 1 1 120) (TechnoBeat.mkLive 0.5 0 0.3 2 60)).
  reflexivity.
Defined.

(** X10: in a section whose hat pattern is light and whose lead pattern is
    not the anthem, [handleSixteenth] never consults [Math.random]: its
    trigger calls are the same whatever the three draws would be. *)
Theorem X10_light_sections_are_deterministic
  (state : Techno.Lookup) (chord : option Techno.Chord) (l : TechnoBeat.live)
  (r r' : TechnoBeat.draws) (time : Q) (sixteenth : Z) :
  Techno.hatPattern (Techno.section state) = "light"%string ->
  Techno.leadPattern (Techno.section state) <> "anthem"%string ->
  TechnoBeat.handleSixteenth state chord l r time sixteenth
  = TechnoBeat.handleSixteenth state chord l r' time sixteenth.
Proof.
  intros Hlight Hlead. unfold TechnoBeat.handleSixteenth. cbn zeta.
  rewrite Hlight.
  destruct (String.eqb_spec (Techno.leadPattern (Techno.section state)) "anthem")
    as [Ha|_]; [contradiction|].
  reflexivity.
Qed.

(** Opposite draws in the intro. *)
Lemma X10_light_sections_are_deterministic_witness :
  TechnoBeat.handleSixteenth (Techno.mkLookup Techno.distantIntro 0 3 false)
    (Some Techno.fm9) (TechnoBeat.mkLive 0.5 1 1 1 120)
    (TechnoBeat.mkDraws 0 0 0) 7 15
  = TechnoBeat.handleSixteenth (Techno.mkLookup Techno.distantIntro 0 3 false)
      (Some Techno.fm9) (TechnoBeat.mkLive 0.5 1 1 1 120)
      (TechnoBeat.mkDraws 0.99 0.99 0.99) 7 15.
Proof.
  apply (X10_light_sections_are_deterministic
           (Techno.mkLookup Techno.distantIntro 0 3 false)).
  - reflexivity.
  - discriminate.
Defined.

(** ** The Piano director, continued *)

Section PianoFacts.
Import Piano PianoScore.

Lemma piano_getSectionForBar_total (bar : Z) :
  exists found, getSectionForBar ARRANGEMENT bar = Some found.
Proof.
  unfold getSectionForBar.
  destruct (scan_sections ARRANGEMENT 0 0 bar) as [found|]; eauto.
Qed.

Lemma rem_period (b k T : Z) :
  0 <= b -> 0 <= k -> 0 < T -> js_rem (b + k * T) T = js_rem b T.
Proof.
  intros Hb Hk HT. rewrite !js_rem_nonneg by nia. apply Z_mod_plus_full.
Qed.

Lemma resolveDegree_num_total (chord : Chord) (n : Z) :
  exists note, resolveDegree chord (Num n) = Some note.
Proof.
  destruct (piano chord) as [|x rest] eqn:Hp.
  - exists "C4"%string. unfold resolveDegree. rewrite Hp. reflexivity.
  - destruct (resolveDegree_wraps chord n) as (note & Hn & _); [congruence|eauto].
Qed.

Lemma resolveDegree_num_period (chord : Chord) (n k : Z) :
  resolveDegree chord (Num (n + k * js_length (piano chord)))
  = resolveDegree chord (Num n).
Proof.
  unfold resolveDegree.
  destruct (Z.eqb_spec (js_length (piano chord)) 0) as [H0|Hne]; [reflexivity|].
  assert (HL : 0 < js_length (piano chord)) by (unfold js_length in *; lia).
  rewrite !normalized_degree by exact HL.
  now rewrite Z_mod_plus_full.
Qed.

(** The notes [playPiano] asks for. *)
Lemma forEach_play (inst : string -> Q -> Q -> Q -> bool) (mk : string -> Z -> request)
      (notes : list string) (i : Z) (p : player) :
  TechnoBeat.forEach (fun note idx => Eff.tryCatch (play inst (mk note idx))) notes i p
  = Eff.Ok tt
      {| pianoInstrument := pianoInstrument p; playingRef := playingRef p;
         bpmRef := bpmRef p; dynamicsRef := dynamicsRef p;
         requests := requests p
                     ++ imap (fun k note => mk note (i + Z.of_nat k)) notes |}.
Proof.
  revert i p. induction notes as [|x rest IH]; intros i p;
    cbn [TechnoBeat.forEach imap].
  - unfold Eff.ret. rewrite app_nil_r. destruct p; reflexivity.
  - unfold Eff.bind at 1. unfold Eff.tryCatch at 1, play at 1.
    destruct (inst _ _ _ _); rewrite IH; cbn [pianoInstrument playingRef bpmRef
      dynamicsRef requests]; rewrite <- app_assoc, Z.add_0_r;
      do 3 f_equal; cbn [app]; f_equal; apply imap_ext; intros k y _;
      unfold compose; f_equal; lia.
Qed.

Lemma map_imap_list {A B C : Type} (f : B -> C) (g : nat -> A -> B) (l : list A) :
  map f (imap g l) = imap (fun i x => f (g i x)) l.
Proof.
  revert g. induction l as [|x rest IH]; intros g; cbn [imap map]; [reflexivity|].
  f_equal. apply IH.
Qed.

Lemma imap_imap_list {A B C : Type} (f : nat -> B -> C) (g : nat -> A -> B)
      (l : list A) :
  imap f (imap g l) = imap (fun i x => f i (g i x)) l.
Proof.
  revert f g. induction l as [|x rest IH]; intros f g; cbn [imap]; [reflexivity|].
  f_equal. apply IH.
Qed.

Lemma bar_callbacks_terminal (cbs : list (Q * Q * Z)) (d : director) :
  repeatRef d = false -> fadeScheduledRef d = true ->
  Forall (fun c => TOTAL_BARS <= snd c) cbs ->
  bar_callbacks cbs d = d.
Proof.
  intros Hr Hf Hall. induction Hall as [|[[now t] b] rest Hb _ IH]; [reflexivity|].
  cbn [bar_callbacks]. cbn [snd] in Hb. unfold handleBar.
  rewrite Hr, Hf. cbn [negb andb].
  destruct (Z.leb_spec TOTAL_BARS b) as [_|Hlt]; [|lia].
  cbn [Eff.final]. exact IH.
Qed.

End PianoFacts.

(** X11: in [resolveDegree] a numeric degree always resolves to a note: on
    an empty piano array to C4, otherwise to an array element; the answer
    only depends on the degree modulo the array length, negative degrees
    included.  A role name other than bass, fifth and octave resolves to
    the first piano note, and so does bass when the chord has no bass
    entry. *)
Theorem X11_numeric_degrees_always_resolve
  (chord : Piano.Chord) (n k : Z) (r : string) :
  (exists note, Piano.resolveDegree chord (Piano.Num n) = Some note) /\
  Piano.resolveDegree chord (Piano.Num (n + k * js_length (Piano.piano chord)))
  = Piano.resolveDegree chord (Piano.Num n) /\
  (Piano.piano chord = [] ->
   Piano.resolveDegree chord (Piano.Num n) = Some "C4"%string) /\
  (~ In r ["bass"; "fifth"; "octave"]%string ->
   Piano.resolveDegree chord (Piano.Role r) = js_index (Piano.piano chord) 0) /\
  (Piano.bass chord = None ->
   Piano.resolveDegree chord (Piano.Role "bass") = js_index (Piano.piano chord) 0).
Proof.
  split; [apply resolveDegree_num_total|].
  split; [apply resolveDegree_num_period|].
  split; [intros Hp; unfold Piano.resolveDegree; now rewrite Hp|].
  split.
  - intros Hr. unfold Piano.resolveDegree.
    repeat match goal with
           | |- context [String.eqb r ?k] =>
               destruct (String.eqb_spec r k) as [->|_];
               [exfalso; apply Hr; cbn; tauto|]
           end.
    reflexivity.
  - intros Hb. unfold Piano.resolveDegree. cbn [String.eqb Ascii.eqb Bool.eqb].
    rewrite Hb. reflexivity.
Qed.

(** Degree -7 on the six piano notes of dm9 is degree 5. *)
Lemma X11_numeric_degrees_always_resolve_witness :
  Piano.resolveDegree PianoScore.dm9 (Piano.Num (-7)) = Some "A5"%string /\
  Piano.resolveDegree PianoScore.dm9 (Piano.Role "pedal") = Some "D4"%string.
Proof.
  destruct (X11_numeric_degrees_always_resolve PianoScore.dm9 5 (-2) "pedal")
    as (_ & Hper & _ & Hrole & _).
  split; [exact Hper|]. apply Hrole. cbn. intros H.
  repeat (destruct H as [H|H]; [discriminate H|]). exact H.
Defined.

(** X12: in repeat mode the Piano bar callback at bar [b + k * TOTAL_BARS]
    does exactly what it does at bar [b]: it never throws, never schedules
    a fade and stores the chord [CHORD_SEQUENCE[(b mod TOTAL_BARS) mod 8]],
    so the chord cycle restarts with the arrangement: bar 106 gets the
    chord of bar 0, not the third chord of the sequence that [106 mod 8]
    names. *)
Theorem X12_repeat_mode_is_periodic
  (d : PianoScore.director) (now t : Q) (b k : Z) :
  PianoScore.repeatRef d = true -> 0 <= b -> 0 <= k ->
  PianoScore.handleBar now t (b + k * PianoScore.TOTAL_BARS) d
  = PianoScore.handleBar now t b d /\
  (exists d',
      PianoScore.handleBar now t b d = Eff.Ok tt d' /\
      PianoScore.fadeScheduledRef d' = PianoScore.fadeScheduledRef d /\
      List.filter PianoScore.is_fade (PianoScore.emitted d')
      = List.filter PianoScore.is_fade (PianoScore.emitted d) /\
      PianoScore.chordRef d'
      = PianoScore.CHORD_SEQUENCE
          !! Z.to_nat ((b mod PianoScore.TOTAL_BARS)
                       mod js_length PianoScore.CHORD_SEQUENCE)) /\
  PianoScore.TOTAL_BARS = 106 /\
  PianoScore.chordRef (Eff.final (PianoScore.handleBar now t 106 d))
  = Some PianoScore.dm9 /\
  PianoScore.CHORD_SEQUENCE !! Z.to_nat (106 mod 8) = Some PianoScore.fMaj9.
Proof.
  intros Hr Hb Hk.
  split.
  { unfold PianoScore.handleBar. rewrite Hr. cbn [negb andb].
    rewrite rem_period by (try assumption; reflexivity). reflexivity. }
  split.
  { unfold PianoScore.handleBar. rewrite Hr. cbn [negb andb].
    destruct (piano_getSectionForBar_total (js_rem b PianoScore.TOTAL_BARS))
      as (lk & ->).
    eexists. split; [reflexivity|]. cbn [PianoScore.fadeScheduledRef
      PianoScore.emitted PianoScore.chordRef].
    split; [reflexivity|]. split.
    - rewrite !List.filter_app. destruct (PianoScore.pedalChord _); cbn;
        now rewrite app_nil_r.
    - change PianoScore.TOTAL_BARS with 106.
      change (js_length PianoScore.CHORD_SEQUENCE) with 8.
      pose proof (Z.mod_pos_bound b 106 ltac:(lia)) as Hm.
      rewrite (js_rem_nonneg b 106) by lia.
      rewrite js_rem_nonneg by lia.
      pose proof (Z.mod_pos_bound (b mod 106) 8 ltac:(lia)) as Hm8.
      unfold js_index. destruct (Z.ltb_spec ((b mod 106) mod 8) 0); [lia|reflexivity]. }
  split; [reflexivity|].
  split; [|reflexivity].
  unfold PianoScore.handleBar. rewrite Hr. reflexivity.
Qed.

(** Bar 3 of the second time round. *)
Lemma X12_repeat_mode_is_periodic_witness :
  PianoScore.handleBar 5 5.1 (3 + 1 * PianoScore.TOTAL_BARS) (PianoScore.stage true)
  = PianoScore.handleBar 5 5.1 3 (PianoScore.stage true).
Proof.
  destruct (X12_repeat_mode_is_periodic (PianoScore.stage true) 5 5.1 3 1)
    as (Hper & _).
  - reflexivity.
  - lia.
  - lia.
  - exact Hper.
Defined.

(** X13: outside repeat mode, a Piano bar callback at or past [TOTAL_BARS]
    returns before the section lookup: it leaves the arrangement state and
    the chord as they were and schedules no strings, winds, texture or
    pedal chord.  The first such callback schedules the fade (gain ramp to
    0.0001 two seconds on, stop after 8000 ms); the callbacks after it,
    however many, change nothing at all. *)
Theorem X13_piano_goes_silent_past_the_end
  (d : PianoScore.director) (now t : Q) (b : Z) (post : list (Q * Q * Z)) :
  PianoScore.repeatRef d = false ->
  PianoScore.fadeScheduledRef d = false ->
  PianoScore.TOTAL_BARS <= b ->
  Forall (fun c => PianoScore.TOTAL_BARS <= snd c) post ->
  exists d',
    PianoScore.handleBar now t b d = Eff.Ok tt d' /\
    PianoScore.arrangementStateRef d' = PianoScore.arrangementStateRef d /\
    PianoScore.chordRef d' = PianoScore.chordRef d /\
    PianoScore.fadeScheduledRef d' = true /\
    PianoScore.emitted d'
    = PianoScore.emitted d ++
      [PianoScore.CancelScheduledValues now;
       PianoScore.SetTargetAtTime 0.0001 (t + 2) 2.5;
       PianoScore.SetTimeoutStop 8000] /\
    PianoScore.bar_callbacks ((now, t, b) :: post) d = d'.
Proof.
  intros Hr Hf Hb Hpost.
  unfold PianoScore.handleBar.
  assert (Hend : (PianoScore.TOTAL_BARS <=? b) = true) by (apply Z.leb_le; exact Hb).
  eexists. split.
  { rewrite Hr, Hf, Hend. cbn [negb andb]. reflexivity. }
  cbn [PianoScore.with_emitted PianoScore.arrangementStateRef PianoScore.chordRef
         PianoScore.fadeScheduledRef PianoScore.emitted].
  repeat (split; [reflexivity|]).
  cbn [PianoScore.bar_callbacks]. unfold PianoScore.handleBar.
  rewrite Hr, Hf, Hend. cbn [negb andb Eff.final].
  apply bar_callbacks_terminal; [exact Hr|reflexivity|exact Hpost].
Qed.

(** Bars 106, 107 and 108 of a run that does not repeat. *)
Lemma X13_piano_goes_silent_past_the_end_witness :
  length (PianoScore.emitted
            (PianoScore.bar_callbacks
               [(9%Q, 9.1%Q, 106); (11%Q, 11.1%Q, 107); (13%Q, 13.1%Q, 108)]
               (PianoScore.stage false)))
  = 3%nat.
Proof.
  destruct (X13_piano_goes_silent_past_the_end
              (PianoScore.stage false) 9 9.1 106
              [(11%Q, 11.1%Q, 107); (13%Q, 13.1%Q, 108)])
    as (d' & _ & _ & _ & _ & Hem & Hrun).
  - reflexivity.
  - reflexivity.
  - discriminate.
  - repeat constructor; discriminate.
  - rewrite Hrun, Hem. reflexivity.
Defined.

(** X14: with the piano loaded and playback on, [playPiano] makes one
    request per degree of the event, in order, and never throws, whatever
    the instrument does with the requests; every requested note is a
    well-formed note name inside the MIDI range, even when the chord lacks
    the notes asked for; the first note is played at the base gain and the
    others at three quarters of it.  With the instrument missing or playback
    off it returns without a request. *)
Theorem X14_play_piano_requests_well_formed_notes
  (p : PianoScore.player) (inst : string -> Q -> Q -> Q -> bool) (time baseGain : Q)
  (chord : Piano.Chord) (any : option Piano.Chord) (event : PianoScore.PianoEvent) :
  (PianoScore.pianoInstrument p = Some inst -> PianoScore.playingRef p = true ->
   exists p',
     PianoScore.playPiano time (Some chord) event baseGain p = Eff.Ok tt p' /\
     map PianoScore.req_note (PianoScore.requests p')
     = map PianoScore.req_note (PianoScore.requests p)
       ++ imap (fun idx deg => PianoScore.event_note chord event deg (Z.of_nat idx))
               (PianoScore.event_degrees event) /\
     map PianoScore.req_gain (PianoScore.requests p')
     = map PianoScore.req_gain (PianoScore.requests p)
       ++ imap (fun idx _ =>
                  (baseGain * default 0.5%Q (PianoScore.vel event)
                   * (0.6 + PianoScore.dynamicsRef p * 0.7)
                   * (if Z.of_nat idx =? 0 then 1 else 0.75))%Q)
               (PianoScore.event_degrees event)) /\
  (forall (deg : Piano.Degree) (idx : Z),
      Notes.matches_note (PianoScore.event_note chord event deg idx) /\
      0 <= Notes.noteToMidi (PianoScore.event_note chord event deg idx) <= 127) /\
  (PianoScore.pianoInstrument p = None \/ PianoScore.playingRef p = false ->
   PianoScore.playPiano time any event baseGain p = Eff.Ok tt p).
Proof.
  split; [|split].
  - intros Hi Hp. unfold PianoScore.playPiano. rewrite Hi, Hp. cbn [negb].
    rewrite forEach_play. eexists. split; [reflexivity|].
    cbn [PianoScore.requests]. rewrite !map_app.
    split; f_equal; rewrite !map_imap_list; cbn [PianoScore.req_note
      PianoScore.req_gain]; rewrite imap_imap_list; apply imap_ext; intros i x _;
      cbn; rewrite ?Z.add_0_l; reflexivity.
  - intros deg idx. unfold PianoScore.event_note, Piano.transpose_value.
    split; [apply midiToNote_matches|].
    unfold Notes.transpose. rewrite noteToMidi_midiToNote_clamp.
    unfold Notes.clamp_midi. lia.
  - intros [Hi|Hp]; unfold PianoScore.playPiano.
    + now rewrite Hi.
    + rewrite Hp. now destruct (PianoScore.pianoInstrument p).
Qed.

(** One bass note an octave down, against a piano that rejects it. *)
Lemma X14_play_piano_requests_well_formed_notes_witness :
  exists p',
    PianoScore.playPiano 3 (Some PianoScore.dm9)
      (PianoScore.mkEvent (Some [Piano.Role "bass"]) None (PianoScore.Single (-1))
         PianoScore.Absent (Some 8%Q) (Some 0.72%Q))
      1 (PianoScore.mkPlayer (Some (fun _ _ _ _ => true)) true 74 0.65 [])
    = Eff.Ok tt p' /\
    map PianoScore.req_note (PianoScore.requests p') = ["D1"%string].
Proof.
  destruct (X14_play_piano_requests_well_formed_notes
              (PianoScore.mkPlayer (Some (fun _ _ _ _ => true)) true 74 0.65 [])
              (fun _ _ _ _ => true) 3 1 PianoScore.dm9 None
              (PianoScore.mkEvent (Some [Piano.Role "bass"]) None
                 (PianoScore.Single (-1)) PianoScore.Absent (Some 8%Q) (Some 0.72%Q)))
    as (Hplay & _).
  destruct Hplay as (p' & Hp' & Hnotes & _); [reflexivity|reflexivity|].
  exists p'. split; [exact Hp'|]. rewrite Hnotes. reflexivity.
Defined.

(** ** Runs of bar callbacks in [App.jsx] *)

Section AppRunFacts.
Import App AppRun.

Lemma pool_chord (prog : Progression) (b : Z) :
  In prog MINOR_POOLS -> 0 <= b ->
  exists chord, js_index prog (js_rem b (js_length prog)) = Some chord.
Proof.
  intros Hin Hb. rewrite (pool_progressions prog Hin).
  rewrite js_rem_nonneg by lia.
  apply js_index_Some. rewrite (pool_progressions prog Hin).
  apply Z.mod_pos_bound. lia.
Qed.

Lemma pools_distinct (i j : Z) :
  0 <= i < js_length MINOR_POOLS -> 0 <= j < js_length MINOR_POOLS ->
  js_index MINOR_POOLS i = js_index MINOR_POOLS j -> i = j.
Proof.
  change (js_length MINOR_POOLS) with 3. intros Hi Hj.
  assert (Hci : i = 0 \/ i = 1 \/ i = 2) by lia.
  assert (Hcj : j = 0 \/ j = 1 \/ j = 2) by lia.
  destruct Hci as [->|[->| ->]]; destruct Hcj as [->|[->| ->]];
    vm_compute; intros H; try reflexivity; discriminate H.
Qed.

(** One bar callback from coherent refs. *)
Lemma onBar_coherent (rnd t : Q) (b : Z) (r : refs) :
  (0 <= rnd)%Q -> (rnd < 1)%Q -> 0 <= b -> coherent r ->
  exists r',
    onBar rnd t b r = Eff.Ok tt r' /\ coherent r' /\
    length (emitted r') = (length (emitted r) + 2)%nat /\
    barsSinceChangeRef r' = barsSinceChangeRef r + 1 /\
    (change_bar r = true ->
     progIdxRef r' <> progIdxRef r /\ progressionRef r' <> progressionRef r) /\
    (change_bar r = false ->
     progIdxRef r' = progIdxRef r /\ progressionRef r' = progressionRef r).
Proof.
  intros H0 H1 Hb [Hidx Hprog].
  pose proof (random_index_range rnd (js_length MINOR_POOLS) H0 H1 ltac:(reflexivity))
    as Hdrawn.
  destruct (choose_index_spec (js_length MINOR_POOLS) (progIdxRef r) _
              ltac:(reflexivity) Hdrawn) as (Hrange & Hne & _).
  unfold onBar, change_bar.
  destruct (js_rem (barsSinceChangeRef r + 1) CHANGE_EVERY_BARS =? 0).
  - destruct (pool_lookup _ Hrange) as (prog & Hp & Hin).
    rewrite Hp. destruct (pool_chord prog b Hin Hb) as (chord & ->).
    eexists. split; [reflexivity|].
    cbn [progIdxRef progressionRef emitted barsSinceChangeRef].
    split; [split; [exact Hrange|exact (eq_sym Hp)]|].
    split; [rewrite length_app; reflexivity|].
    split; [reflexivity|].
    split; [|discriminate].
    intros _. split; [exact Hne|].
    rewrite Hprog, <- Hp. intros Heq. apply Hne.
    now apply pools_distinct.
  - destruct (pool_lookup _ Hidx) as (prog & Hp & Hin).
    rewrite Hprog, Hp. destruct (pool_chord prog b Hin Hb) as (chord & ->).
    eexists. split; [reflexivity|].
    cbn [progIdxRef progressionRef emitted barsSinceChangeRef].
    split; [split; [exact Hidx|exact (eq_sym Hp)]|].
    split; [rewrite length_app; reflexivity|].
    split; [reflexivity|].
    split; [discriminate|]. intros _. split; reflexivity.
Qed.

Lemma bar_callbacks_coherent (cbs : list (Q * Q * Z)) (r : refs) :
  coherent r -> Forall deliverable cbs ->
  all_return cbs r = true /\ coherent (bar_callbacks cbs r) /\
  length (emitted (bar_callbacks cbs r))
  = (length (emitted r) + 2 * length cbs)%nat /\
  barsSinceChangeRef (bar_callbacks cbs r)
  = barsSinceChangeRef r + Z.of_nat (length cbs).
Proof.
  intros Hc Hall. revert r Hc.
  induction Hall as [|[[rnd t] b] rest (H0 & H1 & Hb) _ IH]; intros r Hc.
  - cbn. repeat split; try assumption; try apply Hc; lia.
  - cbn [bar_callbacks all_return]. cbn in H0, H1, Hb.
    destruct (onBar_coherent rnd t b r H0 H1 Hb Hc)
      as (r' & -> & Hc' & Hlen & Hsince & _).
    cbn [Eff.final Eff.threw negb andb].
    destruct (IH r' Hc') as (Hret & Hcoh & Hl & Hs).
    split; [exact Hret|]. split; [exact Hcoh|].
    split; [rewrite Hl, Hlen; cbn [length]; lia|].
    rewrite Hs, Hsince. cbn [length]. lia.
Qed.

End AppRunFacts.

(** X15: starting from refs that hold the pool entry named by their index
    (as at the start of playback), every run of bar callbacks with bar
    indexes from 0 up and draws in [0, 1) goes through without a single
    callback throwing, keeps the refs in that condition, triggers exactly
    one pad chord and one bass note per bar and counts the bars; and in each
    callback the progression in force changes if and only if the bar count
    reaches a multiple of [CHANGE_EVERY_BARS], and then to a different pool
    entry. *)
Theorem X15_app_bars_never_throw_and_progressions_really_change
  (r : App.refs) (cbs : list (Q * Q * Z)) (rnd t : Q) (b : Z) :
  AppRun.coherent r ->
  Forall AppRun.deliverable cbs ->
  AppRun.deliverable (rnd, t, b) ->
  (AppRun.all_return cbs r = true /\
   AppRun.coherent (AppRun.bar_callbacks cbs r) /\
   length (App.emitted (AppRun.bar_callbacks cbs r))
   = (length (App.emitted r) + 2 * length cbs)%nat /\
   App.barsSinceChangeRef (AppRun.bar_callbacks cbs r)
   = App.barsSinceChangeRef r + Z.of_nat (length cbs)) /\
  (App.change_bar r = true ->
   App.progressionRef (Eff.final (App.onBar rnd t b r)) <> App.progressionRef r) /\
  (App.change_bar r = false ->
   App.progressionRef (Eff.final (App.onBar rnd t b r)) = App.progressionRef r) /\
  AppRun.coherent App.initial.
Proof.
  intros Hc Hall (H0 & H1 & Hb). cbn in H0, H1, Hb.
  split; [now apply bar_callbacks_coherent|].
  destruct (onBar_coherent rnd t b r H0 H1 Hb Hc)
    as (r' & -> & _ & _ & _ & Hch & Hsame).
  cbn [Eff.final].
  split; [intros H; now apply Hch|].
  split; [intros H; now apply Hsame|].
  split; [split; [discriminate|reflexivity]|reflexivity].
Qed.

(** The first two bars of playback. *)
Lemma X15_app_bars_never_throw_and_progressions_really_change_witness :
  AppRun.all_return [(0.3%Q, 1%Q, 0); (0.7%Q, 3.5%Q, 1)] App.initial = true /\
  length (App.emitted
            (AppRun.bar_callbacks [(0.3%Q, 1%Q, 0); (0.7%Q, 3.5%Q, 1)] App.initial))
  = 4%nat.
Proof.
  destruct (X15_app_bars_never_throw_and_progressions_really_change
              App.initial [(0.3%Q, 1%Q, 0); (0.7%Q, 3.5%Q, 1)] 0.5 6 2)
    as ((Hret & _ & Hlen & _) & _).
  - split; [split; [discriminate|reflexivity]|reflexivity].
  - repeat constructor; cbn; discriminate.
  - repeat split; cbn; discriminate.
  - split; [exact Hret|exact Hlen].
Defined.

(** X16: [onSixteenth] of [App.jsx] triggers the kick on sixteenths 0 and 8
    and nowhere else, the snare on 4 and 12 and nowhere else, and the hat
    exactly on the even sixteenths; so kick and snare never fall together,
    each of them comes with a hat, and every trigger carries the callback's
    time.  A bar of sixteen slots has two kicks, two snares and eight
    hats. *)
Theorem X16_app_drum_pattern (time : Q) (sixteenth : Z) (t0 dur : Q) :
  (In (AppRun.Kick time) (AppRun.onSixteenth time sixteenth)
   <-> sixteenth = 0 \/ sixteenth = 8) /\
  (In (AppRun.Snare time) (AppRun.onSixteenth time sixteenth)
   <-> sixteenth = 4 \/ sixteenth = 12) /\
  (In (AppRun.Hat time) (AppRun.onSixteenth time sixteenth)
   <-> Z.rem sixteenth 2 = 0) /\
  ~ (In (AppRun.Kick time) (AppRun.onSixteenth time sixteenth) /\
     In (AppRun.Snare time) (AppRun.onSixteenth time sixteenth)) /\
  (In (AppRun.Kick time) (AppRun.onSixteenth time sixteenth) \/
   In (AppRun.Snare time) (AppRun.onSixteenth time sixteenth) ->
   In (AppRun.Hat time) (AppRun.onSixteenth time sixteenth)) /\
  (forall d, In d (AppRun.onSixteenth time sixteenth) ->
             d = AppRun.Kick time \/ d = AppRun.Snare time \/ d = AppRun.Hat time) /\
  length (List.filter AppRun.is_kick (AppRun.drum_bar t0 dur)) = 2%nat /\
  length (List.filter AppRun.is_snare (AppRun.drum_bar t0 dur)) = 2%nat /\
  length (List.filter AppRun.is_hat (AppRun.drum_bar t0 dur)) = 8%nat.
Proof.
  assert (Hk : In (AppRun.Kick time) (AppRun.onSixteenth time sixteenth)
               <-> sixteenth = 0 \/ sixteenth = 8).
  { unfold AppRun.onSixteenth, js_rem.
    destruct (Z.eqb_spec sixteenth 0); destruct (Z.eqb_spec sixteenth 8);
      destruct (Z.eqb_spec sixteenth 4); destruct (Z.eqb_spec sixteenth 12);
      destruct (Z.eqb_spec (Z.rem sixteenth 2) 0); cbn; intuition (try lia; try discriminate). }
  assert (Hs : In (AppRun.Snare time) (AppRun.onSixteenth time sixteenth)
               <-> sixteenth = 4 \/ sixteenth = 12).
  { unfold AppRun.onSixteenth, js_rem.
    destruct (Z.eqb_spec sixteenth 0); destruct (Z.eqb_spec sixteenth 8);
      destruct (Z.eqb_spec sixteenth 4); destruct (Z.eqb_spec sixteenth 12);
      destruct (Z.eqb_spec (Z.rem sixteenth 2) 0); cbn; intuition (try lia; try discriminate). }
  assert (Hh : In (AppRun.Hat time) (AppRun.onSixteenth time sixteenth)
               <-> Z.rem sixteenth 2 = 0).
  { unfold AppRun.onSixteenth, js_rem.
    destruct (Z.eqb_spec sixteenth 0); destruct (Z.eqb_spec sixteenth 8);
      destruct (Z.eqb_spec sixteenth 4); destruct (Z.eqb_spec sixteenth 12);
      destruct (Z.eqb_spec (Z.rem sixteenth 2) 0); cbn; intuition (try lia; try discriminate). }
  split; [exact Hk|]. split; [exact Hs|]. split; [exact Hh|].
  split; [rewrite Hk, Hs; lia|].
  split.
  { rewrite Hk, Hs, Hh. intros [[->| ->]|[->| ->]]; reflexivity. }
  split.
  { intros d. unfold AppRun.onSixteenth.
    destruct (_ || _); destruct (_ || _); destruct (_ =? 0); cbn; intuition auto. }
  repeat split; reflexivity.
Qed.

(** A kick slot, a snare slot and an odd slot. *)
Lemma X16_app_drum_pattern_witness :
  In (AppRun.Hat 2) (AppRun.onSixteenth 2 8) /\
  ~ In (AppRun.Hat 2) (AppRun.onSixteenth 2 7).
Proof.
  destruct (X16_app_drum_pattern 2 8 0 0.125) as (Hk & _ & _ & _ & Hwith & _).
  destruct (X16_app_drum_pattern 2 7 0 0.125) as (_ & _ & Hh & _).
  split.
  - apply Hwith. left. apply Hk. right. reflexivity.
  - intros H. apply Hh in H. discriminate H.
Defined.

(** ** Peak normalisation *)

Section PeakFacts.
Import Normalization.

Lemma gt_spec (a b : Q) : gt a b = true <-> (b < a)%Q.
Proof.
  unfold gt. rewrite negb_true_iff. split.
  - intros H. apply Qnot_le_lt. intros Hle. apply Qle_bool_iff in Hle. congruence.
  - intros H. destruct (Qle_bool a b) eqn:Hb; [|reflexivity].
    apply Qle_bool_iff in Hb. lra.
Qed.

(** What a loop that keeps a running peak guarantees, for any way of
    stepping through containers of samples. *)
Section Fold.
Context {A : Type} (step : Q -> A -> Q) (elems : A -> list Q).
Hypothesis step_spec : forall (peak : Q) (c : A),
    (peak <= step peak c)%Q /\
    Forall (fun x => (Qabs x <= step peak c)%Q) (elems c) /\
    (step peak c = peak \/ exists x, In x (elems c) /\ step peak c = Qabs x).

Lemma fold_peak (l : list A) (peak : Q) :
  (peak <= fold_left step l peak)%Q /\
  Forall (fun x => (Qabs x <= fold_left step l peak)%Q) (concat (map elems l)) /\
  (fold_left step l peak = peak \/
   exists x, In x (concat (map elems l)) /\ fold_left step l peak = Qabs x).
Proof.
  revert peak. induction l as [|c rest IH]; intros peak; cbn [fold_left map concat].
  - split; [lra|]. split; [constructor|]. now left.
  - destruct (step_spec peak c) as (Hle & Hall & Hatt).
    destruct (IH (step peak c)) as (Hle' & Hall' & Hatt').
    split; [lra|]. split.
    + apply Forall_app. split; [|exact Hall'].
      eapply Forall_impl; [exact Hall|]. cbn. intros x Hx. lra.
    + destruct Hatt' as [->|(x & Hx & ->)].
      * destruct Hatt as [->|(x & Hx & ->)]; [now left|].
        right. exists x. split; [|reflexivity]. apply in_or_app. now left.
      * right. exists x. split; [|reflexivity]. apply in_or_app. now right.
Qed.
End Fold.

Lemma scan_sample_spec (peak x : Q) :
  let r := if gt (Qabs x) peak then Qabs x else peak in
  (peak <= r)%Q /\ Forall (fun y => (Qabs y <= r)%Q) [x] /\
  (r = peak \/ exists y, In y [x] /\ r = Qabs y).
Proof.
  cbn zeta. destruct (gt (Qabs x) peak) eqn:Hg.
  - apply gt_spec in Hg. split; [lra|]. split; [repeat constructor; lra|].
    right. exists x. split; [now left|reflexivity].
  - assert (Hle : (Qabs x <= peak)%Q).
    { apply Qnot_lt_le. intros Hlt. apply gt_spec in Hlt. congruence. }
    split; [lra|]. split; [repeat constructor; exact Hle|]. now left.
Qed.

Lemma concat_singletons (l : list Q) : concat (map (fun x => [x]) l) = l.
Proof. induction l as [|x rest IH]; cbn; [reflexivity|now rewrite IH]. Qed.

Lemma scan_channel_spec (peak : Q) (data : list Q) :
  (peak <= scan_channel peak data)%Q /\
  Forall (fun x => (Qabs x <= scan_channel peak data)%Q) data /\
  (scan_channel peak data = peak \/
   exists x, In x data /\ scan_channel peak data = Qabs x).
Proof.
  pose proof (fold_peak (fun p x => if gt (Qabs x) p then Qabs x else p)
                (fun x => [x]) scan_sample_spec data peak) as H.
  rewrite concat_singletons in H. exact H.
Qed.

Lemma scan_buffer_spec (peak : Q) (buf : option Buffer) :
  (peak <= scan_buffer peak buf)%Q /\
  Forall (fun x => (Qabs x <= scan_buffer peak buf)%Q) (buffer_samples buf) /\
  (scan_buffer peak buf = peak \/
   exists x, In x (buffer_samples buf) /\ scan_buffer peak buf = Qabs x).
Proof.
  destruct buf as [channels|]; cbn [scan_buffer buffer_samples].
  - pose proof (fold_peak scan_channel (fun data => data) scan_channel_spec
                  channels peak) as H.
    rewrite map_id in H. exact H.
  - split; [lra|]. split; [constructor|]. now left.
Qed.

Lemma global_peak_spec (entries : list (option Buffer)) :
  (0 <= global_peak entries)%Q /\
  Forall (fun x => (Qabs x <= global_peak entries)%Q) (samples (Some entries)) /\
  (global_peak entries = 0%Q \/
   exists x, In x (samples (Some entries)) /\ global_peak entries = Qabs x).
Proof.
  exact (fold_peak scan_buffer buffer_samples scan_buffer_spec entries 0%Q).
Qed.

End PeakFacts.

(** X17: the gain [computePeakNormalizationGain] answers is positive and
    scales every sample of the instrument into [-1, 1]; when some sample is
    not zero the loudest one is scaled to exactly 1 in absolute value; an
    instrument without buffers, without samples or with silence only gets
    the gain 1. *)
Theorem X17_peak_gain_scales_the_loudest_sample_to_one
  (instrument : Normalization.Instrument) :
  (0 < Normalization.computePeakNormalizationGain instrument)%Q /\
  Forall (fun x =>
            (Qabs x * Normalization.computePeakNormalizationGain instrument <= 1)%Q)
         (Normalization.samples instrument) /\
  ((exists x, In x (Normalization.samples instrument) /\ ~ (x == 0)%Q) ->
   exists x, In x (Normalization.samples instrument) /\
             (Qabs x * Normalization.computePeakNormalizationGain instrument == 1)%Q) /\
  (Forall (fun x => (x == 0)%Q) (Normalization.samples instrument) ->
   Normalization.computePeakNormalizationGain instrument = 1%Q).
Proof.
  destruct instrument as [entries|]; cbn [Normalization.computePeakNormalizationGain].
  2:{ cbn. split; [reflexivity|]. split; [constructor|].
      split; [intros (x & [] & _)|reflexivity]. }
  destruct (global_peak_spec entries) as (H0 & Hall & Hatt).
  set (p := Normalization.global_peak entries) in *.
  destruct (Normalization.gt p 0) eqn:Hg.
  - apply gt_spec in Hg.
    assert (Hinv : (0 < / p)%Q) by now apply Qinv_lt_0_compat.
    assert (Hone : (p * / p == 1)%Q) by (apply Qmult_inv_r; lra).
    unfold Qdiv. set (ip := (/ p)%Q) in *.
    split; [lra|]. split; [|split].
    + eapply Forall_impl; [exact Hall|]. cbn. intros x Hx.
      assert (Hm : (Qabs x * ip <= p * ip)%Q)
        by (apply Qmult_le_compat_r; [exact Hx|lra]).
      lra.
    + intros _. destruct Hatt as [Hz|(x & Hx & Hpx)]; [rewrite Hz in Hg; lra|].
      exists x. split; [exact Hx|]. rewrite <- Hpx. lra.
    + intros Hzero. exfalso.
      destruct Hatt as [Hz|(x & Hx & Hpx)]; [rewrite Hz in Hg; lra|].
      rewrite Forall_forall in Hzero.
      assert (Hax : (Qabs x == 0)%Q).
      { rewrite (Hzero x (proj2 (list_elem_of_In _ _) Hx)). reflexivity. }
      rewrite Hpx in Hg. lra.
  - assert (Hp : (p <= 0)%Q).
    { apply Qnot_lt_le. intros Hlt. apply gt_spec in Hlt. congruence. }
    split; [reflexivity|]. split; [|split].
    + eapply Forall_impl; [exact Hall|]. cbn. intros x Hx. lra.
    + intros (x & Hx & Hnz). exfalso. apply Hnz.
      rewrite Forall_forall in Hall. specialize (Hall x (proj2 (list_elem_of_In _ _) Hx)).
      cbn in Hall. apply Qabs_Qle_condition in Hall. lra.
    + reflexivity.
Qed.

(** A stereo buffer peaking at -0.5, beside a null entry. *)
Lemma X17_peak_gain_scales_the_loudest_sample_to_one_witness :
  exists x,
    In x [0.25; -0.5; 0.1; 0.3]%Q /\
    (Qabs x * Normalization.computePeakNormalizationGain
                (Some [None; Some [[0.25; -0.5]; [0.1; 0.3]]]%Q) == 1)%Q.
Proof.
  destruct (X17_peak_gain_scales_the_loudest_sample_to_one
              (Some [None; Some [[0.25; -0.5]; [0.1; 0.3]]]%Q))
    as (_ & _ & Hloud & _).
  apply Hloud. exists 0.25%Q. split; [now left|discriminate].
Defined.

(** X18: with a non-empty cache key, [getNormalizationGain] answers the
    stored gain when the cache holds one, whatever instrument is passed, and
    otherwise computes the gain and stores it under the key; either way a
    second call with the same key, for any instrument, answers the same gain
    and leaves the cache as it is, and the entries of other keys are never
    touched.  Without a key, or with the empty key, the gain is computed
    afresh and the cache is left alone; after [clearNormalizationCache] the
    gain is computed again. *)
Theorem X18_normalization_cache_is_keyed_by_name_only
  (instrument other : Normalization.Instrument) (k k' : string)
  (cache : Normalization.Cache) (stored : Q) :
  k <> ""%string ->
  let first := Normalization.getNormalizationGain instrument (Some k) cache in
  (cache !! k = Some stored -> first = (stored, cache)) /\
  (cache !! k = None ->
   first = (Normalization.computePeakNormalizationGain instrument,
            <[k := Normalization.computePeakNormalizationGain instrument]> cache)) /\
  snd first !! k = Some (fst first) /\
  Normalization.getNormalizationGain other (Some k) (snd first) = first /\
  (k' <> k -> snd first !! k' = cache !! k') /\
  Normalization.getNormalizationGain instrument None cache
  = (Normalization.computePeakNormalizationGain instrument, cache) /\
  Normalization.getNormalizationGain instrument (Some ""%string) cache
  = (Normalization.computePeakNormalizationGain instrument, cache) /\
  fst (Normalization.getNormalizationGain other (Some k)
         (Normalization.clearNormalizationCache (snd first)))
  = Normalization.computePeakNormalizationGain other.
Proof.
  intros Hk. cbn zeta.
  assert (Hgiven : Normalization.given (Some k) = Some k).
  { destruct k; [congruence|reflexivity]. }
  unfold Normalization.getNormalizationGain. rewrite Hgiven.
  cbn [Normalization.given].
  unfold Normalization.clearNormalizationCache, Normalization.Cache in *.
  rewrite lookup_empty.
  destruct (cache !! k) as [g|] eqn:Hc; cbn [fst snd].
  - rewrite Hc.
    repeat split; try reflexivity; try congruence.
  - rewrite lookup_insert_eq.
    repeat split; try reflexivity; try congruence.
    intros Hne. apply lookup_insert_ne. congruence.
Qed.

(** The oboe's gain answered for a different instrument under the same
    key. *)
Lemma X18_normalization_cache_is_keyed_by_name_only_witness :
  fst (Normalization.getNormalizationGain (Some [Some [[0.5%Q]]]) (Some "sf:oboe"%string)
         (snd (Normalization.getNormalizationGain (Some [Some [[0.25%Q]]])
                 (Some "sf:oboe"%string) ∅)))
  = fst (Normalization.getNormalizationGain (Some [Some [[0.25%Q]]])
           (Some "sf:oboe"%string) ∅).
Proof.
  destruct (X18_normalization_cache_is_keyed_by_name_only
              (Some [Some [[0.25%Q]]]) (Some [Some [[0.5%Q]]])
              "sf:oboe" "sf:piano" ∅ 1)
    as (_ & _ & _ & Hagain & _).
  - discriminate.
  - cbn zeta in Hagain. now rewrite Hagain.
Defined.

(** ** The loop-point analysis tool *)

Section WavFacts.

Lemma crossing_step_inv x idx lo m st :
  lo <= m -> Wav.crossing_inv x idx lo m st ->
  Wav.crossing_inv x idx lo (m + 1) (Wav.crossing_step x idx st m).
Proof.
  intros Hlo Hinv. unfold Wav.crossing_step.
  destruct st as [best [d|]]; unfold Wav.crossing_inv in *; cbn [fst snd] in *.
  - destruct Hinv as (Hb & Hr & Hd & Hall).
    destruct (Wav.rising_at x m) eqn:Hm.
    + destruct (Z.ltb_spec (Z.abs (m - idx)) d) as [Hlt|Hge]; cbn [fst snd].
      * repeat split; try lia; try assumption.
        intros i Hi Hri. destruct (Z.eq_dec i m) as [->|Hne]; [right; lia|].
        destruct (Hall i ltac:(lia) Hri) as [H|[H _]]; left; lia.
      * repeat split; try lia; try assumption.
        intros i Hi Hri. destruct (Z.eq_dec i m) as [->|Hne].
        -- destruct (Z.eq_dec d (Z.abs (m - idx))); [right|left]; lia.
        -- apply Hall; [lia|assumption].
    + cbn [fst snd]. repeat split; try lia; try assumption.
      intros i Hi Hri. destruct (Z.eq_dec i m) as [->|Hne]; [congruence|].
      apply Hall; [lia|assumption].
  - destruct Hinv as (Hb & Hall).
    destruct (Wav.rising_at x m) eqn:Hm; cbn [fst snd].
    + repeat split; try lia; try assumption.
      intros i Hi Hri. destruct (Z.eq_dec i m) as [->|Hne]; [right; lia|].
      rewrite Hall in Hri by lia. discriminate Hri.
    + split; [assumption|]. intros i Hi.
      destruct (Z.eq_dec i m) as [->|Hne]; [assumption|]. apply Hall. lia.
Qed.

Lemma crossing_fold_inv x idx lo (k : nat) : forall m st,
  lo <= m -> Wav.crossing_inv x idx lo m st ->
  Wav.crossing_inv x idx lo (m + Z.of_nat k)
               (fold_left (Wav.crossing_step x idx) (seqZ m (Z.of_nat k)) st).
Proof.
  induction k as [|k IH]; intros m st Hlo Hinv.
  - cbn. now rewrite Z.add_0_r.
  - rewrite seqZ_cons by lia. cbn [fold_left].
    replace (Z.pred (Z.of_nat (S k))) with (Z.of_nat k) by lia.
    replace (m + Z.of_nat (S k)) with (Z.succ m + Z.of_nat k) by lia.
    apply IH; [lia|]. apply crossing_step_inv; assumption.
Qed.

Lemma crossing_search_inv x idx window :
  let start := Z.max 1 (idx - window) in
  let end_ := Z.min (js_length x - 1) (idx + window) in
  Wav.crossing_inv x idx start (Z.max start end_)
    (fold_left (Wav.crossing_step x idx) (seqZ start (end_ - start)) (idx, None)).
Proof.
  intros start end_.
  assert (Hinit : Wav.crossing_inv x idx start start (idx, None)).
  { unfold Wav.crossing_inv; cbn [fst snd]. split; [reflexivity|]. intros i Hi. lia. }
  destruct (Z.le_gt_cases (end_ - start) 0) as [Hle|Hgt].
  - replace (seqZ start (end_ - start)) with (@nil Z).
    + cbn [fold_left]. replace (Z.max start end_) with start by lia. exact Hinit.
    + unfold seqZ. destruct (end_ - start); try lia; reflexivity.
  - pose proof (crossing_fold_inv x idx start (Z.to_nat (end_ - start)) start _
                  (Z.le_refl _) Hinit) as H.
    rewrite Z2Nat.id in H by lia.
    replace (start + (end_ - start)) with (Z.max start end_) in H by lia.
    exact H.
Qed.

End WavFacts.

(** X19.  [findNearestZeroCrossing] returns [idx] itself when no visited
    index is a rising zero crossing; otherwise it returns a visited rising
    crossing that is at least as near to [idx] as every other one, the
    smaller index winning a tie. *)
Theorem X19_nearest_rising_zero_crossing (x : list Q) (idx window : Z) :
  let r := Wav.findNearestZeroCrossing x idx window in
  ((forall i, Wav.visited x idx window i -> Wav.rising_at x i = false) -> r = idx) /\
  (forall i, Wav.visited x idx window i -> Wav.rising_at x i = true ->
     Wav.visited x idx window r /\ Wav.rising_at x r = true /\
     Z.abs (r - idx) <= Z.abs (i - idx) /\
     (Z.abs (r - idx) = Z.abs (i - idx) -> r <= i)).
Proof.
  intros r. subst r. unfold Wav.findNearestZeroCrossing, Wav.visited.
  pose proof (crossing_search_inv x idx window) as Hinv. cbv zeta in Hinv.
  set (start := Z.max 1 (idx - window)) in *.
  set (end_ := Z.min (js_length x - 1) (idx + window)) in *.
  destruct (fold_left _ _ _) as [best [d|]]; unfold Wav.crossing_inv in Hinv;
    cbn [fst snd] in *.
  - destruct Hinv as (Hb & Hr & Hd & Hall). split.
    + intros Hnone. rewrite Hnone in Hr by lia. discriminate Hr.
    + intros i Hi Hri. destruct (Hall i ltac:(lia) Hri) as [H|[H Hle]].
      * repeat split; try lia; try assumption.
      * repeat split; try lia; try assumption.
  - destruct Hinv as (Hb & Hall). split; [intros _; exact Hb|].
    intros i Hi Hri. rewrite Hall in Hri by lia. discriminate Hri.
Qed.

Lemma X19_nearest_rising_zero_crossing_witness :
  let x := [(-1)%Q; 1%Q; (-1)%Q; 1%Q; (-1)%Q; 1%Q; 0%Q] in
  let r := Wav.findNearestZeroCrossing x 2 4 in
  Wav.visited x 2 4 3 /\ Wav.rising_at x 3 = true /\
  Wav.visited x 2 4 r /\ Wav.rising_at x r = true /\
  Z.abs (r - 2) <= Z.abs (3 - 2) /\ (Z.abs (r - 2) = Z.abs (3 - 2) -> r <= 3).
Proof.
  intros x r.
  assert (Hv : Wav.visited x 2 4 3) by (vm_compute; split; [discriminate|reflexivity]).
  assert (Hr : Wav.rising_at x 3 = true) by reflexivity.
  split; [exact Hv|]. split; [exact Hr|].
  exact (proj2 (X19_nearest_rising_zero_crossing x 2 4) 3 Hv Hr).
Defined.

Section CodecFacts.

Lemma gt_true a b : Wav.gt a b = true <-> (b < a)%Q.
Proof.
  unfold Wav.gt. rewrite negb_true_iff, <- not_true_iff_false, Qle_bool_iff.
  split; [apply Qnot_le_lt|apply Qlt_not_le].
Qed.

Lemma lt_true a b : Wav.lt a b = true <-> (a < b)%Q.
Proof. unfold Wav.lt. apply (gt_true b a). Qed.

Lemma clamped_spec v :
  (-1 <= Wav.clamped v <= 1)%Q /\
  ((-1 <= v <= 1)%Q -> Wav.clamped v = v) /\
  ((1 <= v)%Q -> Wav.clamped v == 1) /\
  ((v <= -1)%Q -> Wav.clamped v == -1).
Proof.
  unfold Wav.clamped.
  destruct (Wav.gt v 1) eqn:Hg.
  - apply gt_true in Hg.
    destruct (Wav.lt 1 (-1)) eqn:Hl; [apply lt_true in Hl; lra|].
    repeat split; try lra.
  - apply not_true_iff_false in Hg. rewrite gt_true in Hg.
    destruct (Wav.lt v (-1)) eqn:Hl.
    + apply lt_true in Hl. repeat split; try lra.
    + apply not_true_iff_false in Hl. rewrite lt_true in Hl.
      repeat split; try lra.
Qed.

Lemma clamped_mono v w : (v <= w)%Q -> (Wav.clamped v <= Wav.clamped w)%Q.
Proof.
  intros Hvw. unfold Wav.clamped.
  destruct (Wav.gt v 1) eqn:Hv; destruct (Wav.gt w 1) eqn:Hw;
    try apply gt_true in Hv; try apply gt_true in Hw;
    try (apply not_true_iff_false in Hv; rewrite gt_true in Hv);
    try (apply not_true_iff_false in Hw; rewrite gt_true in Hw);
    repeat match goal with
      | |- context [Wav.lt ?a ?b] =>
          let H := fresh "Hl" in
          destruct (Wav.lt a b) eqn:H;
          [apply lt_true in H
          |apply not_true_iff_false in H; rewrite lt_true in H]
      end; lra.
Qed.

Lemma round_bounds c :
  (-1 <= c <= 1)%Q -> -32767 <= Wav.round (c * 32767) <= 32767.
Proof.
  intros Hc. unfold Wav.round. split.
  - change (-32767) with (Qfloor (-32767 + (1 # 2))).
    apply Qfloor_resp_le. lra.
  - change 32767 with (Qfloor (32767 + (1 # 2))) at 2.
    apply Qfloor_resp_le. lra.
Qed.

Lemma quantize16_round s :
  Wav.quantize16 s =
  Wav.round (Wav.clamped match s with Wav.Finite v => v | Wav.NotFinite => 0%Q end * 32767).
Proof.
  unfold Wav.quantize16. fold (Wav.clamped match s with Wav.Finite v => v | Wav.NotFinite => 0%Q end).
  pose proof (clamped_spec match s with Wav.Finite v => v | Wav.NotFinite => 0%Q end)
    as [Hc _].
  pose proof (round_bounds _ Hc). lia.
Qed.

End CodecFacts.

(** X20.  The 16-bit quantiser of [writeWav16] never produces -32768, is
    monotone, saturates outside [-1, 1], writes 0 for a sample that is not
    finite, and a sample in [-1, 1] that is written and read back by the
    16-bit decoder of [parseWav] moves by at most 3/65536. *)
Theorem X20_sixteen_bit_codec_error (v w : Q) (s : Wav.sample) :
  -32767 <= Wav.quantize16 s <= 32767 /\
  Wav.quantize16 Wav.NotFinite = 0 /\
  ((v <= w)%Q -> Wav.quantize16 (Wav.Finite v) <= Wav.quantize16 (Wav.Finite w)) /\
  ((1 <= v)%Q -> Wav.quantize16 (Wav.Finite v) = 32767) /\
  ((v <= -1)%Q -> Wav.quantize16 (Wav.Finite v) = -32767) /\
  ((-1 <= v <= 1)%Q ->
   (Qabs (Wav.decode16 (Wav.quantize16 (Wav.Finite v)) - v) <= 3 # 65536)%Q).
Proof.
  split; [|split; [|split; [|split; [|split]]]].
  - rewrite quantize16_round. apply round_bounds. apply clamped_spec.
  - reflexivity.
  - intros Hvw. rewrite !quantize16_round. unfold Wav.round.
    apply Qfloor_resp_le. pose proof (clamped_mono v w Hvw). lra.
  - intros Hv. rewrite quantize16_round.
    destruct (clamped_spec v) as (_ & _ & H1 & _). specialize (H1 Hv).
    unfold Wav.round.
    assert (Hq : (Wav.clamped v * 32767 + (1 # 2) == 32767 + (1 # 2))%Q) by (rewrite H1; reflexivity).
    apply Z.le_antisymm.
    + change 32767 with (Qfloor (32767 + (1 # 2))) at 2. apply Qfloor_resp_le. lra.
    + change 32767 with (Qfloor (32767 + (1 # 2))) at 1. apply Qfloor_resp_le. lra.
  - intros Hv. rewrite quantize16_round.
    destruct (clamped_spec v) as (_ & _ & _ & H1). specialize (H1 Hv).
    unfold Wav.round.
    assert (Hq : (Wav.clamped v * 32767 + (1 # 2) == -32767 + (1 # 2))%Q) by (rewrite H1; reflexivity).
    apply Z.le_antisymm.
    + change (-32767) with (Qfloor (-32767 + (1 # 2))). apply Qfloor_resp_le. lra.
    + change (-32767) with (Qfloor (-32767 + (1 # 2))). apply Qfloor_resp_le. lra.
  - intros Hv. rewrite quantize16_round.
    destruct (clamped_spec v) as (_ & Hid & _). rewrite (Hid Hv).
    unfold Wav.decode16, Wav.round.
    pose proof (Qfloor_le (v * 32767 + (1 # 2))) as Hlo.
    pose proof (Qlt_floor (v * 32767 + (1 # 2))) as Hhi.
    rewrite inject_Z_plus in Hhi.
    set (q := inject_Z (Qfloor (v * 32767 + (1 # 2)))) in *.
    change (inject_Z 1) with 1%Q in Hhi.
    apply Qabs_Qle_condition.
    unfold Qdiv. change (/ 32768)%Q with (1 # 32768)%Q. lra.
Qed.

Lemma X20_sixteen_bit_codec_error_witness :
  ((1 # 3) <= (1 # 2))%Q /\ (1 <= 5 # 4)%Q /\ (-2 <= -1)%Q /\ (-1 <= 1 # 3 <= 1)%Q /\
  Wav.quantize16 (Wav.Finite (1 # 3)) <= Wav.quantize16 (Wav.Finite (1 # 2)) /\
  Wav.quantize16 (Wav.Finite (5 # 4)) = 32767 /\
  Wav.quantize16 (Wav.Finite (-2)) = -32767 /\
  (Qabs (Wav.decode16 (Wav.quantize16 (Wav.Finite (1 # 3))) - (1 # 3)) <= 3 # 65536)%Q.
Proof.
  assert (H1 : ((1 # 3) <= (1 # 2))%Q) by (vm_compute; discriminate).
  assert (H2 : (1 <= 5 # 4)%Q) by (vm_compute; discriminate).
  assert (H3 : (-2 <= -1)%Q) by (vm_compute; discriminate).
  assert (H4 : (-1 <= 1 # 3 <= 1)%Q) by (split; vm_compute; discriminate).
  do 4 (split; [assumption|]).
  split; [exact (proj1 (proj2 (proj2 (X20_sixteen_bit_codec_error (1 # 3) (1 # 2) Wav.NotFinite))) H1)|].
  split; [exact (proj1 (proj2 (proj2 (proj2 (X20_sixteen_bit_codec_error (5 # 4) 0 Wav.NotFinite)))) H2)|].
  split; [exact (proj1 (proj2 (proj2 (proj2 (proj2 (X20_sixteen_bit_codec_error (-2) 0 Wav.NotFinite))))) H3)|].
  exact (proj2 (proj2 (proj2 (proj2 (proj2 (X20_sixteen_bit_codec_error (1 # 3) 0 Wav.NotFinite))))) H4).
Defined.

Section BitFacts.

Lemma land_low_shiftl a b n :
  0 <= n -> 0 <= a < 2 ^ n -> Z.land a (Z.shiftl b n) = 0.
Proof.
  intros Hn Ha. apply Z.bits_inj'. intros i Hi.
  rewrite Z.land_spec, Z.bits_0.
  destruct (Z.lt_ge_cases i n) as [Hlt|Hge].
  - rewrite (Z.shiftl_spec_low b n i Hlt). apply andb_false_r.
  - replace (Z.testbit a i) with false; [reflexivity|].
    symmetry. destruct (Z.eq_dec a 0) as [->|Hnz]; [apply Z.bits_0|].
    apply Z.bits_above_log2; [lia|].
    apply Z.log2_lt_pow2; [lia|].
    apply Z.lt_le_trans with (2 ^ n); [lia|].
    apply Z.pow_le_mono_r; lia.
Qed.

Lemma lor_low_shiftl a b n :
  0 <= n -> 0 <= a < 2 ^ n -> Z.lor a (Z.shiftl b n) = a + b * 2 ^ n.
Proof.
  intros Hn Ha. pose proof (land_low_shiftl a b n Hn Ha) as Hdis.
  rewrite <- (Z.lxor_lor _ _ Hdis), <- (Z.add_nocarry_lxor _ _ Hdis).
  now rewrite Z.shiftl_mul_pow2.
Qed.

Lemma land_sign_bit u :
  0 <= u < 16777216 -> (Z.land u 8388608 =? 0) = (u <? 8388608).
Proof.
  intros Hu.
  assert (Hbit : Z.land u 8388608 = if Z.testbit u 23 then 8388608 else 0).
  { apply Z.bits_inj'. intros i Hi. rewrite Z.land_spec.
    change 8388608 with (2 ^ 23). rewrite Z.pow2_bits_eqb by lia.
    destruct (Z.eqb_spec 23 i) as [<-|Hne].
    - rewrite andb_true_r. destruct (Z.testbit u 23).
      + now rewrite Z.pow2_bits_true.
      + now rewrite Z.bits_0.
    - rewrite andb_false_r. destruct (Z.testbit u 23).
      + now rewrite Z.pow2_bits_false.
      + now rewrite Z.bits_0. }
  rewrite Hbit, Z.testbit_eqb by lia.
  change (2 ^ 23) with 8388608.
  assert (Hq : u / 8388608 = 0 \/ u / 8388608 = 1).
  { assert (0 <= u / 8388608 < 2); [|lia].
    split; [apply Z.div_pos; lia|apply Z.div_lt_upper_bound; lia]. }
  destruct (Z.ltb_spec u 8388608) as [Hlt|Hge].
  - rewrite Z.div_small by lia. reflexivity.
  - destruct Hq as [Hq|Hq].
    + apply Z.div_small_iff in Hq; lia.
    + rewrite Hq. reflexivity.
Qed.

End BitFacts.

(** X21.  On three bytes the 24-bit decoder of [parseWav] is the two's
    complement reading of the little-endian number: the bit operations are
    additions, the sign extension subtracts 2^24 exactly when the top bit is
    set, the sample lies in [-1, 1), and the bytes can be read back from
    the decoded integer. *)
Theorem X21_pcm24_is_twos_complement (b0 b1 b2 : Z) :
  Wav.is_byte b0 -> Wav.is_byte b1 -> Wav.is_byte b2 ->
  let u := b0 + 256 * b1 + 65536 * b2 in
  Wav.pcm24 b0 b1 b2 = (if b2 <? 128 then u else u - 16777216) /\
  -8388608 <= Wav.pcm24 b0 b1 b2 < 8388608 /\
  (-1 <= Wav.decode24 b0 b1 b2 < 1)%Q /\
  Wav.pcm24 b0 b1 b2 mod 16777216 = u.
Proof.
  intros H0 H1 H2 u. unfold Wav.is_byte in H0, H1, H2.
  assert (Hval : Wav.pcm24 b0 b1 b2 = if b2 <? 128 then u else u - 16777216).
  { unfold Wav.pcm24.
    rewrite (lor_low_shiftl b0 b1 8) by (cbn; lia).
    rewrite (lor_low_shiftl (b0 + b1 * 2 ^ 8) b2 16) by (cbn; lia).
    change (2 ^ 8) with 256. change (2 ^ 16) with 65536.
    replace (b0 + b1 * 256 + b2 * 65536) with u by (unfold u; lia).
    rewrite land_sign_bit by (unfold u; lia).
    replace (u <? 8388608) with (b2 <? 128)
      by (unfold u; destruct (Z.ltb_spec b2 128), (Z.ltb_spec (b0 + 256 * b1 + 65536 * b2) 8388608); lia).
    destruct (b2 <? 128); [reflexivity|].
    change (Z.lnot 16777215) with (Z.shiftl (-1) 24).
    rewrite lor_low_shiftl by (cbn; unfold u; lia). reflexivity. }
  assert (Hrange : -8388608 <= Wav.pcm24 b0 b1 b2 < 8388608).
  { rewrite Hval. unfold u. destruct (Z.ltb_spec b2 128); lia. }
  split; [exact Hval|]. split; [exact Hrange|]. split.
  - unfold Wav.decode24, Qdiv. change (/ 8388608)%Q with (1 # 8388608)%Q.
    destruct Hrange as [Hlo Hhi].
    assert (Hlo' : (inject_Z (-8388608) <= inject_Z (Wav.pcm24 b0 b1 b2))%Q)
      by (rewrite <- Zle_Qle; exact Hlo).
    assert (Hhi' : (inject_Z (Wav.pcm24 b0 b1 b2) < inject_Z 8388608)%Q)
      by (rewrite <- Zlt_Qlt; exact Hhi).
    set (q := inject_Z (Wav.pcm24 b0 b1 b2)) in *.
    change (inject_Z (-8388608)) with (-8388608)%Q in Hlo'.
    change (inject_Z 8388608) with 8388608%Q in Hhi'.
    lra.
  - rewrite Hval. destruct (Z.ltb_spec b2 128).
    + apply Z.mod_small. unfold u. lia.
    + replace (u - 16777216) with (u + (-1) * 16777216) by lia.
      rewrite Z_mod_plus_full. apply Z.mod_small. unfold u. lia.
Qed.

Lemma X21_pcm24_is_twos_complement_witness :
  Wav.is_byte 255 /\ Wav.is_byte 255 /\ Wav.is_byte 128 /\
  Wav.pcm24 255 255 128 = 255 + 256 * 255 + 65536 * 128 - 16777216.
Proof.
  assert (H255 : Wav.is_byte 255) by (unfold Wav.is_byte; lia).
  assert (H128 : Wav.is_byte 128) by (unfold Wav.is_byte; lia).
  do 3 (split; [assumption|]).
  exact (proj1 (X21_pcm24_is_twos_complement 255 255 128 H255 H255 H128)).
Defined.

Section DecimateFacts.

Lemma js_index_elem {A : Type} (arr : list A) (i : Z) (a : A) :
  js_index arr i = Some a -> a ∈ arr.
Proof.
  unfold js_index. destruct (i <? 0); [discriminate|].
  apply list_elem_of_lookup_2.
Qed.

Lemma block_fold_bounds (x : list Q) (lo hi : Q) (start : Z) (k : nat) :
  (forall v, v ∈ x -> (lo <= v <= hi)%Q) ->
  forall (m : Z) (acc : Q),
    0 <= start + m -> start + m + Z.of_nat k <= js_length x ->
    exists s,
      fold_left (fun sum j =>
                   match sum, js_index x (start + j) with
                   | Some s, Some v => Some (s + v)%Q
                   | _, _ => None
                   end)
                (seqZ m (Z.of_nat k)) (Some acc) = Some s /\
      (acc + inject_Z (Z.of_nat k) * lo <= s <= acc + inject_Z (Z.of_nat k) * hi)%Q.
Proof.
  intros Hx. induction k as [|k IH]; intros m acc Hlo Hhi.
  - exists acc. split; [reflexivity|]. change (inject_Z (Z.of_nat 0)) with 0%Q. lra.
  - rewrite seqZ_cons by lia. cbn [fold_left].
    destruct (js_index_Some x (start + m) ltac:(lia)) as [v Hv]. rewrite Hv.
    replace (Z.pred (Z.of_nat (S k))) with (Z.of_nat k) by lia.
    destruct (IH (Z.succ m) (acc + v)%Q ltac:(lia) ltac:(lia)) as (s & Hs & Hb).
    exists s. split; [exact Hs|].
    pose proof (Hx v (js_index_elem _ _ _ Hv)) as Hvb.
    rewrite Nat2Z.inj_succ. unfold Z.succ. rewrite inject_Z_plus.
    change (inject_Z 1) with 1%Q.
    set (q := inject_Z (Z.of_nat k)) in *. lra.
Qed.

Lemma block_sum_bounds (x : list Q) (lo hi : Q) (start factor : Z) :
  (forall v, v ∈ x -> (lo <= v <= hi)%Q) ->
  0 <= start -> 0 <= factor -> start + factor <= js_length x ->
  exists s, Wav.block_sum x start factor = Some s /\
            (inject_Z factor * lo <= s <= inject_Z factor * hi)%Q.
Proof.
  intros Hx Hs Hf Hlen. unfold Wav.block_sum.
  destruct (block_fold_bounds x lo hi start (Z.to_nat factor) Hx 0 0%Q
              ltac:(lia) ltac:(lia)) as (s & Hfold & Hb).
  rewrite Z2Nat.id in Hfold, Hb by lia.
  exists s. split; [exact Hfold|]. lra.
Qed.

End DecimateFacts.

(** X22.  [decimate] returns its input when [factor <= 1].  For a larger
    integer factor it returns [floor(length / factor)] block means, never
    reads outside the input (no entry is a NaN), and every mean lies between
    any two bounds that hold for all input samples. *)
Theorem X22_decimate_block_means (x : list Q) (factor : Z) (lo hi : Q) :
  (factor <= 1 -> Wav.decimate x factor = map Some x) /\
  (1 < factor ->
   (forall v, v ∈ x -> (lo <= v <= hi)%Q) ->
   js_length (Wav.decimate x factor) = js_length x / factor /\
   Forall (fun y => exists m, y = Some m /\ (lo <= m <= hi)%Q)
          (Wav.decimate x factor)).
Proof.
  unfold Wav.decimate. split.
  - intros Hf. destruct (Z.leb_spec factor 1); [reflexivity|lia].
  - intros Hf Hx. destruct (Z.leb_spec factor 1) as [|_]; [lia|].
    assert (Hn : 0 <= js_length x / factor)
      by (apply Z.div_pos; [unfold js_length|]; lia).
    split.
    + unfold js_length at 1. rewrite length_map, length_seqZ. lia.
    + apply Forall_map, Forall_forall. intros i Hi.
      apply elem_of_seqZ in Hi.
      pose proof (Z.mul_div_le (js_length x) factor ltac:(lia)) as Hdiv.
      destruct (block_sum_bounds x lo hi (i * factor) factor Hx)
        as (s & Hs & Hb); [nia|lia|nia|].
      rewrite Hs. eexists; split; [reflexivity|].
      assert (Hfq : (0 < inject_Z factor)%Q)
        by (change 0%Q with (inject_Z 0); rewrite <- Zlt_Qlt; lia).
      split.
      * apply Qle_shift_div_l; [exact Hfq|]. lra.
      * apply Qle_shift_div_r; [exact Hfq|]. lra.
Qed.

Lemma X22_decimate_block_means_witness :
  let x := [1%Q; 3%Q; (-2)%Q; 4%Q; 0%Q] in
  1 < 2 /\ (forall v, v ∈ x -> (-2 <= v <= 4)%Q) /\
  js_length (Wav.decimate x 2) = js_length x / 2 /\
  Forall (fun y => exists m, y = Some m /\ (-2 <= m <= 4)%Q) (Wav.decimate x 2).
Proof.
  intros x.
  assert (H1 : 1 < 2) by lia.
  assert (Hx : forall v, v ∈ x -> (-2 <= v <= 4)%Q).
  { intros v Hv. unfold x in Hv.
    repeat (apply elem_of_cons in Hv as [->|Hv]; [split; vm_compute; discriminate|]).
    now apply elem_of_nil in Hv. }
  split; [exact H1|]. split; [exact Hx|].
  exact (proj2 (X22_decimate_block_means x 2 (-2) 4) H1 Hx).
Defined.

(** ** The earlier [App] component *)

Section AppCycleFacts.
Import AppCycle.

Lemma chord_at_defined b : 0 <= b -> exists c, chord_at b = Some c /\ js_length c = 4.
Proof.
  intros Hb. unfold chord_at.
  assert (Hi : (b / 16) mod 3 = 0 \/ (b / 16) mod 3 = 1 \/ (b / 16) mod 3 = 2)
    by (pose proof (Z.mod_pos_bound (b / 16) 3); lia).
  assert (Hj : b mod 4 = 0 \/ b mod 4 = 1 \/ b mod 4 = 2 \/ b mod 4 = 3)
    by (pose proof (Z.mod_pos_bound b 4); lia).
  destruct Hi as [-> | [-> | ->]]; destruct Hj as [-> | [-> | [-> | ->]]];
    eexists; (split; [reflexivity|reflexivity]).
Qed.

Lemma onBar_cycle t b r :
  cycle_inv b r ->
  exists r', onBar t b r = Eff.Ok tt r' /\ cycle_inv (b + 1) r' /\
             drumsGainRef r' = drumsGainRef r /\ bassGainRef r' = bassGainRef r /\
             chordsGainRef r' = chordsGainRef r /\ bpmRef r' = bpmRef r /\
             sfChord r' = sfChord r /\ barCountRef r' = b + 1 /\
             emitted r' = emitted r ++ bar_actions r t (chord_at b).
Proof.
  intros (Hb & Hsince & Hidx & Hprog).
  assert (Hi : (b / 16) mod 3 = 0 \/ (b / 16) mod 3 = 1 \/ (b / 16) mod 3 = 2)
    by (pose proof (Z.mod_pos_bound (b / 16) 3); lia).
  assert (Hj : b mod 4 = 0 \/ b mod 4 = 1 \/ b mod 4 = 2 \/ b mod 4 = 3)
    by (pose proof (Z.mod_pos_bound b 4); lia).
  assert (Hnext : (if js_rem (b + 1) CHANGE_EVERY_BARS =? 0
                   then js_rem ((b / 16) mod 3 + 1) (js_length CHORD_PROGRESSIONS)
                   else (b / 16) mod 3) = ((b + 1) / 16) mod 3).
  { unfold CHANGE_EVERY_BARS.
    rewrite (js_rem_nonneg (b + 1) 16) by lia.
    change (js_length CHORD_PROGRESSIONS) with 3.
    rewrite (js_rem_nonneg ((b / 16) mod 3 + 1) 3) by lia.
    destruct (Z.eqb_spec ((b + 1) mod 16) 0) as [Hz|Hnz].
    - assert (Hq : (b + 1) / 16 = b / 16 + 1) by (Z.div_mod_to_equations; lia).
      rewrite Hq. Z.div_mod_to_equations; lia.
    - assert (Hq : (b + 1) / 16 = b / 16) by (Z.div_mod_to_equations; lia).
      now rewrite Hq. }
  unfold onBar, bar_actions, chord_at. rewrite Hprog, Hidx, Hsince.
  destruct (js_index CHORD_PROGRESSIONS ((b / 16) mod 3)) as [prog|] eqn:Hp;
    [|destruct Hi as [Hi | [Hi | Hi]]; rewrite Hi in Hp; discriminate Hp].
  assert (Hlen : js_length prog = 4).
  { destruct Hi as [Hi | [Hi | Hi]]; rewrite Hi in Hp; injection Hp as <-; reflexivity. }
  rewrite Hlen, (js_rem_nonneg b 4) by lia.
  destruct (js_index prog (b mod 4)) as [c|] eqn:Hc.
  2:{ exfalso. destruct Hi as [Hi | [Hi | Hi]]; rewrite Hi in Hp; injection Hp as <-;
      destruct Hj as [Hj | [Hj | [Hj | Hj]]]; rewrite Hj in Hc; discriminate Hc. }
  cbv zeta. rewrite andb_false_r.
  assert (Hkeep : (if js_rem (b + 1) CHANGE_EVERY_BARS =? 0
                   then js_index CHORD_PROGRESSIONS (((b + 1) / 16) mod 3)
                   else Some prog)
                  = js_index CHORD_PROGRESSIONS (((b + 1) / 16) mod 3)).
  { destruct (js_rem (b + 1) CHANGE_EVERY_BARS =? 0); [reflexivity|].
    now rewrite <- Hnext, Hp. }
  destruct (gt (bassGainRef r) SILENCE_EPS); cbn [andb];
    (eexists; split; [reflexivity|]);
    unfold cycle_inv, with_bars; cbn [barsSinceChangeRef progIdxRef progressionRef
      drumsGainRef bassGainRef chordsGainRef bpmRef sfChord barCountRef emitted];
    rewrite Hnext, Hkeep; repeat split; reflexivity || lia.
Qed.

Lemma run_actions_gains r r' (times : list Q) : forall b,
  bassGainRef r' = bassGainRef r -> chordsGainRef r' = chordsGainRef r ->
  run_actions r' times b = run_actions r times b.
Proof.
  induction times as [|t rest IH]; intros b Hb Hc; [reflexivity|].
  cbn [run_actions]. unfold bar_actions. rewrite Hb, Hc, (IH (b + 1) Hb Hc).
  reflexivity.
Qed.

Lemma bar_run_cycle (times : list Q) : forall b r,
  cycle_inv b r ->
  all_return times b r = true /\
  cycle_inv (b + Z.of_nat (length times)) (bar_run times b r) /\
  bassGainRef (bar_run times b r) = bassGainRef r /\
  chordsGainRef (bar_run times b r) = chordsGainRef r /\
  emitted (bar_run times b r) = emitted r ++ run_actions r times b.
Proof.
  induction times as [|t rest IH]; intros b r Hinv.
  - cbn. rewrite Z.add_0_r, app_nil_r. auto.
  - destruct (onBar_cycle t b r Hinv)
      as (r' & Hr' & Hinv' & _ & Hbg & Hcg & _ & _ & _ & Hem).
    cbn [all_return bar_run run_actions]. rewrite Hr'. cbn [Eff.threw Eff.final negb andb].
    destruct (IH (b + 1) r' Hinv') as (Hret & Hfin & Hb' & Hc' & Hem').
    replace (b + Z.of_nat (length (t :: rest)))
      with (b + 1 + Z.of_nat (length rest)) by (cbn [length]; lia).
    repeat split; try assumption; try congruence; try apply Hfin.
    rewrite Hem', Hem, <- app_assoc.
    now rewrite (run_actions_gains r r' rest (b + 1) Hbg Hcg).
Qed.

End AppCycleFacts.

(** X23.  From the counters as [toggle] resets them, a run of the bar
    callbacks of the earlier [App] for bars 0, 1, 2, ... never throws; after
    [n] bars the progression in force is number [(n / 16) mod 3], the calls
    made are exactly those for the chords [chord_at 0], [chord_at 1], ...
    under the bass and chord gains, every such chord exists, and the chord
    of a bar repeats after 48 bars. *)
Theorem X23_progressions_cycle_every_sixteen_bars (r : AppCycle.refs) (times : list Q) (b : Z) :
  let n := Z.of_nat (length times) in
  let r' := AppCycle.bar_run times 0 (AppCycle.reset r) in
  AppCycle.all_return times 0 (AppCycle.reset r) = true /\
  AppCycle.progIdxRef r' = (n / 16) mod 3 /\
  AppCycle.progressionRef r' = js_index AppCycle.CHORD_PROGRESSIONS ((n / 16) mod 3) /\
  AppCycle.barsSinceChangeRef r' = n /\
  AppCycle.emitted r' = AppCycle.emitted r ++ AppCycle.run_actions r times 0 /\
  (0 <= b -> (exists c, AppCycle.chord_at b = Some c /\ js_length c = 4) /\
             AppCycle.chord_at (b + 48) = AppCycle.chord_at b).
Proof.
  intros n r'.
  assert (Hinv : AppCycle.cycle_inv 0 (AppCycle.reset r)).
  { unfold AppCycle.cycle_inv. cbn. repeat split; reflexivity || lia. }
  destruct (bar_run_cycle times 0 (AppCycle.reset r) Hinv)
    as (Hret & (_ & Hs & Hi & Hp) & _ & _ & Hem).
  fold r' in Hs, Hi, Hp, Hem. rewrite Z.add_0_l in Hs, Hi. fold n in Hs, Hi.
  split; [exact Hret|]. split; [exact Hi|]. split; [now rewrite Hp, Hi|].
  split; [exact Hs|].
  split; [rewrite Hem; f_equal; now apply run_actions_gains|].
  intros Hb. split; [now apply chord_at_defined|].
  unfold AppCycle.chord_at.
  replace ((b + 48) / 16) with (b / 16 + 1 * 3) by (Z.div_mod_to_equations; lia).
  rewrite Z_mod_plus_full.
  replace ((b + 48) mod 4) with (b mod 4) by (Z.div_mod_to_equations; lia).
  reflexivity.
Qed.

Lemma X23_progressions_cycle_every_sixteen_bars_witness :
  0 <= 17 /\
  (exists c, AppCycle.chord_at 17 = Some c /\ js_length c = 4) /\
  AppCycle.chord_at (17 + 48) = AppCycle.chord_at 17.
Proof.
  assert (H : 0 <= 17) by lia.
  split; [exact H|].
  exact (proj2 (proj2 (proj2 (proj2 (proj2
    (X23_progressions_cycle_every_sixteen_bars
       (AppCycle.mkRefs 1 1 1 96 true 0 0 None 0 []) [1%Q; (7 # 2)%Q] 17))))) H).
Defined.

(** X24.  [onSixteenth] of the earlier [App] makes no call at all while the
    drums gain is at or below [SILENCE_EPS].  With an audible drums bus a
    bar of sixteen slots makes twelve calls, and fourteen in every fourth
    bar: there slot 15 adds a hat and a snare, both half a sixteenth after
    the slot, and every other call carries the time of its slot. *)
Theorem X24_gated_drums_with_a_fill_every_fourth_bar
  (r : AppCycle.refs) (time t0 dur : Q) (sixteenth barIndex : Z) :
  (AppCycle.gt (AppCycle.drumsGainRef r) AppCycle.SILENCE_EPS = false ->
   AppCycle.onSixteenth r time sixteenth barIndex = [] /\
   AppCycle.drum_bar r t0 dur barIndex = []) /\
  (AppCycle.gt (AppCycle.drumsGainRef r) AppCycle.SILENCE_EPS = true ->
   0 <= barIndex ->
   length (AppCycle.drum_bar r t0 dur barIndex)
   = (if (barIndex + 1) mod 4 =? 0 then 14%nat else 12%nat) /\
   ((barIndex + 1) mod 4 = 0 -> ~ (AppCycle.bpmRef r == 0)%Q ->
    exists t', (t' == time + (1 # 2) * ((1 # 4) * (60 / AppCycle.bpmRef r)))%Q /\
      AppCycle.onSixteenth r time 15 barIndex
      = [AppCycle.TriggerHat t' (1 # 2) (3 # 100);
         AppCycle.TriggerSnare t' (35 # 100) (8 # 100)]) /\
   (sixteenth <> 15 \/ (barIndex + 1) mod 4 <> 0 ->
    Forall (fun a => a = AppCycle.TriggerKick time \/
                     a = AppCycle.TriggerSnare time (9 # 10) (12 # 100) \/
                     a = AppCycle.TriggerHat time (6 # 10) (4 # 100))
           (AppCycle.onSixteenth r time sixteenth barIndex))).
Proof.
  split.
  - intros Hg. unfold AppCycle.drum_bar, AppCycle.onSixteenth. rewrite Hg.
    split; reflexivity.
  - intros Hg Hb.
    assert (Hrem : js_rem (barIndex + 1) 4 = (barIndex + 1) mod 4)
      by (apply js_rem_nonneg; lia).
    split; [|split].
    + unfold AppCycle.drum_bar, AppCycle.onSixteenth. rewrite Hg, Hrem.
      destruct ((barIndex + 1) mod 4 =? 0); reflexivity.
    + intros Hz _. unfold AppCycle.onSixteenth. rewrite Hg, Hrem, Hz.
      eexists. split; [|reflexivity]. ring.
    + intros Hno. unfold AppCycle.onSixteenth. rewrite Hg, Hrem. cbn [andb].
      replace ((sixteenth =? 15) && ((barIndex + 1) mod 4 =? 0)) with false
        by (destruct (Z.eqb_spec sixteenth 15), (Z.eqb_spec ((barIndex + 1) mod 4) 0);
            cbn; reflexivity || lia).
      rewrite app_nil_r.
      destruct ((sixteenth =? 0) || (sixteenth =? 8));
        destruct ((sixteenth =? 4) || (sixteenth =? 12));
        destruct (js_rem sixteenth 2 =? 0); cbn [app];
        repeat (apply List.Forall_cons; [auto|]); apply List.Forall_nil.
Qed.

Lemma X24_gated_drums_with_a_fill_every_fourth_bar_witness :
  let r := AppCycle.mkRefs 1 1 1 96 true 0 0 None 0 [] in
  AppCycle.gt (AppCycle.drumsGainRef r) AppCycle.SILENCE_EPS = true /\
  0 <= 3 /\
  length (AppCycle.drum_bar r 10 (5 # 32) 3) = 14%nat /\
  Forall (fun a => a = AppCycle.TriggerKick 10 \/
                   a = AppCycle.TriggerSnare 10 (9 # 10) (12 # 100) \/
                   a = AppCycle.TriggerHat 10 (6 # 10) (4 # 100))
         (AppCycle.onSixteenth r 10 8 3).
Proof.
  intros r.
  assert (Hg : AppCycle.gt (AppCycle.drumsGainRef r) AppCycle.SILENCE_EPS = true)
    by reflexivity.
  assert (Hb : 0 <= 3) by lia.
  destruct (proj2 (X24_gated_drums_with_a_fill_every_fourth_bar r 10 10 (5 # 32) 8 3) Hg Hb)
    as (Hlen & _ & Hall).
  split; [exact Hg|]. split; [exact Hb|]. split; [exact Hlen|].
  apply Hall. left. lia.
Defined.
